(** * Wordle solver: feedback engine, candidate filter and solve loop

    Shallow embedding of [src/backend/wordle_solver/solver_lib.py], and,
    in the module [Api] at the end, of the handlers of
    [src/backend/api.py] that use it.

    - A word is a Python tuple of ints, here a [list Z]; a feedback is a
      Python list of the one-letter strings 'G', 'Y', 'B', here a
      [list mark].
    - [collections.Counter] and the positional [defaultdict(int)]s are
      finite maps ([gmap Z _]) read with a default of 0; the two
      dictionaries of [update_model], whose iteration order decides the
      order in which constraints are posted, are association lists in
      insertion order.
    - Python exceptions are explicit: fallible functions return a
      [result], which is either [Ok v] or [Raise e].
    - Frequencies are Python floats, here Rocq's primitive binary64 floats.
    - [solve_wordle] mutates the list it is given: the state of the loop
      records whether [valid_words] still names the caller's list.
    - The OR-Tools CP-SAT solver is outside the repository.  The model that
      the code builds is kept as data ([CpModel]) and the solver is a
      parameter of the development, constrained only by the contract that an
      answer it gives satisfies the model.
    - [print_output] only switches printing on and is left out. *)

From Stdlib Require Import ZArith List Floats Uint63 Ascii Lia.
From stdpp Require Import base option list gmap strings.
Import ListNotations.
Open Scope Z_scope.

(** ** Python exceptions

    [ArityError] stands for the exception that OR-Tools raises on a tuple
    of the wrong arity: its class is [TypeError] in some releases of the
    library and [ValueError] in others, and the repository pins none. *)

Inductive exn :=
| IndexError | ValueError | TypeError | AttributeError | ArityError.

Inductive result (A : Type) :=
| Ok (a : A)
| Raise (e : exn).
Arguments Ok {A} a.
Arguments Raise {A} e.

#[global] Instance result_bind : MBind result :=
  fun A R (k : A -> result R) (r : result A) =>
    match r with
    | Ok a => k a
    | Raise e => Raise e
    end.

#[global] Instance result_ret : MRet result := fun A a => Ok a.

(** [l[i]] for a non-negative index [i]. *)
Definition getitem {A : Type} (l : list A) (i : nat) : result A :=
  match l !! i with
  | Some x => Ok x
  | None => Raise IndexError
  end.

(** ** Data *)

(** The three feedback letters. *)
Inductive mark := G | Y | B.

#[global] Instance mark_eq_dec : EqDecision mark.
Proof. solve_decision. Defined.

Abbreviation word := (list Z).

(** ** [collections.Counter] *)

(** [c[k]]: a missing key reads as 0. *)
Definition counter_get (c : gmap Z Z) (k : Z) : Z := default 0 (c !! k).

(** [c[k] += d] *)
Definition counter_add (c : gmap Z Z) (k d : Z) : gmap Z Z :=
  <[k := counter_get c k + d]> c.

(** [Counter(xs)] *)
Definition Counter (xs : list Z) : gmap Z Z :=
  fold_left (fun c x => counter_add c x 1) xs ∅.

(** [enumerate(l)] *)
Fixpoint enumerate_from {A : Type} (k : nat) (l : list A) : list (nat * A) :=
  match l with
  | [] => []
  | x :: l' => (k, x) :: enumerate_from (S k) l'
  end.

Definition enumerate {A : Type} (l : list A) : list (nat * A) :=
  enumerate_from 0 l.

(** ** [get_feedback] *)

(** Body of the first [for] loop: append 'G' and decrement, or append 'B'. *)
Definition first_pass_step (acc : list mark * gmap Z Z) (gt : Z * Z)
  : list mark * gmap Z Z :=
  let '(feedback, target_counts) := acc in
  let '(g_char, t_char) := gt in
  if bool_decide (g_char = t_char)
  then (feedback ++ [G], counter_add target_counts g_char (-1))
  else (feedback ++ [B], target_counts).

(** Body of the second [for] loop.  [pos] ranges over the positions of
    [zip(guess, target)], and [feedback] has one entry for each of them, so
    [feedback[pos]] is always in range. *)
Definition second_pass_step (acc : list mark * gmap Z Z) (e : nat * (Z * Z))
  : list mark * gmap Z Z :=
  let '(feedback, target_counts) := acc in
  let '(pos, (g_char, t_char)) := e in
  if bool_decide (feedback !! pos = Some B)
     && bool_decide (is_Some (target_counts !! g_char))
     && bool_decide (0 < counter_get target_counts g_char)
  then (<[pos := Y]> feedback, counter_add target_counts g_char (-1))
  else (feedback, target_counts).

Definition get_feedback (guess target : word) : list mark :=
  let after_first :=
    fold_left first_pass_step (zip guess target) ([], Counter target) in
  fst (fold_left second_pass_step (enumerate (zip guess target)) after_first).

(** ** The two-pass algorithm as the specification words it

    The remaining count is a function from letters to counts, initialised
    from the multiset of the target's letters. *)

Definition multiset_of (t : word) : Z -> Z :=
  fun c => Z.of_nat (count_occ Z.eq_dec t c).

Definition decrement (r : Z -> Z) (c : Z) : Z -> Z :=
  fun x => if bool_decide (x = c) then r x - 1 else r x.

(** First pass: which positions are Correct, and what remains. *)
Fixpoint correct_pass (guess target : word) (r : Z -> Z)
  : list bool * (Z -> Z) :=
  match guess, target with
  | g :: guess', t :: target' =>
      if bool_decide (g = t)
      then let '(cs, r') := correct_pass guess' target' (decrement r g) in
           (true :: cs, r')
      else let '(cs, r') := correct_pass guess' target' r in
           (false :: cs, r')
  | _, _ => ([], r)
  end.

(** Second pass: every position not already Correct becomes Present while
    its letter has a positive remaining count, Absent otherwise. *)
Fixpoint present_pass (guess : word) (cs : list bool) (r : Z -> Z)
  : list mark :=
  match guess, cs with
  | g :: guess', c :: cs' =>
      if c then G :: present_pass guess' cs' r
      else if bool_decide (0 < r g)
           then Y :: present_pass guess' cs' (decrement r g)
           else B :: present_pass guess' cs' r
  | _, _ => []
  end.

Definition two_pass_feedback (guess target : word) : list mark :=
  let '(cs, r) := correct_pass guess target (multiset_of target) in
  present_pass guess cs r.

(** Number of positions marked 'G' or 'Y' at which the guess has letter
    [L]. *)
Fixpoint marked_count (L : Z) (guess : word) (fb : list mark) : nat :=
  match guess, fb with
  | g :: guess', f :: fb' =>
      (if bool_decide (g = L) && (bool_decide (f = G) || bool_decide (f = Y))
       then 1 else 0)%nat + marked_count L guess' fb'
  | _, _ => 0%nat
  end.

(** ** [filter_valid_words] *)

(** [range(5)] *)
Definition range5 : list nat := [0; 1; 2; 3; 4]%nat.

(** A [for] loop whose body may set [valid_word = False] and [break]:
    [body x] answers [false] in that case. *)
Fixpoint for_valid {A : Type} (body : A -> result bool) (l : list A)
  : result bool :=
  match l with
  | [] => Ok true
  | x :: l' => valid ← body x; if valid : bool then for_valid body l' else Ok false
  end.

(** [if feedback[pos] == 'G' and word[pos] != guess[pos]: valid_word = False] *)
Definition green_body (w guess : word) (fb : list mark) (pos : nat)
  : result bool :=
  f ← getitem fb pos;
  if decide (f = G)
  then wc ← getitem w pos; gc ← getitem guess pos; Ok (bool_decide (wc = gc))
  else Ok true.

(** [if feedback[pos] == 'Y': if word[pos] == guess[pos] or guess[pos] not in
    word: valid_word = False] *)
Definition yellow_body (w guess : word) (fb : list mark) (pos : nat)
  : result bool :=
  f ← getitem fb pos;
  if decide (f = Y)
  then wc ← getitem w pos;
       gc ← getitem guess pos;
       if bool_decide (wc = gc) then Ok false
       else gc' ← getitem guess pos; Ok (bool_decide (gc' ∈ w))
  else Ok true.

(** [[guess[pos] for pos in range(5) if keep(feedback[pos])]] *)
Fixpoint letters_where (keep : mark -> bool) (guess : word) (fb : list mark)
  (positions : list nat) : result (list Z) :=
  match positions with
  | [] => Ok []
  | pos :: positions' =>
      f ← getitem fb pos;
      if keep f
      then gc ← getitem guess pos;
           rest ← letters_where keep guess fb positions';
           Ok (gc :: rest)
      else letters_where keep guess fb positions'
  end.

Definition is_gray (f : mark) : bool := bool_decide (f = B).
Definition is_green_or_yellow (f : mark) : bool :=
  bool_decide (f = G) || bool_decide (f = Y).

(** [if char in word and char not in [guess[p] for p in range(5) if
    feedback[p] in ('G', 'Y')]: valid_word = False] *)
Definition gray_body (w guess : word) (fb : list mark) (char : Z)
  : result bool :=
  if bool_decide (char ∈ w)
  then marked ← letters_where is_green_or_yellow guess fb range5;
       Ok (bool_decide (char ∈ marked))
  else Ok true.

(** The body of the loop over [words_data]: is [w] kept? *)
Definition word_is_valid (w guess : word) (fb : list mark) : result bool :=
  green ← for_valid (green_body w guess fb) range5;
  if negb green then Ok false
  else
    yellow ← for_valid (yellow_body w guess fb) range5;
    if negb yellow then Ok false
    else
      gray_chars ← letters_where is_gray guess fb range5;
      for_valid (gray_body w guess fb) gray_chars.

(** The kept words are appended in the order of [words_data]. *)
Fixpoint filter_valid_words (words_data : list word) (guess : word)
  (fb : list mark) : result (list word) :=
  match words_data with
  | [] => Ok []
  | w :: rest =>
      keep ← word_is_valid w guess fb;
      valid ← filter_valid_words rest guess fb;
      Ok (if keep : bool then w :: valid else valid)
  end.

(** ** Frequency statistics

    Python's floats are IEEE binary64, as are Rocq's primitive floats. *)

Definition float_of_int (n : Z) : float := PrimFloat.of_uint63 (Uint63.of_Z n).

(** [a / b] on two ints (the counts here are far below 2^53, where the
    quotient of the converted operands is the correctly rounded quotient). *)
Definition truediv (a b : Z) : float :=
  PrimFloat.div (float_of_int a) (float_of_int b).

(** [int(x)]: truncation towards zero.  The values it is applied to are
    finite (sums of scaled quotients of positive counts); the branches for
    infinities and NaN, where Python raises, are never taken. *)
Definition int_of_float (x : float) : Z :=
  match Prim2SF x with
  | S754_finite s m e =>
      let v := if bool_decide (0 <= e) then Z.pos m * 2 ^ e
               else Z.pos m / 2 ^ (- e) in
      if s then - v else v
  | _ => 0
  end.

(** A [for] loop that threads a state. *)
Fixpoint for_fold {A S : Type} (body : S -> A -> result S) (l : list A) (s : S)
  : result S :=
  match l with
  | [] => Ok s
  | x :: l' => s' ← body s x; for_fold body l' s'
  end.

(** [char = word[pos]; positional_freq[pos][char] += 1] *)
Definition count_position (w : word) (pf : list (gmap Z Z)) (pos : nat)
  : result (list (gmap Z Z)) :=
  char ← getitem w pos;
  Ok (alter (fun d => counter_add d char 1) pos pf).

Definition positional_counts (valid_words : list word)
  : result (list (gmap Z Z)) :=
  for_fold (fun pf w => for_fold (count_position w) range5 pf)
    valid_words (replicate 5 ∅).

(** [total_pos = sum(positional_freq[pos].values())], then every count is
    replaced by [freq / total_pos]. *)
Definition normalise_position (d : gmap Z Z) : gmap Z float :=
  let total_pos := map_fold (fun _ v acc => v + acc) 0 d in
  (fun freq => truediv freq total_pos) <$> d.

(** [Counter(itertools.chain.from_iterable(valid_words))], every count then
    replaced by [freq / total_words].  On an empty list there is no key, and
    no division takes place. *)
Definition letter_frequencies (valid_words : list word) : gmap Z float :=
  let total_words := Z.of_nat (length valid_words) in
  (fun freq => truediv freq total_words) <$> Counter (concat valid_words).

Record FrequencyModel := {
  positional_freq : list (gmap Z float);
  letter_frequency : gmap Z float
}.

(** Lines 201-217 of [solve_wordle]. *)
Definition frequency_model (valid_words : list word) : result FrequencyModel :=
  counts ← positional_counts valid_words;
  Ok {| positional_freq := normalise_position <$> counts;
        letter_frequency := letter_frequencies valid_words |}.

(** ** The CP-SAT model

    The model is kept as the list of what the code posts on the five
    [position_vars] (each an [IntVar(0, 25)]).  The Boolean variables that
    [update_model] and [update_heuristic] create are auxiliary: a constraint
    is recorded by what it requires of the position variables once those
    Booleans are chosen freely. *)

Inductive constraint :=
| PosEq (pos : nat) (char : Z)   (* model.Add(position_vars[pos] == char) *)
| PosNe (pos : nat) (char : Z)   (* model.Add(position_vars[pos] != char) *)
| Occurs (char : Z) (gray : list nat) (count : Z).
    (* occurs[p] <=> position_vars[p] == char for p in range(5) outside gray,
       occurs[p] unconstrained for p in gray, sum(occurs) >= count *)

(** [model.Maximize(sum(objective))]: the score of letter [char] at position
    [pos] is [scores[pos][char]], and [c_dup] is charged per duplicated
    letter. *)
Record Objective := {
  scores : list (list Z);
  c_dup : Z
}.

Record CpModel := {
  tables : list (list word);      (* AddAllowedAssignments, oldest first *)
  constraints : list constraint;  (* model.Add, oldest first *)
  objective : option Objective
}.

(** [cp_model.CpModel()] with its five position variables. *)
Definition new_model : CpModel :=
  {| tables := []; constraints := []; objective := None |}.

Definition Add (m : CpModel) (c : constraint) : CpModel :=
  {| tables := tables m; constraints := constraints m ++ [c];
     objective := objective m |}.

(** [model.AddAllowedAssignments(position_vars, tuples_list)]: OR-Tools
    refuses a tuple whose arity is not that of the variables. *)
Definition AddAllowedAssignments (m : CpModel) (tuples_list : list word)
  : result CpModel :=
  if forallb (fun t => bool_decide (length t = 5%nat)) tuples_list
  then Ok {| tables := tables m ++ [tuples_list];
             constraints := constraints m;
             objective := objective m |}
  else Raise ArityError.

(** *** [update_heuristic] *)

Definition c_pos_freq : float := 1000%float.
Definition c_letter_freq : float := 2000%float.

(** [int(c_pos_freq * positional_freq[pos][char] + c_letter_freq *
    letter_frequency[char])]; both dictionaries read a missing key as 0. *)
Definition score (fm : FrequencyModel) (pos : nat) (char : Z) : Z :=
  let pf := default 0%float (default ∅ (positional_freq fm !! pos) !! char) in
  let lf := default 0%float (letter_frequency fm !! char) in
  int_of_float (PrimFloat.add (PrimFloat.mul c_pos_freq pf)
                              (PrimFloat.mul c_letter_freq lf)).

Definition score_table (fm : FrequencyModel) : list (list Z) :=
  (fun pos => (fun char => score fm pos (Z.of_nat char)) <$> seq 0 26)
    <$> range5.

(** The channelling Booleans constrain no position variable; what remains
    of the call is the objective it installs. *)
Definition update_heuristic (m : CpModel) (fm : FrequencyModel) : CpModel :=
  {| tables := tables m; constraints := constraints m;
     objective := Some {| scores := score_table fm; c_dup := 500 |} |}.

(** *** [update_model] *)

(** A [defaultdict] in insertion order: [d[k] = f(d[k])]. *)
Fixpoint dict_update {V : Type} (dflt : V) (f : V -> V) (k : Z)
  (d : list (Z * V)) : list (Z * V) :=
  match d with
  | [] => [(k, f dflt)]
  | (k', v) :: d' =>
      if bool_decide (k' = k) then (k', f v) :: d'
      else (k', v) :: dict_update dflt f k d'
  end.

(** [d.get(k, dflt)] *)
Fixpoint dict_get {V : Type} (dflt : V) (k : Z) (d : list (Z * V)) : V :=
  match d with
  | [] => dflt
  | (k', v) :: d' => if bool_decide (k' = k) then v else dict_get dflt k d'
  end.

Definition marks_body (guess : word) (fb : list mark)
  (acc : CpModel * list (Z * Z) * list (Z * list nat)) (pos : nat)
  : result (CpModel * list (Z * Z) * list (Z * list nat)) :=
  let '(m, letter_counts, gray_positions) := acc in
  char ← getitem guess pos;
  f ← getitem fb pos;
  match f with
  | G => Ok (Add m (PosEq pos char),
             dict_update 0 (Z.add 1) char letter_counts, gray_positions)
  | Y => Ok (Add m (PosNe pos char),
             dict_update 0 (Z.add 1) char letter_counts, gray_positions)
  | B => Ok (m, letter_counts,
             dict_update [] (fun ps => ps ++ [pos]) char gray_positions)
  end.

Definition gray_constraints (m : CpModel) (gray_positions : list (Z * list nat))
  : CpModel :=
  fold_left (fun m '(char, positions) =>
               fold_left (fun m pos => Add m (PosNe pos char)) positions m)
    gray_positions m.

Definition occurs_constraints (m : CpModel) (letter_counts : list (Z * Z))
  (gray_positions : list (Z * list nat)) : CpModel :=
  fold_left (fun m '(char, count) =>
               Add m (Occurs char (dict_get [] char gray_positions) count))
    letter_counts m.

Definition update_model (m : CpModel) (guess : word) (fb : list mark)
  : result CpModel :=
  '(m1, letter_counts, gray_positions) ←
    for_fold (marks_body guess fb) range5 (m, [], []);
  Ok (occurs_constraints (gray_constraints m1 gray_positions)
        letter_counts gray_positions).

(** *** What a model requires of an assignment of the position variables *)

Definition sat (w : word) (c : constraint) : bool :=
  match c with
  | PosEq pos char => bool_decide (w !! pos = Some char)
  | PosNe pos char => negb (bool_decide (w !! pos = Some char))
  | Occurs char gray count =>
      bool_decide
        (count <= Z.of_nat (length (filter
           (fun p => p ∈ gray \/ w !! p = Some char) range5)))
  end.

Definition in_domain (w : word) : Prop :=
  length w = 5%nat /\ Forall (fun c => 0 <= c <= 25) w.

Definition feasible (m : CpModel) (w : word) : Prop :=
  in_domain w
  /\ Forall (fun tbl => w ∈ tbl) (tables m)
  /\ Forall (fun c => sat w c = true) (constraints m).

(** ** [solve_wordle] *)

(** The dictionary returned to the caller. *)
Record Response := {
  guesses : list string;
  feedback : list (list mark);
  nb_possible_words : list nat
}.

(** What the local variable [valid_words] refers to: the list object the
    caller passed in, or a list built by [filter_valid_words], which nothing
    else refers to. *)
Inductive list_ref :=
| CallerList
| OwnList (l : list word).

Record loop_state := {
  valid_words : list_ref;
  caller_list : list word;       (* contents of the caller's list object *)
  model : CpModel;
  response : Response;
  solver_calls : list CpModel    (* the models [solver.Solve] was run on *)
}.

(** The contents of the list [valid_words] refers to. *)
Definition current (st : loop_state) : list word :=
  match valid_words st with
  | CallerList => caller_list st
  | OwnList l => l
  end.

(** [l.remove(x)]: drops the first occurrence, [ValueError] if there is
    none. *)
Fixpoint list_remove (x : word) (l : list word) : result (list word) :=
  match l with
  | [] => Raise ValueError
  | y :: l' =>
      if bool_decide (y = x) then Ok l'
      else rest ← list_remove x l'; Ok (y :: rest)
  end.

(** [[ord(c) - ord('a') for c in target_word]] *)
Definition word_of_string (s : string) : word :=
  (fun c => Z.of_nat (nat_of_ascii c) - 97) <$> String.list_ascii_of_string s.

(** [''.join(chr(c + ord('a')) for c in guess)]; [guess] holds values of
    the position variables, which lie in [0, 25]. *)
Definition string_of_word (w : word) : string :=
  String.string_of_list_ascii ((fun c => ascii_of_nat (Z.to_nat (c + 97))) <$> w).

(** The three [return] statements. *)
Inductive exit := Solved | Infeasible | Exhausted.

Inductive outcome :=
| Continue (st : loop_state)
| Return (e : exit) (st : loop_state).

(** The model [solver.Solve] is run on in a round that starts in [st]. *)
Definition submitted_model (fm : FrequencyModel) (st : loop_state)
  : result CpModel :=
  m ← AddAllowedAssignments (model st) (current st);
  Ok (update_heuristic m fm).

(** [valid_words.remove(guess)] acts on the object the variable refers
    to. *)
Definition remove_guess (guess : word) (st : loop_state)
  : result (list_ref * list word) :=
  match valid_words st with
  | CallerList =>
      l ← list_remove guess (caller_list st); Ok (CallerList, l)
  | OwnList own =>
      l ← list_remove guess own; Ok (OwnList l, caller_list st)
  end.

(** One iteration of [for attempt in range(max_attempts)].  [Solve m] is
    [Some w] when the status is OPTIMAL or FEASIBLE, with [w] the values of
    the position variables, and [None] for any other status. *)
Definition attempt (Solve : CpModel -> option word) (fm : FrequencyModel)
  (target_as_int : word) (st : loop_state) : result outcome :=
  m ← submitted_model fm st;
  let calls := solver_calls st ++ [m] in
  match Solve m with
  | Some guess =>
      '(ref, caller) ← remove_guess guess st;
      let remaining := match ref with CallerList => caller | OwnList l => l end in
      let guess_str := string_of_word guess in
      let fb := get_feedback guess target_as_int in
      let resp :=
        {| guesses := guesses (response st) ++ [guess_str];
           feedback := feedback (response st) ++ [fb];
           nb_possible_words :=
             nb_possible_words (response st) ++ [length remaining] |} in
      if bool_decide (fb = replicate 5 G)
      then Ok (Return Solved
                 {| valid_words := ref; caller_list := caller; model := m;
                    response := resp; solver_calls := calls |})
      else
        filtered ← filter_valid_words remaining guess fb;
        m' ← update_model m guess fb;
        Ok (Continue
              {| valid_words := OwnList filtered; caller_list := caller;
                 model := m'; response := resp; solver_calls := calls |})
  | None =>
      Ok (Return Infeasible
            {| valid_words := valid_words st; caller_list := caller_list st;
               model := m; response := response st; solver_calls := calls |})
  end.

Fixpoint attempts (Solve : CpModel -> option word) (fm : FrequencyModel)
  (target_as_int : word) (n : nat) (st : loop_state)
  : result (exit * loop_state) :=
  match n with
  | O => Ok (Exhausted, st)
  | S n' =>
      o ← attempt Solve fm target_as_int st;
      match o with
      | Continue st' => attempts Solve fm target_as_int n' st'
      | Return e st' => Ok (e, st')
      end
  end.

Definition initial_state (words : list word) : loop_state :=
  {| valid_words := CallerList; caller_list := words; model := new_model;
     response := {| guesses := []; feedback := []; nb_possible_words := [] |};
     solver_calls := [] |}.

(** The whole call: the frequencies are computed once from the list passed
    in, then the loop runs.  The result tells which [return] was taken and
    gives the final state. *)
Definition solve_wordle_run (Solve : CpModel -> option word)
  (words : list word) (target_word : string) (max_attempts : Z)
  : result (exit * loop_state) :=
  let target_as_int := word_of_string target_word in
  fm ← frequency_model words;
  attempts Solve fm target_as_int (Z.to_nat max_attempts) (initial_state words).

(** The value [solve_wordle] returns. *)
Definition solve_wordle (Solve : CpModel -> option word)
  (words : list word) (target_word : string) (max_attempts : Z)
  : result Response :=
  '(_, st) ← solve_wordle_run Solve words target_word max_attempts;
  Ok (response st).

(** The caller's list once [solve_wordle] has returned. *)
Definition caller_list_after (Solve : CpModel -> option word)
  (words : list word) (target_word : string) (max_attempts : Z)
  : result (list word) :=
  '(_, st) ← solve_wordle_run Solve words target_word max_attempts;
  Ok (caller_list st).

(** ** A reference solver

    One behaviour the contract allows: enumerate the first table, keep the
    assignments every table and constraint accepts, and answer the first one
    of maximal objective. *)

Definition in_domainb (w : word) : bool :=
  bool_decide (length w = 5%nat)
  && forallb (fun c => bool_decide (0 <= c <= 25)) w.

Definition feasibleb (m : CpModel) (w : word) : bool :=
  in_domainb w
  && forallb (fun tbl => bool_decide (w ∈ tbl)) (tables m)
  && forallb (sat w) (constraints m).

(** Number of letters that occur more than once in [w]. *)
Definition num_duplicates (w : word) : Z :=
  Z.of_nat (length (filter
    (fun char => (1 < count_occ Z.eq_dec w (Z.of_nat char))%nat) (seq 0 26))).

Definition objective_value (o : option Objective) (w : word) : Z :=
  match o with
  | None => 0
  | Some obj =>
      foldr Z.add 0
        ((fun '(pos, char) =>
            default 0 (default [] (scores obj !! pos) !! Z.to_nat char))
           <$> enumerate w)
      - c_dup obj * num_duplicates w
  end.

Definition better (o : option Objective) (best : option word) (w : word)
  : option word :=
  match best with
  | None => Some w
  | Some b => if bool_decide (objective_value o b < objective_value o w)
              then Some w else Some b
  end.

Definition enum_solver (m : CpModel) : option word :=
  match tables m with
  | [] => None
  | tbl :: _ =>
      fold_left (better (objective m))
        (filter (fun w => feasibleb m w = true) tbl) None
  end.

(** The dictionary of the end-to-end scenario. *)
Definition crane : word := [2; 17; 0; 13; 4].
Definition slate : word := [18; 11; 0; 19; 4].
Definition irate : word := [8; 17; 0; 19; 4].
Definition trace : word := [19; 17; 0; 2; 4].
Definition scenario : list word := [crane; slate; irate; trace].

(** * Vocabulary of the statements *)

(** Words of the game have five letters. *)
Definition five_letters (words : list word) : Prop :=
  Forall (fun w => length w = 5%nat) words.

(** The contract of the solver: an answer satisfies the model. *)
Definition sound (Solve : CpModel -> option word) : Prop :=
  forall m w, Solve m = Some w -> feasible m w.

(** The objective [update_heuristic] installs from a frequency model. *)
Definition installed_objective (fm : FrequencyModel) : option Objective :=
  Some {| scores := score_table fm; c_dup := 500 |}.

(** The feedback letter the first loop writes. *)
Definition mark_of_correct (c : bool) : mark := if c then G else B.

(** Positions found Correct in the first pass that hold letter [L]. *)
Fixpoint greens (L : Z) (guess : word) (cs : list bool) : nat :=
  match guess, cs with
  | g :: guess', c :: cs' =>
      (if bool_decide (g = L) && c then 1 else 0)%nat + greens L guess' cs'
  | _, _ => 0%nat
  end.

(** [m'] is [m] with further constraints posted. *)
Definition extends (m m' : CpModel) : Prop :=
  tables m' = tables m /\ objective m' = objective m
  /\ exists extra, constraints m' = constraints m ++ extra.

(** [pos] is recorded among the gray positions of [char]. *)
Definition gray_at (gray_positions : list (Z * list nat)) (char : Z) (pos : nat)
  : Prop :=
  exists positions, (char, positions) ∈ gray_positions /\ pos ∈ positions.

(** ** One round, as a relation *)

Section Round.
Variable Solve : CpModel -> option word.
Variable fm : FrequencyModel.
Variable target : word.

(** The response once [guess] has been played, [remaining] being the
    list [valid_words] refers to after [valid_words.remove(guess)]. *)
Definition played (st : loop_state) (guess : word) (remaining : list word)
  : Response :=
  {| guesses := guesses (response st) ++ [string_of_word guess];
     feedback := feedback (response st) ++ [get_feedback guess target];
     nb_possible_words :=
       nb_possible_words (response st) ++ [length remaining] |}.

(** A guess was obtained and recorded in the round from [st] to [st']. *)
Record guessed (st st' : loop_state) (m : CpModel) (guess : word)
  (remaining : list word) : Prop := {
  guessed_model : submitted_model fm st = Ok m;
  guessed_solve : Solve m = Some guess;
  guessed_remove : list_remove guess (current st) = Ok remaining;
  guessed_response : response st' = played st guess remaining;
  guessed_calls : solver_calls st' = solver_calls st ++ [m];
  guessed_caller :
    caller_list st' = match valid_words st with
                      | CallerList => remaining
                      | OwnList _ => caller_list st
                      end
}.

(** The three ways a round can end. *)
Inductive round (st : loop_state) : outcome -> Prop :=
| round_infeasible m st' :
    submitted_model fm st = Ok m ->
    Solve m = None ->
    response st' = response st ->
    caller_list st' = caller_list st ->
    valid_words st' = valid_words st ->
    model st' = m ->
    solver_calls st' = solver_calls st ++ [m] ->
    round st (Return Infeasible st')
| round_solved m guess remaining st' :
    guessed st st' m guess remaining ->
    get_feedback guess target = replicate 5 G ->
    model st' = m ->
    current st' = remaining ->
    round st (Return Solved st')
| round_continue m guess remaining filtered m' st' :
    guessed st st' m guess remaining ->
    get_feedback guess target <> replicate 5 G ->
    filter_valid_words remaining guess (get_feedback guess target)
      = Ok filtered ->
    update_model m guess (get_feedback guess target) = Ok m' ->
    model st' = m' ->
    valid_words st' = OwnList filtered ->
    round st (Continue st').
End Round.

(** The guesses played so far, as words: pairwise distinct, and each one
    rejected by a constraint of the model. *)
Definition excluded_guesses (st : loop_state) (gs : list word) : Prop :=
  guesses (response st) = string_of_word <$> gs
  /\ NoDup gs /\ Forall in_domain gs
  /\ forall g, g ∈ gs -> exists c, c ∈ constraints (model st) /\ sat g c = false.

(** The count appended in a round is the length of the table of that round
    less the guess. *)
Definition counts_follow_tables (st : loop_state) : Prop :=
  nb_possible_words (response st)
  = (fun tbl => (length tbl - 1)%nat) <$> tables (model st)
  /\ length (guesses (response st)) = length (tables (model st)).

(** * Properties *)

(** ** The result monad *)

Lemma getitem_Ok {A : Type} (l : list A) (i : nat) (x : A) :
  getitem l i = Ok x <-> l !! i = Some x.
Proof. unfold getitem. destruct (l !! i); split; congruence. Qed.

(** ** [Counter] read as a multiset *)

Lemma counter_get_add (tc : gmap Z Z) (k d c : Z) :
  counter_get (counter_add tc k d) c
  = if bool_decide (c = k) then counter_get tc c + d else counter_get tc c.
Proof.
  unfold counter_add, counter_get at 1. case_bool_decide as Hc.
  - subst c. by rewrite lookup_insert_eq.
  - by rewrite lookup_insert_ne.
Qed.

Lemma counter_get_fold (xs : list Z) (tc : gmap Z Z) (c : Z) :
  counter_get (fold_left (fun c x => counter_add c x 1) xs tc) c
  = counter_get tc c + Z.of_nat (count_occ Z.eq_dec xs c).
Proof.
  revert tc. induction xs as [|x xs IH]; intros tc; simpl; [lia|].
  rewrite IH, counter_get_add. case_bool_decide as Hc.
  - subst x. destruct (Z.eq_dec c c); [lia | congruence].
  - destruct (Z.eq_dec x c); [congruence | lia].
Qed.

Lemma counter_get_Counter (t : word) (c : Z) :
  counter_get (Counter t) c = multiset_of t c.
Proof. unfold Counter, multiset_of. by rewrite counter_get_fold. Qed.

Lemma counter_positive_key (tc : gmap Z Z) (c : Z) :
  0 < counter_get tc c -> is_Some (tc !! c).
Proof. unfold counter_get. destruct (tc !! c); [eauto | simpl; lia]. Qed.

(** ** [get_feedback] is the two-pass algorithm *)

Lemma first_pass_fold (guess target : word) :
  forall (fb : list mark) (tc : gmap Z Z) (r : Z -> Z),
    (forall c, counter_get tc c = r c) ->
    exists tc',
      fold_left first_pass_step (zip guess target) (fb, tc)
      = (fb ++ (mark_of_correct <$> (correct_pass guess target r).1), tc')
      /\ forall c, counter_get tc' c = (correct_pass guess target r).2 c.
Proof.
  revert target.
  induction guess as [|g guess IH]; intros [|t target] fb tc r Hr; simpl;
    try (exists tc; rewrite app_nil_r; by auto).
  case_bool_decide as Hgt.
  - destruct (IH target (fb ++ [G]) (counter_add tc g (-1)) (decrement r g))
      as (tc' & Hfold & Hget).
    { intros c. rewrite counter_get_add. unfold decrement.
      case_bool_decide; rewrite Hr; lia. }
    destruct (correct_pass guess target (decrement r g)) as [cs r'] eqn:Hcp.
    exists tc'. simpl in *. rewrite Hfold, <- app_assoc. by auto.
  - destruct (IH target (fb ++ [B]) tc r Hr) as (tc' & Hfold & Hget).
    destruct (correct_pass guess target r) as [cs r'] eqn:Hcp.
    exists tc'. simpl in *. rewrite Hfold, <- app_assoc. by auto.
Qed.

Lemma correct_pass_length (guess target : word) (r : Z -> Z) :
  length (correct_pass guess target r).1 = length (zip guess target).
Proof.
  revert target r.
  induction guess as [|g guess IH]; intros [|t target] r; simpl; try done.
  case_bool_decide.
  - specialize (IH target (decrement r g)).
    destruct (correct_pass guess target (decrement r g)); simpl in *; lia.
  - specialize (IH target r).
    destruct (correct_pass guess target r); simpl in *; lia.
Qed.

Lemma second_pass_fold (guess target : word) :
  forall (pre : list mark) (cs : list bool) (tc : gmap Z Z) (r : Z -> Z),
    (forall c, counter_get tc c = r c) ->
    length cs = length (zip guess target) ->
    (fold_left second_pass_step
       (enumerate_from (length pre) (zip guess target))
       (pre ++ (mark_of_correct <$> cs), tc)).1
    = pre ++ present_pass guess cs r.
Proof.
  revert target.
  induction guess as [|g guess IH]; intros [|t target] pre cs tc r Hr Hlen;
    simpl in *; destruct cs as [|c cs]; try discriminate; try done.
  injection Hlen as Hlen.
  assert (Hk : (pre ++ mark_of_correct c :: (mark_of_correct <$> cs))
                 !! length pre = Some (mark_of_correct c)).
  { by rewrite list_lookup_middle. }
  rewrite fmap_cons, Hk.
  destruct c; simpl.
  - rewrite (cons_middle G pre), app_assoc.
    replace (S (length pre)) with (length (pre ++ [G]))
      by (rewrite length_app; simpl; lia).
    rewrite (IH target (pre ++ [G]) cs tc r Hr Hlen).
    by rewrite <- app_assoc.
  - rewrite <- Hr.
    destruct (bool_decide (0 < counter_get tc g)) eqn:Hpos.
    + apply bool_decide_eq_true_1 in Hpos as Hpos'.
      rewrite bool_decide_eq_true_2 by (by apply counter_positive_key).
      simpl.
      replace (<[length pre:=Y]> (pre ++ B :: (mark_of_correct <$> cs)))
        with ((pre ++ [Y]) ++ (mark_of_correct <$> cs)).
      2:{ rewrite insert_app_r_alt by lia.
          rewrite Nat.sub_diag. simpl. by rewrite <- app_assoc. }
      replace (S (length pre)) with (length (pre ++ [Y]))
        by (rewrite length_app; simpl; lia).
      rewrite (IH target (pre ++ [Y]) cs (counter_add tc g (-1))
                 (decrement r g)); [by rewrite <- app_assoc| |done].
      intros c. rewrite counter_get_add. unfold decrement.
      destruct (bool_decide (c = g)); rewrite Hr; lia.
    + rewrite andb_false_r.
      rewrite (cons_middle B pre), app_assoc.
      replace (S (length pre)) with (length (pre ++ [B]))
        by (rewrite length_app; simpl; lia).
      rewrite (IH target (pre ++ [B]) cs tc r Hr Hlen).
      by rewrite <- app_assoc.
Qed.

(** The loops of the source compute the two passes. *)
Lemma get_feedback_two_pass (guess target : word) :
  get_feedback guess target = two_pass_feedback guess target.
Proof.
  unfold get_feedback, two_pass_feedback.
  destruct (first_pass_fold guess target [] (Counter target)
              (multiset_of target) (counter_get_Counter target))
    as (tc' & Hfold & Hget).
  rewrite Hfold. simpl.
  pose proof (correct_pass_length guess target (multiset_of target)) as Hlen.
  destruct (correct_pass guess target (multiset_of target)) as [cs r].
  simpl in *.
  exact (second_pass_fold guess target [] cs tc' r Hget Hlen).
Qed.

(** ** What the two passes guarantee *)

Lemma correct_pass_lookup (guess target : word) (r : Z -> Z) (i : nat) (c : bool) :
  (correct_pass guess target r).1 !! i = Some c ->
  exists a b, guess !! i = Some a /\ target !! i = Some b
              /\ c = bool_decide (a = b).
Proof.
  revert target r i.
  induction guess as [|g guess IH]; intros [|t target] r i; simpl; try done.
  case_bool_decide as Hgt.
  - specialize (IH target (decrement r g)).
    destruct (correct_pass guess target (decrement r g)) as [cs r'].
    destruct i as [|i]; simpl in *.
    + intros [= <-]. exists g, t. by rewrite bool_decide_eq_true_2.
    + apply IH.
  - specialize (IH target r).
    destruct (correct_pass guess target r) as [cs r'].
    destruct i as [|i]; simpl in *.
    + intros [= <-]. exists g, t. by rewrite bool_decide_eq_false_2.
    + apply IH.
Qed.

Lemma correct_pass_remaining (guess target : word) (r : Z -> Z) (L : Z) :
  (correct_pass guess target r).2 L
  = r L - Z.of_nat (greens L guess (correct_pass guess target r).1).
Proof.
  revert target r.
  induction guess as [|g guess IH]; intros [|t target] r; simpl; try lia.
  case_bool_decide as Hgt.
  - specialize (IH target (decrement r g)).
    destruct (correct_pass guess target (decrement r g)) as [cs r'].
    simpl in *. rewrite IH. unfold decrement.
    rewrite (bool_decide_ext (g = L) (L = g)) by done.
    destruct (bool_decide (L = g)); simpl; lia.
  - specialize (IH target r).
    destruct (correct_pass guess target r) as [cs r'].
    simpl in *. rewrite IH, andb_false_r. lia.
Qed.

Lemma greens_le_count (guess target : word) (r : Z -> Z) (L : Z) :
  (greens L guess (correct_pass guess target r).1
   <= count_occ Z.eq_dec target L)%nat.
Proof.
  revert target r.
  induction guess as [|g guess IH]; intros [|t target] r; simpl; try lia.
  case_bool_decide as Hgt.
  - specialize (IH target (decrement r g)).
    destruct (correct_pass guess target (decrement r g)) as [cs r'].
    simpl in *. subst t. case_bool_decide; destruct (Z.eq_dec g L); simpl; lia.
  - specialize (IH target r).
    destruct (correct_pass guess target r) as [cs r'].
    simpl in *. rewrite andb_false_r. destruct (Z.eq_dec t L); lia.
Qed.

Lemma present_pass_length (guess : word) (cs : list bool) (r : Z -> Z) :
  length (present_pass guess cs r) = (length guess `min` length cs)%nat.
Proof.
  revert cs r.
  induction guess as [|g guess IH]; intros [|c cs] r; simpl; try done.
  destruct c; [|case_bool_decide]; simpl; by rewrite IH.
Qed.

(** A 'G' in the result is a position found Correct in the first pass. *)
Lemma present_pass_green (guess : word) (cs : list bool) (r : Z -> Z) (i : nat) :
  present_pass guess cs r !! i = Some G <->
  cs !! i = Some true /\ (i < length guess)%nat.
Proof.
  revert cs r i.
  induction guess as [|g guess IH]; intros [|c cs] r i; simpl;
    try (split; [done | intros [? ?]; done || lia]).
  destruct c; [|case_bool_decide]; destruct i as [|i]; simpl;
    rewrite ?IH; split; intros; destruct_and?; simplify_eq;
    try split; (done || lia).
Qed.

(** A 'Y' is given only to a letter with a positive remaining count. *)
Lemma present_pass_yellow (guess : word) (cs : list bool) (r : Z -> Z)
  (i : nat) (c : Z) :
  present_pass guess cs r !! i = Some Y -> guess !! i = Some c ->
  cs !! i = Some false /\ 0 < r c.
Proof.
  revert cs r i.
  induction guess as [|g guess IH]; intros [|b cs] r i; simpl; try done.
  destruct b; [|case_bool_decide as Hpos]; destruct i as [|i]; simpl;
    try done; try apply IH.
  - intros _ [= <-]. done.
  - intros HY Hc. destruct (IH _ _ _ HY Hc) as [Hcs Hdec]. split; [done|].
    unfold decrement in Hdec. destruct (bool_decide (c = g)); lia.
Qed.

Lemma greens_le_marked (L : Z) (guess : word) (cs : list bool) (r : Z -> Z) :
  (greens L guess cs <= marked_count L guess (present_pass guess cs r))%nat.
Proof.
  revert cs r.
  induction guess as [|g guess IH]; intros [|c cs] r; simpl; try lia.
  pose proof (IH cs r). pose proof (IH cs (decrement r g)).
  destruct c; [|destruct (bool_decide (0 < r g))]; simpl;
    destruct (bool_decide (g = L)); simpl; lia.
Qed.

(** The second pass hands out at most what remains. *)
Lemma marked_le_remaining (L : Z) (guess : word) (cs : list bool) (r : Z -> Z) :
  0 <= r L ->
  Z.of_nat (marked_count L guess (present_pass guess cs r))
  <= Z.of_nat (greens L guess cs) + r L.
Proof.
  revert cs r.
  induction guess as [|g guess IH]; intros [|c cs] r Hr; simpl; try lia.
  pose proof (IH cs r Hr) as IHr.
  destruct c; [|destruct (bool_decide (0 < r g)) eqn:Hpos]; simpl.
  - destruct (bool_decide (g = L)); simpl; lia.
  - apply bool_decide_eq_true_1 in Hpos.
    assert (Hdec : 0 <= decrement r g L).
    { unfold decrement. case_bool_decide; [subst L|]; lia. }
    pose proof (IH cs (decrement r g) Hdec) as IHd.
    unfold decrement in IHd at 2.
    rewrite (bool_decide_ext (L = g) (g = L)) in IHd by done.
    destruct (bool_decide (g = L)); simpl; lia.
  - destruct (bool_decide (g = L)); simpl; lia.
Qed.

(** Where the second pass leaves a 'B', the remaining count of that letter
    had been used up. *)
Lemma marked_ge_at_gray (guess : word) (cs : list bool) (r : Z -> Z)
  (i : nat) (c : Z) :
  present_pass guess cs r !! i = Some B -> guess !! i = Some c ->
  r c + Z.of_nat (greens c guess cs)
  <= Z.of_nat (marked_count c guess (present_pass guess cs r)).
Proof.
  revert cs r i.
  induction guess as [|g guess IH]; intros [|b cs] r i; simpl; try done.
  destruct b; [|destruct (bool_decide (0 < r g)) eqn:Hpos];
    destruct i as [|i]; simpl; try done.
  - intros HB Hc. pose proof (IH _ _ _ HB Hc).
    destruct (bool_decide (g = c)); simpl; lia.
  - intros HB Hc. pose proof (IH _ _ _ HB Hc) as IHd.
    unfold decrement in IHd at 1.
    rewrite (bool_decide_ext (c = g) (g = c)) in IHd by done.
    destruct (bool_decide (g = c)); simpl; lia.
  - intros _ [= <-]. apply bool_decide_eq_false_1 in Hpos.
    pose proof (greens_le_marked g guess cs r).
    rewrite andb_false_r. simpl. lia.
  - intros HB Hc. pose proof (IH _ _ _ HB Hc).
    rewrite !andb_false_r. simpl. lia.
Qed.

Lemma marked_count_positive (L : Z) (guess : word) (fb : list mark) :
  (0 < marked_count L guess fb)%nat ->
  exists j, guess !! j = Some L /\ (fb !! j = Some G \/ fb !! j = Some Y).
Proof.
  revert fb.
  induction guess as [|g guess IH]; intros [|f fb]; simpl; try lia.
  destruct (bool_decide (g = L)) eqn:HgL; simpl.
  - apply bool_decide_eq_true_1 in HgL. subst g.
    destruct f; simpl.
    + intros _. exists 0%nat. by auto.
    + intros _. exists 0%nat. by auto.
    + intros Hpos. destruct (IH fb Hpos) as (j & Hj & Hf).
      exists (S j). by auto.
  - intros Hpos. destruct (IH fb Hpos) as (j & Hj & Hf).
    exists (S j). by auto.
Qed.

Lemma multiset_of_positive (t : word) (c : Z) : 0 < multiset_of t c <-> c ∈ t.
Proof.
  unfold multiset_of. rewrite list_elem_of_In, (count_occ_In Z.eq_dec). lia.
Qed.

(** ** Facts about [get_feedback] *)

Lemma get_feedback_length (guess target : word) :
  length (get_feedback guess target)
  = (length guess `min` length target)%nat.
Proof.
  rewrite get_feedback_two_pass. unfold two_pass_feedback.
  pose proof (correct_pass_length guess target (multiset_of target)) as Hlen.
  destruct (correct_pass guess target (multiset_of target)) as [cs r].
  simpl in Hlen. rewrite present_pass_length, Hlen, length_zip. lia.
Qed.

Lemma get_feedback_green (guess target : word) (i : nat) :
  get_feedback guess target !! i = Some G <->
  exists c, guess !! i = Some c /\ target !! i = Some c.
Proof.
  rewrite get_feedback_two_pass. unfold two_pass_feedback.
  pose proof (correct_pass_lookup guess target (multiset_of target) i) as Hlk.
  pose proof (correct_pass_length guess target (multiset_of target)) as Hlen.
  destruct (correct_pass guess target (multiset_of target)) as [cs r].
  simpl in *. rewrite present_pass_green. split.
  - intros [Hcs _]. destruct (Hlk _ Hcs) as (a & b & Ha & Hb & Hab).
    symmetry in Hab. apply bool_decide_eq_true_1 in Hab. subst b. eauto.
  - intros (c & Hg & Ht).
    assert (Hi : (i < length cs)%nat).
    { rewrite Hlen, length_zip. apply lookup_lt_Some in Hg, Ht. lia. }
    split; [|by apply lookup_lt_Some in Hg].
    destruct (lookup_lt_is_Some_2 cs i Hi) as [b Hb].
    destruct (Hlk _ Hb) as (a' & b' & Ha & Hb' & ->).
    rewrite Hb. f_equal. apply bool_decide_eq_true_2. congruence.
Qed.

Lemma get_feedback_yellow (guess target : word) (i : nat) (c : Z) :
  get_feedback guess target !! i = Some Y -> guess !! i = Some c ->
  target !! i <> Some c /\ c ∈ target.
Proof.
  rewrite get_feedback_two_pass. unfold two_pass_feedback.
  pose proof (correct_pass_lookup guess target (multiset_of target) i) as Hlk.
  pose proof (correct_pass_remaining guess target (multiset_of target) c) as Hrem.
  destruct (correct_pass guess target (multiset_of target)) as [cs r].
  simpl in *. intros HY Hc.
  destruct (present_pass_yellow _ _ _ _ _ HY Hc) as [Hcs Hpos].
  destruct (Hlk _ Hcs) as (a & b & Ha & Hb & Hab).
  symmetry in Hab. apply bool_decide_eq_false_1 in Hab. split.
  - congruence.
  - apply multiset_of_positive. lia.
Qed.

Lemma get_feedback_gray (guess target : word) (i : nat) (c : Z) :
  get_feedback guess target !! i = Some B -> guess !! i = Some c ->
  c ∈ target ->
  exists j, guess !! j = Some c
            /\ (get_feedback guess target !! j = Some G
                \/ get_feedback guess target !! j = Some Y).
Proof.
  rewrite get_feedback_two_pass. unfold two_pass_feedback.
  pose proof (correct_pass_remaining guess target (multiset_of target) c) as Hrem.
  destruct (correct_pass guess target (multiset_of target)) as [cs r].
  simpl in *. intros HB Hc Hin.
  apply marked_count_positive.
  pose proof (marked_ge_at_gray _ _ _ _ _ HB Hc).
  apply multiset_of_positive in Hin. lia.
Qed.

Lemma get_feedback_marked_le (L : Z) (guess target : word) :
  (marked_count L guess (get_feedback guess target)
   <= count_occ Z.eq_dec target L)%nat.
Proof.
  rewrite get_feedback_two_pass. unfold two_pass_feedback.
  pose proof (correct_pass_remaining guess target (multiset_of target) L) as Hrem.
  pose proof (greens_le_count guess target (multiset_of target) L) as Hle.
  destruct (correct_pass guess target (multiset_of target)) as [cs r].
  simpl in *. unfold multiset_of in Hrem.
  pose proof (marked_le_remaining L guess cs r). lia.
Qed.

Lemma get_feedback_all_green (guess target : word) :
  length guess = length target ->
  get_feedback guess target = replicate (length guess) G <-> guess = target.
Proof.
  intros Hlen. split.
  - intros Hfb. apply list_eq. intros i.
    destruct (decide (i < length guess)%nat) as [Hi|Hi].
    + assert (HG : get_feedback guess target !! i = Some G).
      { rewrite Hfb. by apply lookup_replicate_2. }
      apply get_feedback_green in HG as (c & -> & ->). done.
    + rewrite !lookup_ge_None_2; [done | lia | lia].
  - intros <-. apply list_eq. intros i.
    destruct (decide (i < length guess)%nat) as [Hi|Hi].
    + rewrite lookup_replicate_2 by done.
      destruct (lookup_lt_is_Some_2 guess i Hi) as [c Hc].
      apply get_feedback_green. eauto.
    + rewrite !lookup_ge_None_2; [done | rewrite length_replicate; lia |].
      rewrite get_feedback_length. lia.
Qed.

(** ** Loops and lookups that cannot raise *)

(** Run the binds whose left operand is a value, and nothing else. *)
Ltac rsimpl := cbn [mbind result_bind negb].

Lemma getitem_lt {A : Type} (l : list A) (i : nat) :
  (i < length l)%nat -> exists x, getitem l i = Ok x /\ l !! i = Some x.
Proof.
  intros Hi. destruct (lookup_lt_is_Some_2 l i Hi) as [x Hx].
  exists x. unfold getitem. by rewrite Hx.
Qed.

Lemma for_valid_total {A : Type} (body : A -> result bool) (l : list A) :
  (forall x, x ∈ l -> exists b, body x = Ok b) ->
  exists b, for_valid body l = Ok b.
Proof.
  induction l as [|x l IH]; intros Hbody; simpl; [eauto|].
  destruct (Hbody x) as [b Hb]; [left|]. rewrite Hb. simpl.
  destruct b; [|eauto]. apply IH. intros y Hy. apply Hbody. by right.
Qed.

Lemma for_valid_true {A : Type} (body : A -> result bool) (l : list A) :
  (forall x, x ∈ l -> body x = Ok true) -> for_valid body l = Ok true.
Proof.
  induction l as [|x l IH]; intros Hbody; simpl; [done|].
  rewrite (Hbody x) by left. simpl. apply IH. intros y Hy. apply Hbody. by right.
Qed.

Lemma range5_lt (pos : nat) : pos ∈ range5 <-> (pos < 5)%nat.
Proof.
  unfold range5. rewrite !elem_of_cons, elem_of_nil. lia.
Qed.

Lemma letters_where_spec (keep : mark -> bool) (guess : word) (fb : list mark)
  (positions : list nat) :
  (forall p, p ∈ positions -> (p < length guess)%nat /\ (p < length fb)%nat) ->
  exists l,
    letters_where keep guess fb positions = Ok l
    /\ forall c, c ∈ l <->
         exists p f, p ∈ positions /\ guess !! p = Some c
                     /\ fb !! p = Some f /\ keep f = true.
Proof.
  induction positions as [|p ps IH]; intros Hlt; simpl.
  - exists []. split; [done|]. intros c. split; [by intros ?%elem_of_nil|].
    by intros (p & f & ?%elem_of_nil & _).
  - destruct (Hlt p) as [Hg Hf]; [left|].
    destruct (getitem_lt _ _ Hg) as (gc & Hgc & Hgl).
    destruct (getitem_lt _ _ Hf) as (f & Hfc & Hfl).
    destruct IH as (l & Hl & Hspec); [intros q Hq; apply Hlt; by right|].
    rewrite Hfc. simpl. destruct (keep f) eqn:Hkeep.
    + rewrite Hgc. simpl. rewrite Hl. simpl. exists (gc :: l).
      split; [done|]. intros c. rewrite elem_of_cons, Hspec. split.
      * intros [->|(q & f' & Hq & ?)].
        -- exists p, f. split; [left|]; done.
        -- exists q, f'. split; [by right|done].
      * intros (q & f' & Hq & Hgq & Hfq & Hk).
        apply elem_of_cons in Hq as [->|Hq].
        -- left. congruence.
        -- right. by exists q, f'.
    + exists l. split; [done|]. intros c. rewrite Hspec. split.
      * intros (q & f' & Hq & ?). exists q, f'. split; [by right|done].
      * intros (q & f' & Hq & Hgq & Hfq & Hk).
        apply elem_of_cons in Hq as [->|Hq]; [congruence|by exists q, f'].
Qed.

(** ** [filter_valid_words] on five-letter words *)

Section Filter.
Variables (guess : word) (fb : list mark).
Hypothesis guess_len : length guess = 5%nat.
Hypothesis fb_len : length fb = 5%nat.

Lemma word_is_valid_total (w : word) :
  length w = 5%nat -> exists b, word_is_valid w guess fb = Ok b.
Proof.
  intros Hw. unfold word_is_valid.
  destruct (for_valid_total (green_body w guess fb) range5) as [b1 ->].
  { intros pos Hpos%range5_lt. unfold green_body.
    destruct (getitem_lt fb pos) as (f & -> & _); [lia|]. rsimpl.
    destruct (decide (f = G)); [|eauto].
    destruct (getitem_lt w pos) as (wc & -> & _); [lia|]. rsimpl.
    destruct (getitem_lt guess pos) as (gc & -> & _); [lia|]. rsimpl. eauto. }
  rsimpl. destruct b1; rsimpl; [|eauto].
  destruct (for_valid_total (yellow_body w guess fb) range5) as [b2 ->].
  { intros pos Hpos%range5_lt. unfold yellow_body.
    destruct (getitem_lt fb pos) as (f & -> & _); [lia|]. rsimpl.
    destruct (decide (f = Y)); [|eauto].
    destruct (getitem_lt w pos) as (wc & -> & _); [lia|]. rsimpl.
    destruct (getitem_lt guess pos) as (gc & -> & _); [lia|]. rsimpl.
    destruct (bool_decide (wc = gc)); rsimpl; eauto. }
  rsimpl. destruct b2; rsimpl; [|eauto].
  destruct (letters_where_spec is_gray guess fb range5) as (gray & -> & _).
  { intros p Hp%range5_lt. lia. }
  rsimpl. apply for_valid_total. intros char _. unfold gray_body.
  destruct (bool_decide (char ∈ w)); [|eauto].
  destruct (letters_where_spec is_green_or_yellow guess fb range5)
    as (marked & -> & _).
  { intros p Hp%range5_lt. lia. }
  rsimpl. eauto.
Qed.

(** On five-letter words the filter never raises, and it keeps exactly
    the words that [word_is_valid] accepts, in order. *)
Lemma filter_valid_words_total (words_data : list word) :
  Forall (fun w => length w = 5%nat) words_data ->
  exists valid,
    filter_valid_words words_data guess fb = Ok valid
    /\ valid ⊆ words_data
    /\ (length valid <= length words_data)%nat
    /\ forall w, w ∈ words_data -> word_is_valid w guess fb = Ok true ->
                 w ∈ valid.
Proof.
  induction 1 as [|w ws Hw Hws (valid & Hvalid & Hsub & Hlen & Hkeep)];
    cbn [filter_valid_words].
  - exists []. by auto.
  - destruct (word_is_valid_total w Hw) as [b Hb]. rewrite Hb, Hvalid. rsimpl.
    exists (if b then w :: valid else valid). split; [done|].
    split; [|split].
    + destruct b; [by apply list_subseteq_skip|by apply list_subseteq_cons].
    + destruct b; simpl; lia.
    + intros w' Hin Hok. apply elem_of_cons in Hin as [->|Hin].
      * rewrite Hok in Hb. injection Hb as <-. left.
      * specialize (Hkeep w' Hin Hok). destruct b; [by right|done].
Qed.
End Filter.

(** Whenever the filter returns, it has kept every word that passes the
    checks. *)
Lemma filter_valid_words_keeps (words_data : list word) (guess : word)
  (fb : list mark) (valid : list word) (w : word) :
  filter_valid_words words_data guess fb = Ok valid ->
  w ∈ words_data -> word_is_valid w guess fb = Ok true -> w ∈ valid.
Proof.
  revert valid. induction words_data as [|x ws IH]; intros valid Hfilter Hin Hw;
    [by apply elem_of_nil in Hin|].
  cbn [filter_valid_words] in Hfilter.
  destruct (word_is_valid x guess fb) as [keep|e] eqn:Hx;
    cbn [mbind result_bind] in Hfilter; [|done].
  destruct (filter_valid_words ws guess fb) as [rest|e] eqn:Hrest;
    cbn [mbind result_bind] in Hfilter; [|done].
  injection Hfilter as <-.
  apply elem_of_cons in Hin as [->|Hin].
  - rewrite Hw in Hx. injection Hx as <-. left.
  - specialize (IH rest eq_refl Hin Hw). destruct keep; [by right|done].
Qed.

(** The target passes every check of the filter built from its own
    feedback. *)
Lemma word_is_valid_target (guess target : word) :
  length guess = 5%nat -> length target = 5%nat ->
  word_is_valid target guess (get_feedback guess target) = Ok true.
Proof.
  intros Hg Ht.
  assert (Hfb : length (get_feedback guess target) = 5%nat).
  { rewrite get_feedback_length. lia. }
  unfold word_is_valid.
  rewrite (for_valid_true (green_body target guess (get_feedback guess target))).
  2:{ intros pos Hpos%range5_lt. unfold green_body.
      destruct (getitem_lt (get_feedback guess target) pos)
        as (f & -> & Hf); [lia|]. rsimpl.
      destruct (decide (f = G)) as [->|]; [|done].
      apply get_feedback_green in Hf as (c & Hgc & Htc).
      apply getitem_Ok in Hgc, Htc. rewrite Htc. rsimpl. rewrite Hgc. rsimpl.
      by rewrite bool_decide_eq_true_2. }
  rsimpl.
  rewrite (for_valid_true (yellow_body target guess (get_feedback guess target))).
  2:{ intros pos Hpos%range5_lt. unfold yellow_body.
      destruct (getitem_lt (get_feedback guess target) pos)
        as (f & -> & Hf); [lia|]. rsimpl.
      destruct (decide (f = Y)) as [->|]; [|done].
      destruct (getitem_lt target pos) as (tc & -> & Htc); [lia|]. rsimpl.
      destruct (getitem_lt guess pos) as (gc & Hgc & Hgl); [lia|].
      rewrite Hgc. rsimpl.
      destruct (get_feedback_yellow _ _ _ _ Hf Hgl) as [Hne Hin].
      rewrite bool_decide_eq_false_2 by congruence.
      rsimpl. by rewrite bool_decide_eq_true_2. }
  rsimpl.
  destruct (letters_where_spec is_gray guess (get_feedback guess target) range5)
    as (gray & -> & Hgray).
  { intros p Hp%range5_lt. lia. }
  rsimpl. apply for_valid_true. intros char Hchar. unfold gray_body.
  case_bool_decide as Hin; [|done].
  destruct (letters_where_spec is_green_or_yellow guess
              (get_feedback guess target) range5) as (marked & -> & Hmarked).
  { intros p Hp%range5_lt. lia. }
  rsimpl. f_equal. apply bool_decide_eq_true_2. apply Hmarked.
  apply Hgray in Hchar as (p & f & Hp & Hgp & Hfp & Hkeep).
  apply bool_decide_eq_true_1 in Hkeep. subst f.
  destruct (get_feedback_gray _ _ _ _ Hfp Hgp Hin) as (j & Hgj & Hfj).
  assert (Hj : (j < 5)%nat) by (apply lookup_lt_Some in Hgj; lia).
  destruct Hfj as [Hfj|Hfj]; [exists j, G | exists j, Y];
    (split; [by apply range5_lt | done]).
Qed.

(** ** [list.remove] and word/string conversion *)

Lemma list_remove_spec (x : word) (l : list word) :
  x ∈ l ->
  exists l', list_remove x l = Ok l'
             /\ S (length l') = length l /\ l' ⊆ l.
Proof.
  induction l as [|y l IH]; [by intros ?%elem_of_nil|].
  intros Hin. cbn [list_remove]. case_bool_decide as Hy.
  - exists l. split; [done|]. split; [done|]. by apply list_subseteq_cons.
  - apply elem_of_cons in Hin as [->|Hin]; [done|].
    destruct (IH Hin) as (l' & -> & Hlen & Hsub). rsimpl.
    exists (y :: l'). split; [done|]. split; [simpl; lia|].
    by apply list_subseteq_skip.
Qed.

Lemma list_remove_Ok (x : word) (l l' : list word) :
  list_remove x l = Ok l' -> x ∈ l /\ S (length l') = length l /\ l' ⊆ l.
Proof.
  revert l'. induction l as [|y l IH]; intros l'; cbn [list_remove]; [done|].
  case_bool_decide as Hy.
  - intros [= <-]. subst y. split; [left|]. split; [done|].
    by apply list_subseteq_cons.
  - destruct (list_remove x l) as [r|e] eqn:Hr; rsimpl; [|done].
    intros [= <-]. destruct (IH r eq_refl) as (Hin & Hlen & Hsub).
    split; [by right|]. split; [simpl; lia|]. by apply list_subseteq_skip.
Qed.

Lemma letter_chr_inj (a b : Z) :
  0 <= a <= 25 -> 0 <= b <= 25 ->
  ascii_of_nat (Z.to_nat (a + 97)) = ascii_of_nat (Z.to_nat (b + 97)) -> a = b.
Proof.
  intros Ha Hb Heq. apply (f_equal nat_of_ascii) in Heq.
  rewrite !nat_ascii_embedding in Heq by lia. lia.
Qed.

Lemma string_of_word_inj (v w : word) :
  Forall (fun c => 0 <= c <= 25) v -> Forall (fun c => 0 <= c <= 25) w ->
  string_of_word v = string_of_word w -> v = w.
Proof.
  unfold string_of_word. intros Hv Hw Heq.
  apply (f_equal String.list_ascii_of_string) in Heq.
  rewrite !String.list_ascii_of_string_of_list_ascii in Heq.
  revert w Hw Heq. induction Hv as [|a v Ha Hv IH]; intros w Hw Heq.
  - by destruct w.
  - destruct Hw as [|b w Hb Hw]; [done|]. simpl in Heq.
    injection Heq as Hab Hrest. f_equal; [by apply letter_chr_inj|by apply IH].
Qed.

(** ** What [update_model] posts *)

Lemma extends_refl (m : CpModel) : extends m m.
Proof. repeat split. exists []. by rewrite app_nil_r. Qed.

Lemma extends_trans (m1 m2 m3 : CpModel) :
  extends m1 m2 -> extends m2 m3 -> extends m1 m3.
Proof.
  intros (Ht1 & Ho1 & e1 & Hc1) (Ht2 & Ho2 & e2 & Hc2).
  split; [congruence|]. split; [congruence|].
  exists (e1 ++ e2). by rewrite Hc2, Hc1, app_assoc.
Qed.

Lemma extends_Add (m : CpModel) (c : constraint) : extends m (Add m c).
Proof. repeat split. by exists [c]. Qed.

Lemma extends_elem (m m' : CpModel) (c : constraint) :
  extends m m' -> c ∈ constraints m -> c ∈ constraints m'.
Proof. intros (_ & _ & e & ->) Hc. apply elem_of_app. by left. Qed.

Lemma elem_of_Add (m : CpModel) (c : constraint) : c ∈ constraints (Add m c).
Proof. simpl. apply elem_of_app. right. left. Qed.

Create HintDb cp.
#[local] Hint Resolve extends_refl extends_Add extends_elem elem_of_Add : cp.

Lemma gray_at_update_same (gp : list (Z * list nat)) (char : Z) (pos : nat) :
  gray_at (dict_update [] (fun ps => ps ++ [pos]) char gp) char pos.
Proof.
  induction gp as [|[k v] gp (ps & Hps & Hpos)]; cbn [dict_update].
  - exists [pos]. split; left.
  - case_bool_decide as Hk.
    + subst k. exists (v ++ [pos]). split; [left|].
      apply elem_of_app. right. left.
    + exists ps. split; [by right|done].
Qed.

Lemma gray_at_update_mono (gp : list (Z * list nat)) (char c : Z) (pos p : nat) :
  gray_at gp c p ->
  gray_at (dict_update [] (fun ps => ps ++ [pos]) char gp) c p.
Proof.
  intros (ps & Hps & Hp).
  induction gp as [|[k v] gp IH]; [by apply elem_of_nil in Hps|].
  cbn [dict_update]. apply elem_of_cons in Hps as [[= <- <-]|Hps].
  - case_bool_decide as Hk.
    + exists (ps ++ [pos]). subst c. split; [left|].
      apply elem_of_app. by left.
    + exists ps. split; [left|done].
  - destruct (IH Hps) as (ps' & Hps' & Hp').
    case_bool_decide as Hk.
    + exists ps. split; [by right|done].
    + exists ps'. split; [by right|done].
Qed.

Lemma gray_constraints_spec (gp : list (Z * list nat)) (m : CpModel) :
  extends m (gray_constraints m gp)
  /\ forall char pos, gray_at gp char pos ->
       PosNe pos char ∈ constraints (gray_constraints m gp).
Proof.
  unfold gray_constraints. revert m.
  induction gp as [|[k v] gp IH]; intros m; cbn [fold_left].
  - split; [auto with cp|]. by intros c p (ps & ?%elem_of_nil & _).
  - set (inner := fold_left (fun m0 pos => Add m0 (PosNe pos k)) v m).
    assert (Hinner : extends m inner
                     /\ forall pos, pos ∈ v -> PosNe pos k ∈ constraints inner).
    { subst inner. clear IH. revert m.
      induction v as [|p v IHv]; intros m; cbn [fold_left].
      - split; [auto with cp|]. by intros p ?%elem_of_nil.
      - destruct (IHv (Add m (PosNe p k))) as [Hext Hall]. split.
        + eapply extends_trans; [apply extends_Add|done].
        + intros pos [->|Hpos]%elem_of_cons; [|by apply Hall].
          eapply extends_elem; [done|]. apply elem_of_Add. }
    destruct Hinner as [Hext1 Hall1]. destruct (IH inner) as [Hext2 Hall2].
    split; [by eapply extends_trans|].
    intros char pos (ps & Hps & Hpos).
    apply elem_of_cons in Hps as [[= -> ->]|Hps].
    + eapply extends_elem; [done|]. by apply Hall1.
    + apply Hall2. by exists ps.
Qed.

Lemma occurs_constraints_extends (lc : list (Z * Z)) (gp : list (Z * list nat))
  (m : CpModel) :
  extends m (occurs_constraints m lc gp).
Proof.
  unfold occurs_constraints. revert m.
  induction lc as [|[k v] lc IH]; intros m; cbn [fold_left]; [auto with cp|].
  eapply extends_trans; [apply extends_Add|apply IH].
Qed.

Lemma marks_loop_spec (guess : word) (fb : list mark) (positions : list nat) :
  (forall p, p ∈ positions -> (p < length guess)%nat /\ (p < length fb)%nat) ->
  forall m lc gp,
  exists m1 lc1 gp1,
    for_fold (marks_body guess fb) positions (m, lc, gp) = Ok (m1, lc1, gp1)
    /\ extends m m1
    /\ (forall c p, gray_at gp c p -> gray_at gp1 c p)
    /\ (forall p c, p ∈ positions -> guess !! p = Some c ->
          fb !! p = Some Y -> PosNe p c ∈ constraints m1)
    /\ (forall p c, p ∈ positions -> guess !! p = Some c ->
          fb !! p = Some B -> gray_at gp1 c p).
Proof.
  induction positions as [|pos ps IH]; intros Hlt m lc gp; cbn [for_fold].
  - exists m, lc, gp. split; [done|]. split; [auto with cp|].
    split; [done|]. split; by intros p c ?%elem_of_nil.
  - destruct (Hlt pos) as [Hg Hf]; [left|].
    destruct (getitem_lt _ _ Hg) as (gc & Hgc & Hgl).
    destruct (getitem_lt _ _ Hf) as (f & Hfc & Hfl).
    assert (Hps : forall p, p ∈ ps ->
                    (p < length guess)%nat /\ (p < length fb)%nat).
    { intros p Hp. apply Hlt. by right. }
    unfold marks_body at 2. rewrite Hgc. rsimpl. rewrite Hfc. rsimpl.
    destruct f; rsimpl.
    + destruct (IH Hps (Add m (PosEq pos gc))
                  (dict_update 0 (Z.add 1) gc lc) gp)
        as (m1 & lc1 & gp1 & -> & Hext & Hmono & HY & HB).
      exists m1, lc1, gp1. split; [done|].
      split; [eapply extends_trans; [apply extends_Add|done]|].
      split; [done|]. split.
      * intros p c [->|Hp]%elem_of_cons Hc Hfb; [congruence|eauto].
      * intros p c [->|Hp]%elem_of_cons Hc Hfb; [congruence|eauto].
    + destruct (IH Hps (Add m (PosNe pos gc))
                  (dict_update 0 (Z.add 1) gc lc) gp)
        as (m1 & lc1 & gp1 & -> & Hext & Hmono & HY & HB).
      exists m1, lc1, gp1. split; [done|].
      split; [eapply extends_trans; [apply extends_Add|done]|].
      split; [done|]. split.
      * intros p c [->|Hp]%elem_of_cons Hc Hfb; [|eauto].
        assert (c = gc) as -> by congruence.
        eapply extends_elem; [done|apply elem_of_Add].
      * intros p c [->|Hp]%elem_of_cons Hc Hfb; [congruence|eauto].
    + destruct (IH Hps m lc
                  (dict_update [] (fun ps0 => ps0 ++ [pos]) gc gp))
        as (m1 & lc1 & gp1 & -> & Hext & Hmono & HY & HB).
      exists m1, lc1, gp1. split; [done|]. split; [done|]. split.
      * intros c p Hcp. by apply Hmono, gray_at_update_mono.
      * split.
        -- intros p c [->|Hp]%elem_of_cons Hc Hfb; [congruence|eauto].
        -- intros p c [->|Hp]%elem_of_cons Hc Hfb; [|eauto].
           assert (c = gc) as -> by congruence.
           apply Hmono, gray_at_update_same.
Qed.

(** On a five-letter guess and feedback [update_model] does not raise; it
    only posts constraints, among them [position_vars[p] != guess[p]] for
    every position marked 'Y' or 'B'. *)
Lemma update_model_spec (m : CpModel) (guess : word) (fb : list mark) :
  length guess = 5%nat -> length fb = 5%nat ->
  exists m',
    update_model m guess fb = Ok m'
    /\ extends m m'
    /\ forall p c, (p < 5)%nat -> guess !! p = Some c ->
         fb !! p = Some Y \/ fb !! p = Some B ->
         PosNe p c ∈ constraints m'.
Proof.
  intros Hg Hf. unfold update_model.
  destruct (marks_loop_spec guess fb range5) with (m := m)
    (lc := @nil (Z * Z)) (gp := @nil (Z * list nat))
    as (m1 & lc1 & gp1 & -> & Hext & _ & HY & HB).
  { intros p Hp%range5_lt. lia. }
  rsimpl. eexists. split; [done|].
  destruct (gray_constraints_spec gp1 m1) as [Hext2 Hgray].
  pose proof (occurs_constraints_extends lc1 gp1 (gray_constraints m1 gp1))
    as Hext3.
  split; [eauto using extends_trans|].
  intros p c Hp%range5_lt Hc [Hfb|Hfb];
    eapply extends_elem; try exact Hext3.
  - eapply extends_elem; [exact Hext2|]. eauto.
  - apply Hgray. eauto.
Qed.

Lemma not_all_green (fb : list mark) :
  length fb = 5%nat -> fb <> replicate 5 G ->
  exists p, (p < 5)%nat /\ (fb !! p = Some Y \/ fb !! p = Some B).
Proof.
  intros Hlen Hne.
  destruct fb as [|f0 [|f1 [|f2 [|f3 [|f4 [|]]]]]]; try discriminate.
  destruct f0; [|exists 0%nat; simpl; split; [lia|auto]..].
  destruct f1; [|exists 1%nat; simpl; split; [lia|auto]..].
  destruct f2; [|exists 2%nat; simpl; split; [lia|auto]..].
  destruct f3; [|exists 3%nat; simpl; split; [lia|auto]..].
  destruct f4; [|exists 4%nat; simpl; split; [lia|auto]..].
  done.
Qed.

(** After feedback that is not all 'G', the model rejects the guess that
    received it. *)
Lemma update_model_excludes (m m' : CpModel) (guess : word) (fb : list mark) :
  length guess = 5%nat -> length fb = 5%nat -> fb <> replicate 5 G ->
  update_model m guess fb = Ok m' ->
  exists c, c ∈ constraints m' /\ sat guess c = false.
Proof.
  intros Hg Hf Hne Hm'.
  destruct (update_model_spec m guess fb Hg Hf) as (m'' & Heq & _ & Hpost).
  rewrite Heq in Hm'. injection Hm' as ->.
  destruct (not_all_green fb Hf Hne) as (p & Hp & Hfb).
  destruct (lookup_lt_is_Some_2 guess p) as [c Hc]; [lia|].
  exists (PosNe p c). split; [by eapply Hpost|].
  simpl. by rewrite bool_decide_eq_true_2.
Qed.

Lemma for_fold_Ok_elem {A S : Type} (body : S -> A -> result S) (l : list A)
  (s s' : S) (x : A) :
  for_fold body l s = Ok s' -> x ∈ l -> exists s1 s2, body s1 x = Ok s2.
Proof.
  revert s. induction l as [|y l IH]; intros s Hfold Hx;
    [by apply elem_of_nil in Hx|].
  cbn [for_fold] in Hfold.
  destruct (body s y) as [s1|e] eqn:Hbody;
    cbn [mbind result_bind] in Hfold; [|done].
  apply elem_of_cons in Hx as [->|Hx]; [eauto|by eapply IH].
Qed.

(** [update_model] reads [guess[pos]] and [feedback[pos]] for every [pos] in
    [range(5)]: where it returns, both have five entries at least. *)
Lemma update_model_Ok_length (m m' : CpModel) (guess : word) (fb : list mark) :
  update_model m guess fb = Ok m' ->
  (5 <= length guess)%nat /\ (5 <= length fb)%nat.
Proof.
  unfold update_model.
  destruct (for_fold (marks_body guess fb) range5 (m, [], []))
    as [acc|e] eqn:Hfold; [|done].
  intros _.
  destruct (for_fold_Ok_elem _ _ _ _ 4%nat Hfold)
    as ([[m1 lc] gp] & s2 & Hbody); [by apply range5_lt; lia|].
  unfold marks_body in Hbody.
  destruct (getitem guess 4) as [c|] eqn:Hg;
    cbn [mbind result_bind] in Hbody; [|done].
  destruct (getitem fb 4) as [f|] eqn:Hf;
    cbn [mbind result_bind] in Hbody; [|done].
  apply getitem_Ok, lookup_lt_Some in Hg, Hf. lia.
Qed.

Lemma continue_feedback_length (m m' : CpModel) (guess target : word) :
  in_domain guess ->
  update_model m guess (get_feedback guess target) = Ok m' ->
  length (get_feedback guess target) = 5%nat.
Proof.
  intros [Hlen _] [_ Hfb]%update_model_Ok_length.
  rewrite get_feedback_length in Hfb |- *. lia.
Qed.

(** ** One round of the solve loop *)

Lemma attempt_round (Solve : CpModel -> option word) (fm : FrequencyModel)
  (target : word) (st : loop_state) (o : outcome) :
  attempt Solve fm target st = Ok o -> round Solve fm target st o.
Proof.
  unfold attempt.
  destruct (submitted_model fm st) as [m|e] eqn:Hm; rsimpl; [|done].
  destruct (Solve m) as [guess|] eqn:Hsolve.
  2:{ intros [= <-]. by eapply round_infeasible. }
  destruct (remove_guess guess st) as [[ref caller]|e] eqn:Hremove;
    rsimpl; [|done].
  set (remaining := match ref with CallerList => caller | OwnList l => l end).
  assert (Hrem : list_remove guess (current st) = Ok remaining
                 /\ caller = match valid_words st with
                             | CallerList => remaining
                             | OwnList _ => caller_list st
                             end).
  { unfold remove_guess, current in *. subst remaining.
    destruct (valid_words st) as [|own].
    - destruct (list_remove guess (caller_list st)); [|done].
      cbn [mbind result_bind] in Hremove. by injection Hremove as <- <-.
    - destruct (list_remove guess own); [|done].
      cbn [mbind result_bind] in Hremove. by injection Hremove as <- <-. }
  destruct Hrem as [Hrem Hcaller].
  case_bool_decide as Hfb.
  - intros [= <-]. eapply round_solved; [split; done|done|done|done].
  - destruct (filter_valid_words remaining guess (get_feedback guess target))
      as [filtered|e] eqn:Hfilter; rsimpl; [|done].
    destruct (update_model m guess (get_feedback guess target))
      as [m'|e] eqn:Hupd; rsimpl; [|done].
    intros [= <-]. eapply round_continue; [split; done|done..].
Qed.

(** ** The loop under the solver's contract *)

Lemma for_fold_total {A S : Type} (body : S -> A -> result S) (l : list A) :
  (forall s x, x ∈ l -> exists s', body s x = Ok s') ->
  forall s, exists s', for_fold body l s = Ok s'.
Proof.
  induction l as [|x l IH]; intros Hbody s; cbn [for_fold]; [eauto|].
  destruct (Hbody s x) as [s1 ->]; [left|]. rsimpl.
  apply IH. intros s2 y Hy. apply Hbody. by right.
Qed.

Lemma frequency_model_total (words : list word) :
  Forall (fun w => length w = 5%nat) words ->
  exists fm, frequency_model words = Ok fm.
Proof.
  intros Hwords. unfold frequency_model, positional_counts.
  destruct (for_fold_total
              (fun pf w => for_fold (count_position w) range5 pf) words)
    with (s := replicate 5 (∅ : gmap Z Z)) as [counts ->]; [|rsimpl; eauto].
  intros pf w Hw. apply for_fold_total. intros pf' pos Hpos%range5_lt.
  unfold count_position. rewrite Forall_forall in Hwords.
  destruct (getitem_lt w pos) as (c & -> & _); [rewrite Hwords; done|].
  rsimpl. eauto.
Qed.

Lemma word_of_string_length (s : string) :
  length (word_of_string s) = String.length s.
Proof.
  unfold word_of_string. rewrite length_fmap.
  induction s as [|a s IH]; simpl; [done|by rewrite IH].
Qed.

Lemma AddAllowedAssignments_Ok (m : CpModel) (tuples_list : list word) :
  Forall (fun w => length w = 5%nat) tuples_list ->
  AddAllowedAssignments m tuples_list
  = Ok {| tables := tables m ++ [tuples_list]; constraints := constraints m;
          objective := objective m |}.
Proof.
  intros Hall. unfold AddAllowedAssignments.
  replace (forallb _ tuples_list) with true; [done|].
  symmetry. induction Hall as [|w ws Hw _ IH]; simpl; [done|].
  by rewrite bool_decide_eq_true_2, IH.
Qed.

Lemma submitted_model_inv (fm : FrequencyModel) (st : loop_state) (m : CpModel) :
  submitted_model fm st = Ok m ->
  tables m = tables (model st) ++ [current st]
  /\ constraints m = constraints (model st)
  /\ objective m = installed_objective fm.
Proof.
  unfold submitted_model, AddAllowedAssignments.
  destruct (forallb _ (current st)); rsimpl; [|done].
  by intros [= <-].
Qed.

Lemma submitted_model_total (fm : FrequencyModel) (st : loop_state) :
  Forall (fun w => length w = 5%nat) (current st) ->
  exists m, submitted_model fm st = Ok m.
Proof.
  intros Hall. unfold submitted_model.
  rewrite AddAllowedAssignments_Ok by done. rsimpl. eauto.
Qed.

Section Sound.
Variable Solve : CpModel -> option word.
Hypothesis Solve_sound : sound Solve.
Variable fm : FrequencyModel.
Variable target : word.
Hypothesis target_len : length target = 5%nat.

(** What the contract gives for the guess of a round. *)
Lemma guess_feasible (st : loop_state) (m : CpModel) (guess : word) :
  submitted_model fm st = Ok m -> Solve m = Some guess ->
  in_domain guess /\ guess ∈ current st
  /\ forall c, c ∈ constraints (model st) -> sat guess c = true.
Proof.
  intros (Ht & Hc & _)%submitted_model_inv (Hdom & Htab & Hsat)%Solve_sound.
  split; [done|]. split.
  - rewrite Ht, Forall_app, Forall_singleton in Htab. tauto.
  - rewrite Hc, Forall_forall in Hsat. done.
Qed.

Lemma feedback_len (guess : word) :
  in_domain guess -> length (get_feedback guess target) = 5%nat.
Proof. intros [Hlen _]. rewrite get_feedback_length. lia. Qed.

(** On five-letter candidates a round raises nothing. *)
Lemma attempt_total (st : loop_state) :
  Forall (fun w => length w = 5%nat) (current st) ->
  exists o, attempt Solve fm target st = Ok o.
Proof.
  intros Hall. unfold attempt.
  destruct (submitted_model_total fm st Hall) as [m Hm]. rewrite Hm. rsimpl.
  destruct (Solve m) as [guess|] eqn:Hsolve; [|eauto].
  destruct (guess_feasible st m guess Hm Hsolve) as (Hdom & Hin & _).
  destruct (list_remove_spec guess (current st) Hin)
    as (remaining & Hrem & _ & Hsub).
  assert (Hrem5 : Forall (fun w => length w = 5%nat) remaining).
  { rewrite Forall_forall in Hall |- *. intros w Hw. by apply Hall, Hsub. }
  assert (Hremove : exists ref caller,
             remove_guess guess st = Ok (ref, caller)
             /\ match ref with CallerList => caller | OwnList l => l end
                = remaining).
  { unfold remove_guess, current in *.
    destruct (valid_words st); rewrite Hrem; rsimpl; eauto. }
  destruct Hremove as (ref & caller & -> & Href). rsimpl. cbv zeta.
  rewrite Href.
  case_bool_decide; [eauto|].
  destruct (filter_valid_words_total guess (get_feedback guess target)
              (proj1 Hdom) (feedback_len guess Hdom) remaining Hrem5)
    as (filtered & -> & _). rsimpl.
  destruct (update_model_spec m guess (get_feedback guess target)
              (proj1 Hdom) (feedback_len guess Hdom)) as (m' & -> & _).
  rsimpl. eauto.
Qed.

(** The candidates stay five-letter words. *)
Lemma round_candidates (st st' : loop_state) :
  Forall (fun w => length w = 5%nat) (current st) ->
  round Solve fm target st (Continue st') ->
  Forall (fun w => length w = 5%nat) (current st').
Proof.
  intros Hall Hround. inversion Hround as [| |m guess remaining filtered m'
    st'' Hg Hfb Hfilter Hupd Hmodel Hvw]; subst.
  destruct Hg as [Hm Hsolve Hrem _ _ _].
  destruct (guess_feasible st m guess Hm Hsolve) as (Hdom & _ & _).
  apply list_remove_Ok in Hrem as (_ & _ & Hsub).
  assert (Hrem5 : Forall (fun w => length w = 5%nat) remaining).
  { rewrite Forall_forall in Hall |- *. intros w Hw. by apply Hall, Hsub. }
  destruct (filter_valid_words_total guess (get_feedback guess target)
              (proj1 Hdom) (feedback_len guess Hdom) remaining Hrem5)
    as (filtered' & Heq & Hsub' & _).
  rewrite Heq in Hfilter. injection Hfilter as ->.
  unfold current. rewrite Hvw.
  rewrite Forall_forall in Hrem5 |- *. intros w Hw. by apply Hrem5, Hsub'.
Qed.

Lemma attempts_total (n : nat) (st : loop_state) :
  Forall (fun w => length w = 5%nat) (current st) ->
  exists e st', attempts Solve fm target n st = Ok (e, st').
Proof.
  revert st. induction n as [|n IH]; intros st Hall; cbn [attempts]; [eauto|].
  destruct (attempt_total st Hall) as [o Ho]. rewrite Ho. rsimpl.
  destruct o as [st'|e st']; [|eauto].
  apply IH. eapply round_candidates; [done|]. by apply attempt_round.
Qed.

(** Invariant rule for the loop: [P n] holds of the state when [n]
    iterations remain, [Q] of the exit taken and the final state. *)
Lemma attempts_invariant (P : nat -> loop_state -> Prop)
  (Q : exit -> loop_state -> Prop) :
  (forall n st st', P (S n) st -> round Solve fm target st (Continue st') ->
                    P n st') ->
  (forall n st e st', P (S n) st -> round Solve fm target st (Return e st') ->
                      Q e st') ->
  (forall st, P O st -> Q Exhausted st) ->
  forall n st e st',
    P n st -> attempts Solve fm target n st = Ok (e, st') -> Q e st'.
Proof.
  intros Hcont Hret Hexh. induction n as [|n IH]; intros st e st' HP;
    cbn [attempts].
  - intros [= <- <-]. by apply Hexh.
  - destruct (attempt Solve fm target st) as [o|err] eqn:Ho; rsimpl; [|done].
    apply attempt_round in Ho. destruct o as [st1|e1 st1].
    + apply IH. by eapply Hcont.
    + intros [= <- <-]. by eapply Hret.
Qed.
End Sound.

(** ** The reference solver honours the contract *)

Lemma feasibleb_true (m : CpModel) (w : word) :
  feasibleb m w = true -> feasible m w.
Proof.
  unfold feasibleb, in_domainb, feasible, in_domain.
  intros [[[Hlen Hdom]%andb_prop Htab]%andb_prop Hsat]%andb_prop.
  pose proof (proj1 (List.forallb_forall _ _) Hdom) as Hdom'.
  pose proof (proj1 (List.forallb_forall _ _) Htab) as Htab'.
  pose proof (proj1 (List.forallb_forall _ _) Hsat) as Hsat'.
  clear Hdom Htab Hsat. rename Hdom' into Hdom, Htab' into Htab, Hsat' into Hsat.
  repeat split.
  - by apply bool_decide_eq_true_1 in Hlen.
  - apply Forall_forall. intros c Hc%list_elem_of_In.
    specialize (Hdom c Hc). by apply bool_decide_eq_true_1 in Hdom.
  - apply Forall_forall. intros tbl Htbl%list_elem_of_In.
    specialize (Htab tbl Htbl). by apply bool_decide_eq_true_1 in Htab.
  - apply Forall_forall. intros c Hc%list_elem_of_In. by apply Hsat.
Qed.

Lemma better_fold (o : option Objective) (l : list word) (best : option word)
  (w : word) :
  fold_left (better o) l best = Some w -> w ∈ l \/ best = Some w.
Proof.
  revert best. induction l as [|x l IH]; intros best; cbn [fold_left]; [auto|].
  intros [Hin|Hbest]%IH; [left; by right|].
  unfold better in Hbest. destruct best as [b|].
  - case_bool_decide; injection Hbest as <-; [left; left|by right].
  - injection Hbest as <-. left; left.
Qed.

Lemma enum_solver_sound (m : CpModel) (w : word) :
  enum_solver m = Some w -> feasible m w.
Proof.
  unfold enum_solver. destruct (tables m) as [|tbl rest]; [done|].
  intros [Hin|Hnone]%better_fold; [|done].
  apply list_elem_of_filter in Hin as [Hf _]. by apply feasibleb_true.
Qed.

(** ** Whole runs *)

(** On five-letter words and a five-letter target nothing raises: the call
    is the frequency computation followed by the loop. *)
Lemma solve_wordle_run_total (Solve : CpModel -> option word)
  (words : list word) (target_word : string) (max_attempts : Z) :
  sound Solve -> five_letters words -> String.length target_word = 5%nat ->
  exists fm e st,
    frequency_model words = Ok fm
    /\ attempts Solve fm (word_of_string target_word)
         (Z.to_nat max_attempts) (initial_state words) = Ok (e, st)
    /\ solve_wordle_run Solve words target_word max_attempts = Ok (e, st)
    /\ solve_wordle Solve words target_word max_attempts = Ok (response st).
Proof.
  intros Hsound Hwords Htarget.
  destruct (frequency_model_total words Hwords) as [fm Hfm].
  destruct (attempts_total Solve Hsound fm (word_of_string target_word))
    with (n := Z.to_nat max_attempts) (st := initial_state words)
    as (e & st & Hrun); [by rewrite word_of_string_length|done|].
  exists fm, e, st. unfold solve_wordle, solve_wordle_run.
  rewrite Hfm. rsimpl. rewrite Hrun. by rsimpl.
Qed.

Lemma solve_wordle_run_Ok (Solve : CpModel -> option word)
  (words : list word) (target_word : string) (max_attempts : Z)
  (e : exit) (st : loop_state) :
  solve_wordle_run Solve words target_word max_attempts = Ok (e, st) ->
  exists fm,
    frequency_model words = Ok fm
    /\ attempts Solve fm (word_of_string target_word)
         (Z.to_nat max_attempts) (initial_state words) = Ok (e, st).
Proof.
  unfold solve_wordle_run.
  destruct (frequency_model words) as [fm|err]; rsimpl; [eauto|done].
Qed.

Lemma solve_wordle_Ok (Solve : CpModel -> option word)
  (words : list word) (target_word : string) (max_attempts : Z)
  (resp : Response) :
  solve_wordle Solve words target_word max_attempts = Ok resp ->
  exists e st,
    solve_wordle_run Solve words target_word max_attempts = Ok (e, st)
    /\ resp = response st.
Proof.
  unfold solve_wordle.
  destruct (solve_wordle_run Solve words target_word max_attempts)
    as [[e st]|err]; rsimpl; [|done].
  intros [= <-]. eauto.
Qed.

Lemma NoDup_strings (gs : list word) :
  NoDup gs -> Forall in_domain gs -> NoDup (string_of_word <$> gs).
Proof.
  intros Hnd Hdom. apply NoDup_fmap_2_strong; [|done].
  rewrite Forall_forall in Hdom.
  intros v w [_ Hv]%Hdom [_ Hw]%Hdom. by apply string_of_word_inj.
Qed.

Lemma guessed_fresh (Solve : CpModel -> option word) (fm : FrequencyModel)
  (target : word) (st st' : loop_state) (m : CpModel) (guess : word)
  (remaining : list word) (gs : list word) :
  sound Solve ->
  excluded_guesses st gs ->
  guessed Solve fm target st st' m guess remaining ->
  guesses (response st') = string_of_word <$> (gs ++ [guess])
  /\ NoDup (gs ++ [guess]) /\ Forall in_domain (gs ++ [guess])
  /\ constraints m = constraints (model st).
Proof.
  intros Hsound (Hgs & Hnd & Hdom & Hexcl) [Hm Hsolve _ Hresp _ _].
  destruct (guess_feasible Solve Hsound fm st m guess Hm Hsolve)
    as (Hguess & _ & Hsat).
  split; [by rewrite Hresp, fmap_app; simpl; rewrite Hgs|].
  split; [|split].
  - apply NoDup_app. split; [done|]. split; [|apply NoDup_singleton].
    intros g Hg Heq. apply list_elem_of_singleton in Heq as ->.
    destruct (Hexcl _ Hg) as (c & Hc & Hfalse).
    rewrite (Hsat c Hc) in Hfalse. done.
  - apply Forall_app. split; [done|by apply Forall_singleton].
  - by apply submitted_model_inv in Hm as (_ & ? & _).
Qed.

Lemma attempts_NoDup (Solve : CpModel -> option word) (fm : FrequencyModel)
  (target : word) (n : nat) (st st' : loop_state) (e : exit) (gs : list word) :
  sound Solve ->
  excluded_guesses st gs ->
  attempts Solve fm target n st = Ok (e, st') ->
  NoDup (guesses (response st')).
Proof.
  intros Hsound Hexcl Hrun.
  eapply (attempts_invariant Solve fm target
            (fun _ s => exists gs, excluded_guesses s gs)
            (fun _ s => NoDup (guesses (response s))));
    [| | |by exists gs|exact Hrun]; clear dependent st; clear st' e n gs.
  - (* a round that continues *)
    intros _ st st' [gs Hexcl] Hround.
    inversion Hround as [| |m guess remaining filtered m' st'' Hg Hfb Hfilter
      Hupd Hmodel Hvw]; subst.
    destruct (guessed_fresh _ _ _ _ _ _ _ _ _ Hsound Hexcl Hg)
      as (Hgs & Hnd & Hdom & Hcs).
    exists (gs ++ [guess]). split; [done|]. split; [done|]. split; [done|].
    assert (Hguess : in_domain guess).
    { rewrite Forall_app, Forall_singleton in Hdom. tauto. }
    pose proof (continue_feedback_length _ _ _ _ Hguess Hupd) as Hfb5.
    destruct (update_model_spec m guess (get_feedback guess target)
                (proj1 Hguess) Hfb5) as (m'' & Heq & Hext & _).
    rewrite Heq in Hupd. injection Hupd as ->.
    intros g [Hg'|Hg']%elem_of_app;
      [|apply list_elem_of_singleton in Hg' as ->].
    + destruct Hexcl as (_ & _ & _ & Hexcl).
      destruct (Hexcl g Hg') as (c & Hc & Hfalse).
      exists c. split; [|done]. eapply extends_elem; [done|]. by rewrite Hcs.
    + by eapply update_model_excludes; [exact (proj1 Hguess)|exact Hfb5|..].
  - (* a round that returns *)
    intros _ st e st' [gs Hexcl] Hround.
    inversion Hround as [m st'' Hm Hnone Hresp|m guess remaining st'' Hg|];
      subst.
    + rewrite Hresp. destruct Hexcl as (-> & Hnd & Hdom & _).
      by apply NoDup_strings.
    + destruct (guessed_fresh _ _ _ _ _ _ _ _ _ Hsound Hexcl Hg)
        as (-> & Hnd & Hdom & _).
      by apply NoDup_strings.
  - (* the attempts are used up *)
    intros st (gs & -> & Hnd & Hdom & _). by apply NoDup_strings.
Qed.

Lemma guessed_counts (Solve : CpModel -> option word) (fm : FrequencyModel)
  (target : word) (st st' : loop_state) (m : CpModel) (guess : word)
  (remaining : list word) :
  counts_follow_tables st ->
  guessed Solve fm target st st' m guess remaining ->
  nb_possible_words (response st')
  = (fun tbl => (length tbl - 1)%nat) <$> tables m
  /\ length (guesses (response st')) = length (tables m).
Proof.
  intros [Hnb Hlen] [Hm _ Hrem Hresp _ _].
  apply submitted_model_inv in Hm as (Ht & _ & _).
  apply list_remove_Ok in Hrem as (_ & Hrem & _).
  rewrite Hresp, Ht. simpl. rewrite fmap_app, !length_app, Hnb, Hlen. simpl.
  split; [|done]. do 2 f_equal. lia.
Qed.

Lemma attempts_counts (Solve : CpModel -> option word) (fm : FrequencyModel)
  (target : word) (n : nat) (st st' : loop_state) (e : exit) :
  sound Solve ->
  counts_follow_tables st ->
  attempts Solve fm target n st = Ok (e, st') ->
  nb_possible_words (response st')
  = (fun tbl => (length tbl - 1)%nat)
      <$> take (length (guesses (response st'))) (tables (model st')).
Proof.
  intros Hsound Hinit Hrun.
  eapply (attempts_invariant Solve fm target
            (fun _ s => counts_follow_tables s)
            (fun _ s => nb_possible_words (response s)
                        = (fun tbl => (length tbl - 1)%nat)
                            <$> take (length (guesses (response s)))
                                  (tables (model s))));
    [| | |exact Hinit|exact Hrun]; clear dependent st; clear st' e n.
  - intros _ st st' Hinv Hround.
    inversion Hround as [| |m guess remaining filtered m' st'' Hg Hfb Hfilter
      Hupd Hmodel Hvw]; subst.
    destruct (guessed_counts _ _ _ _ _ _ _ _ Hinv Hg) as [Hnb Hlen].
    destruct Hg as [Hm Hsolve _ _ _ _].
    destruct (guess_feasible Solve Hsound fm st m guess Hm Hsolve)
      as (Hguess & _ & _).
    pose proof (continue_feedback_length _ _ _ _ Hguess Hupd) as Hfb5.
    destruct (update_model_spec m guess (get_feedback guess target)
                (proj1 Hguess) Hfb5) as (m'' & Heq & (Ht & _) & _).
    rewrite Heq in Hupd. injection Hupd as ->.
    split; by rewrite Ht.
  - intros _ st e st' [Hnb Hlen] Hround.
    inversion Hround as [m st'' Hm Hnone Hresp _ _ Hmodel
                        |m guess remaining st'' Hg _ Hmodel|]; subst.
    + apply submitted_model_inv in Hm as (Ht & _ & _).
      by rewrite Hresp, Ht, Hlen, take_app_length.
    + destruct (guessed_counts _ _ _ _ _ _ _ _ (conj Hnb Hlen) Hg)
        as [Hnb' Hlen'].
      by rewrite Hlen', firstn_all.
  - intros st [Hnb Hlen]. by rewrite Hlen, firstn_all.
Qed.

(** Every model handed to the solver carries the objective computed from
    the frequency model the loop was entered with. *)
Lemma attempts_objective (Solve : CpModel -> option word) (fm : FrequencyModel)
  (target : word) (n : nat) (st st' : loop_state) (e : exit) :
  Forall (fun m => objective m = installed_objective fm) (solver_calls st) ->
  attempts Solve fm target n st = Ok (e, st') ->
  Forall (fun m => objective m = installed_objective fm) (solver_calls st').
Proof.
  intros Hinit Hrun.
  eapply (attempts_invariant Solve fm target
            (fun _ s => Forall (fun m => objective m = installed_objective fm)
                          (solver_calls s))
            (fun _ s => Forall (fun m => objective m = installed_objective fm)
                          (solver_calls s)));
    [| | |exact Hinit|exact Hrun]; clear dependent st; clear st' e n.
  - intros _ st st' Hinv Hround.
    inversion Hround as [| |m guess remaining filtered m' st'' Hg]; subst.
    destruct Hg as [Hm _ _ _ Hcalls _].
    apply submitted_model_inv in Hm as (_ & _ & Hobj).
    rewrite Hcalls. apply Forall_app. split; [done|by apply Forall_singleton].
  - intros _ st e st' Hinv Hround.
    inversion Hround as [m st'' Hm _ _ _ _ _ Hcalls
                        |m guess remaining st'' Hg|]; subst.
    + apply submitted_model_inv in Hm as (_ & _ & Hobj).
      rewrite Hcalls. apply Forall_app. split; [done|by apply Forall_singleton].
    + destruct Hg as [Hm _ _ _ Hcalls _].
      apply submitted_model_inv in Hm as (_ & _ & Hobj).
      rewrite Hcalls. apply Forall_app. split; [done|by apply Forall_singleton].
  - done.
Qed.

(** One guess per round, and a round per attempt at most. *)
Lemma attempts_bound (Solve : CpModel -> option word) (fm : FrequencyModel)
  (target : word) (n : nat) (st st' : loop_state) (e : exit) :
  attempts Solve fm target n st = Ok (e, st') ->
  match e with
  | Exhausted =>
      length (guesses (response st'))
      = (length (guesses (response st)) + n)%nat
  | Infeasible =>
      (length (guesses (response st'))
       < length (guesses (response st)) + n)%nat
  | Solved =>
      (length (guesses (response st'))
       <= length (guesses (response st)) + n)%nat
  end.
Proof.
  set (total := (length (guesses (response st)) + n)%nat).
  intros Hrun.
  eapply (attempts_invariant Solve fm target
            (fun k s => (length (guesses (response s)) + k)%nat = total)
            (fun e s => match e with
                        | Exhausted => length (guesses (response s)) = total
                        | Infeasible =>
                            (length (guesses (response s)) < total)%nat
                        | Solved =>
                            (length (guesses (response s)) <= total)%nat
                        end));
    [| | |reflexivity|exact Hrun]; clearbody total; clear dependent st;
    clear st' e n.
  - intros k st st' Hinv Hround.
    inversion Hround as [| |m guess remaining filtered m' st'' Hg]; subst.
    destruct Hg as [_ _ _ Hresp _ _]. rewrite Hresp. simpl.
    rewrite length_app. simpl. lia.
  - intros k st e st' Hinv Hround.
    inversion Hround as [m st'' _ _ Hresp|m guess remaining st'' Hg|]; subst.
    + rewrite Hresp. lia.
    + destruct Hg as [_ _ _ Hresp _ _]. rewrite Hresp. simpl.
      rewrite length_app. simpl. lia.
  - intros st Hinv. lia.
Qed.

(** * Further lemmas *)

(** ** [get_feedback], position by position *)

Lemma marked_count_le_guess (L : Z) (guess : word) (fb : list mark) :
  (marked_count L guess fb <= count_occ Z.eq_dec guess L)%nat.
Proof.
  revert fb. induction guess as [|g guess IH]; intros [|f fb]; simpl; try lia.
  specialize (IH fb).
  destruct (Z.eq_dec g L) as [->|Hne].
  - destruct (bool_decide (L = L) && _); lia.
  - rewrite bool_decide_eq_false_2 by done. simpl. lia.
Qed.

(** Either every position holding [L] is marked, or one of them is 'B'. *)
Lemma marked_all_or_gray (L : Z) (guess : word) (fb : list mark) :
  length fb = length guess ->
  marked_count L guess fb = count_occ Z.eq_dec guess L
  \/ exists i, guess !! i = Some L /\ fb !! i = Some B.
Proof.
  revert fb. induction guess as [|g guess IH]; intros [|f fb] Hlen;
    simpl in *; try discriminate; [by left|].
  injection Hlen as Hlen.
  destruct (IH fb Hlen) as [Heq|(i & Hg & Hf)]; [|right; by exists (S i)].
  destruct (Z.eq_dec g L) as [->|Hne].
  - rewrite bool_decide_eq_true_2 by done.
    destruct f; simpl; [left; lia|left; lia|right; by exists 0%nat].
  - rewrite bool_decide_eq_false_2 by done. simpl. by left.
Qed.

(** X2.  For a guess no longer than the target, the marks 'G' and 'Y' that
    the occurrences of a letter receive number exactly the lesser of its
    occurrences in the guess and in the target. *)
Theorem get_feedback_marked_exact (L : Z) (guess target : word) :
  (length guess <= length target)%nat ->
  marked_count L guess (get_feedback guess target)
  = (count_occ Z.eq_dec guess L `min` count_occ Z.eq_dec target L)%nat.
Proof.
  intros Hlen.
  pose proof (get_feedback_marked_le L guess target) as Hle_t.
  pose proof (marked_count_le_guess L guess (get_feedback guess target))
    as Hle_g.
  destruct (marked_all_or_gray L guess (get_feedback guess target))
    as [Heq|(i & Hg & Hf)]; [rewrite get_feedback_length; lia|lia|].
  revert Hle_t Hle_g Hf. rewrite get_feedback_two_pass.
  unfold two_pass_feedback.
  pose proof (correct_pass_remaining guess target (multiset_of target) L)
    as Hrem.
  destruct (correct_pass guess target (multiset_of target)) as [cs r].
  simpl in Hrem. unfold multiset_of in Hrem. intros Hle_t Hle_g Hf.
  pose proof (marked_ge_at_gray _ _ _ _ _ Hf Hg). lia.
Qed.

Lemma get_feedback_marked_exact_witness :
  (length crane <= length trace)%nat
  /\ marked_count 2 crane (get_feedback crane trace)
     = (count_occ Z.eq_dec crane 2%Z
        `min` count_occ Z.eq_dec trace 2%Z)%nat.
Proof.
  assert (Hlen : (length crane <= length trace)%nat) by (simpl; lia).
  split; [exact Hlen|].
  exact (get_feedback_marked_exact 2 crane trace Hlen).
Defined.

Lemma get_feedback_absent_letter (guess target : word) (i : nat) (c : Z)
  (f : mark) :
  get_feedback guess target !! i = Some f -> guess !! i = Some c ->
  c ∉ target -> f = B.
Proof.
  intros Hf Hg Hnot. destruct f; [| |done]; exfalso.
  - apply get_feedback_green in Hf as (c' & Hg' & Ht).
    apply Hnot. apply list_elem_of_lookup. exists i. congruence.
  - by destruct (get_feedback_yellow _ _ _ _ Hf Hg).
Qed.

(** ** Words and strings *)

Lemma string_of_word_of_string (s : string) :
  string_of_word (word_of_string s) = s.
Proof.
  unfold string_of_word, word_of_string.
  induction s as [|a s IH]; simpl; [done|]. f_equal; [|exact IH].
  replace (Z.of_nat (nat_of_ascii a) - 97 + 97) with (Z.of_nat (nat_of_ascii a))
    by lia.
  by rewrite Nat2Z.id, ascii_nat_embedding.
Qed.

Lemma word_of_string_of_word (w : word) :
  Forall (fun c => 0 <= c <= 25) w -> word_of_string (string_of_word w) = w.
Proof.
  unfold string_of_word, word_of_string.
  rewrite String.list_ascii_of_string_of_list_ascii.
  induction 1 as [|c w Hc _ IH]; simpl; [done|]. f_equal; [|exact IH].
  rewrite nat_ascii_embedding by lia. lia.
Qed.

(** ** What [filter_valid_words] keeps *)

(** The three rules a kept word obeys, read off the three loops. *)
Definition consistent (w guess : word) (fb : list mark) : Prop :=
  (forall pos, fb !! pos = Some G -> w !! pos = guess !! pos)
  /\ (forall pos c, fb !! pos = Some Y -> guess !! pos = Some c ->
        w !! pos <> Some c /\ c ∈ w)
  /\ (forall pos c, fb !! pos = Some B -> guess !! pos = Some c -> c ∈ w ->
        exists p, guess !! p = Some c
                  /\ (fb !! p = Some G \/ fb !! p = Some Y)).

Lemma for_valid_Ok_true {A : Type} (body : A -> result bool) (l : list A) :
  for_valid body l = Ok true -> forall x, x ∈ l -> body x = Ok true.
Proof.
  induction l as [|y l IH]; intros Hloop x Hx; [by apply elem_of_nil in Hx|].
  cbn [for_valid] in Hloop.
  destruct (body y) as [[|]|e] eqn:Hy; cbn [mbind result_bind] in Hloop;
    try done.
  apply elem_of_cons in Hx as [->|Hx]; [done|by apply IH].
Qed.

Lemma is_green_or_yellow_true (f : mark) :
  is_green_or_yellow f = true <-> f = G \/ f = Y.
Proof. destruct f; cbv; intuition discriminate. Qed.

Lemma is_gray_true (f : mark) : is_gray f = true <-> f = B.
Proof. destruct f; cbv; intuition discriminate. Qed.

Section Consistent.
Variables (w guess : word) (fb : list mark).
Hypothesis w_len : length w = 5%nat.
Hypothesis guess_len : length guess = 5%nat.
Hypothesis fb_len : length fb = 5%nat.

Lemma green_body_true (pos : nat) :
  (pos < 5)%nat ->
  green_body w guess fb pos = Ok true
  <-> (fb !! pos = Some G -> w !! pos = guess !! pos).
Proof.
  intros Hpos. unfold green_body.
  destruct (getitem_lt fb pos) as (f & -> & Hf); [lia|].
  destruct (getitem_lt w pos) as (wc & Hwc & Hw); [lia|].
  destruct (getitem_lt guess pos) as (gc & Hgc & Hg); [lia|].
  rsimpl. destruct (decide (f = G)) as [->|Hne].
  - rewrite Hwc. rsimpl. rewrite Hgc. rsimpl. rewrite Hf, Hw, Hg. split.
    + intros [= Heq%bool_decide_eq_true_1] _. by subst.
    + intros Heq. specialize (Heq eq_refl). injection Heq as ->.
      by rewrite bool_decide_eq_true_2.
  - split; [|done]. intros _ Heq. congruence.
Qed.

Lemma yellow_body_true (pos : nat) :
  (pos < 5)%nat ->
  yellow_body w guess fb pos = Ok true
  <-> (forall c, fb !! pos = Some Y -> guess !! pos = Some c ->
         w !! pos <> Some c /\ c ∈ w).
Proof.
  intros Hpos. unfold yellow_body.
  destruct (getitem_lt fb pos) as (f & -> & Hf); [lia|].
  destruct (getitem_lt w pos) as (wc & Hwc & Hw); [lia|].
  destruct (getitem_lt guess pos) as (gc & Hgc & Hg); [lia|].
  rsimpl. destruct (decide (f = Y)) as [->|Hne].
  - rewrite Hwc. rsimpl. rewrite Hgc. rsimpl. rewrite Hf, Hw, Hg.
    destruct (bool_decide (wc = gc)) eqn:Heq; rsimpl.
    + apply bool_decide_eq_true_1 in Heq. subst gc. split; [done|].
      intros Hrule. by destruct (Hrule wc eq_refl eq_refl).
    + apply bool_decide_eq_false_1 in Heq. split.
      * intros [= Hin%bool_decide_eq_true_1] c _ [= <-].
        split; [congruence|done].
      * intros Hrule. destruct (Hrule gc eq_refl eq_refl) as [_ Hin].
        by rewrite bool_decide_eq_true_2.
  - split; [|done]. intros _ c Heq. congruence.
Qed.

Lemma gray_body_true (char : Z) :
  gray_body w guess fb char = Ok true
  <-> (char ∈ w ->
       exists p, guess !! p = Some char
                 /\ (fb !! p = Some G \/ fb !! p = Some Y)).
Proof.
  unfold gray_body.
  destruct (letters_where_spec is_green_or_yellow guess fb range5)
    as (marked & -> & Hmarked).
  { intros p Hp%range5_lt. lia. }
  rsimpl. case_bool_decide as Hin; [|done]. split.
  - intros [= Hm%bool_decide_eq_true_1] _.
    apply Hmarked in Hm as (p & f & _ & Hg & Hf & Hk).
    apply is_green_or_yellow_true in Hk as [->| ->]; eauto.
  - intros Hrule. destruct (Hrule Hin) as (p & Hg & Hf).
    f_equal. apply bool_decide_eq_true_2. apply Hmarked.
    assert (Hp : p ∈ range5).
    { apply range5_lt. apply lookup_lt_Some in Hg. lia. }
    destruct Hf as [Hf|Hf]; [exists p, G|exists p, Y]; by repeat split.
Qed.

(** On five-letter inputs the three loops accept exactly the consistent
    words. *)
Lemma word_is_valid_consistent :
  word_is_valid w guess fb = Ok true <-> consistent w guess fb.
Proof.
  unfold word_is_valid, consistent.
  destruct (letters_where_spec is_gray guess fb range5)
    as (gray & Hgray_eq & Hgray).
  { intros p Hp%range5_lt. lia. }
  split.
  - destruct (for_valid (green_body w guess fb) range5) as [[|]|e] eqn:Hgreen;
      rsimpl; try done.
    destruct (for_valid (yellow_body w guess fb) range5) as [[|]|e] eqn:Hyellow;
      rsimpl; try done.
    rewrite Hgray_eq. rsimpl. intros Hloop.
    split; [|split].
    + intros pos Hf.
      assert (Hpos : (pos < 5)%nat) by (apply lookup_lt_Some in Hf; lia).
      eapply green_body_true; [done| |done].
      eapply for_valid_Ok_true; [done|by apply range5_lt].
    + intros pos c Hf.
      assert (Hpos : (pos < 5)%nat) by (apply lookup_lt_Some in Hf; lia).
      eapply yellow_body_true; [done| |done].
      eapply for_valid_Ok_true; [done|by apply range5_lt].
    + intros pos c Hf Hg.
      assert (Hpos : (pos < 5)%nat) by (apply lookup_lt_Some in Hf; lia).
      apply gray_body_true. eapply for_valid_Ok_true; [done|].
      apply Hgray. exists pos, B. repeat split; try done.
      by apply range5_lt.
  - intros (Hgreen & Hyellow & Hgrays).
    rewrite (for_valid_true (green_body w guess fb)).
    2:{ intros pos Hpos%range5_lt. apply green_body_true; [done|].
        apply Hgreen. }
    rsimpl. rewrite (for_valid_true (yellow_body w guess fb)).
    2:{ intros pos Hpos%range5_lt. apply yellow_body_true; [done|].
        intros c. apply Hyellow. }
    rsimpl. rewrite Hgray_eq. rsimpl. apply for_valid_true.
    intros char (p & f & _ & Hg & Hf & Hk%is_gray_true)%Hgray. subst f.
    apply gray_body_true. by apply (Hgrays p).
Qed.
End Consistent.

Lemma filter_valid_words_cons (w : word) (ws : list word) (guess : word)
  (fb : list mark) (valid : list word) :
  filter_valid_words (w :: ws) guess fb = Ok valid ->
  exists keep rest,
    word_is_valid w guess fb = Ok keep
    /\ filter_valid_words ws guess fb = Ok rest
    /\ valid = if keep : bool then w :: rest else rest.
Proof.
  cbn [filter_valid_words].
  destruct (word_is_valid w guess fb) as [keep|e]; rsimpl; [|done].
  destruct (filter_valid_words ws guess fb) as [rest|e]; rsimpl; [|done].
  intros [= <-]. by exists keep, rest.
Qed.

Lemma filter_valid_words_cons_Ok (w : word) (ws : list word) (guess : word)
  (fb : list mark) (keep : bool) (rest : list word) :
  word_is_valid w guess fb = Ok keep ->
  filter_valid_words ws guess fb = Ok rest ->
  filter_valid_words (w :: ws) guess fb
  = Ok (if keep then w :: rest else rest).
Proof. intros Hw Hrest. cbn [filter_valid_words]. by rewrite Hw, Hrest. Qed.

Lemma filter_valid_words_sublist (words_data : list word) (guess : word)
  (fb : list mark) (valid : list word) :
  filter_valid_words words_data guess fb = Ok valid ->
  valid `sublist_of` words_data
  /\ forall w, w ∈ valid <-> w ∈ words_data /\ word_is_valid w guess fb = Ok true.
Proof.
  revert valid. induction words_data as [|x ws IH]; intros valid.
  - intros [= <-]. split; [constructor|]. intros w. split.
    + by intros ?%elem_of_nil.
    + by intros [?%elem_of_nil _].
  - intros (keep & rest & Hx & Hrest & ->)%filter_valid_words_cons.
    destruct (IH rest Hrest) as [Hsub Hiff]. split.
    + destruct keep; by constructor.
    + intros w. destruct keep.
      * rewrite !elem_of_cons, Hiff. split.
        -- intros [->|[Hin Hw]]; [by split; [left|]|by split; [right|]].
        -- intros [[->|Hin] Hw]; [by left|by right].
      * rewrite elem_of_cons, Hiff. split.
        -- intros [Hin Hw]. by split; [right|].
        -- intros [[->|Hin] Hw]; [congruence|done].
Qed.

(** X6.  Filtering is idempotent: a list that [filter_valid_words] returned
    is returned unchanged when it is filtered again by the same guess and
    feedback. *)
Theorem filter_valid_words_again (words_data : list word) (guess : word)
  (fb : list mark) (valid : list word) :
  filter_valid_words words_data guess fb = Ok valid ->
  filter_valid_words valid guess fb = Ok valid.
Proof.
  revert valid. induction words_data as [|x ws IH]; intros valid.
  - by intros [= <-].
  - intros (keep & rest & Hx & Hrest & ->)%filter_valid_words_cons.
    specialize (IH rest Hrest). destruct keep; [|done].
    by rewrite (filter_valid_words_cons_Ok x rest guess fb true rest).
Qed.

Lemma filter_valid_words_again_witness :
  filter_valid_words [crane; slate; irate] trace [B; G; G; Y; G]
  = Ok [crane]
  /\ filter_valid_words [crane] trace [B; G; G; Y; G] = Ok [crane].
Proof.
  assert (H : filter_valid_words [crane; slate; irate] trace [B; G; G; Y; G]
              = Ok [crane]) by (vm_compute; reflexivity).
  split; [exact H|].
  exact (filter_valid_words_again [crane; slate; irate] trace
           [B; G; G; Y; G] [crane] H).
Defined.

(** X7.  Two filters commute: filtering by one guess and then by another
    gives the same list as filtering in the other order. *)
Theorem filter_valid_words_swap (words_data : list word) (g1 g2 : word)
  (f1 f2 : list mark) (k1 k2 : list word) :
  filter_valid_words words_data g1 f1 = Ok k1 ->
  filter_valid_words words_data g2 f2 = Ok k2 ->
  exists k,
    filter_valid_words k1 g2 f2 = Ok k /\ filter_valid_words k2 g1 f1 = Ok k.
Proof.
  revert k1 k2. induction words_data as [|x ws IH]; intros k1 k2.
  - intros [= <-] [= <-]. by exists [].
  - intros (b1 & r1 & Hx1 & Hr1 & ->)%filter_valid_words_cons
           (b2 & r2 & Hx2 & Hr2 & ->)%filter_valid_words_cons.
    destruct (IH r1 r2 Hr1 Hr2) as (k & Hk1 & Hk2).
    destruct b1, b2.
    + exists (x :: k). split.
      * by rewrite (filter_valid_words_cons_Ok x r1 g2 f2 true k).
      * by rewrite (filter_valid_words_cons_Ok x r2 g1 f1 true k).
    + exists k. split; [|done].
      by rewrite (filter_valid_words_cons_Ok x r1 g2 f2 false k).
    + exists k. split; [done|].
      by rewrite (filter_valid_words_cons_Ok x r2 g1 f1 false k).
    + by exists k.
Qed.

Lemma filter_valid_words_swap_witness :
  filter_valid_words scenario [8; 17; 0; 25; 4] [B; G; G; B; G]
  = Ok [crane; trace]
  /\ filter_valid_words scenario [18; 17; 0; 25; 4] [B; G; G; B; G]
     = Ok [crane; irate; trace]
  /\ exists k,
       filter_valid_words [crane; trace] [18; 17; 0; 25; 4] [B; G; G; B; G]
       = Ok k
       /\ filter_valid_words [crane; irate; trace] [8; 17; 0; 25; 4]
            [B; G; G; B; G] = Ok k.
Proof.
  assert (H1 : filter_valid_words scenario [8; 17; 0; 25; 4] [B; G; G; B; G]
               = Ok [crane; trace]) by (vm_compute; reflexivity).
  assert (H2 : filter_valid_words scenario [18; 17; 0; 25; 4] [B; G; G; B; G]
               = Ok [crane; irate; trace]) by (vm_compute; reflexivity).
  split; [exact H1|]. split; [exact H2|].
  exact (filter_valid_words_swap scenario [8; 17; 0; 25; 4]
           [18; 17; 0; 25; 4] [B; G; G; B; G] [B; G; G; B; G]
           [crane; trace] [crane; irate; trace] H1 H2).
Defined.

(** ** Everything [update_model] posts holds of the target *)

Lemma gray_at_update_inv (gp : list (Z * list nat)) (char c : Z) (pos p : nat) :
  gray_at (dict_update [] (fun ps => ps ++ [pos]) char gp) c p ->
  gray_at gp c p \/ (c = char /\ p = pos).
Proof.
  induction gp as [|[k v] gp IH]; cbn [dict_update].
  - intros (ps & Hps & Hp). apply list_elem_of_singleton in Hps.
    injection Hps as -> ->. apply list_elem_of_singleton in Hp. by right.
  - case_bool_decide as Hk.
    + subst k. intros (ps & Hps & Hp).
      apply elem_of_cons in Hps as [[= -> ->]|Hps].
      * apply elem_of_app in Hp as [Hp|Hp%list_elem_of_singleton];
          [left|by right].
        exists v. split; [left|done].
      * left. exists ps. split; [by right|done].
    + intros (ps & Hps & Hp).
      apply elem_of_cons in Hps as [[= -> ->]|Hps].
      * left. exists v. split; [left|done].
      * destruct IH as [(ps' & Hps' & Hp')|Hnew]; [by exists ps| |by right].
        left. exists ps'. split; [by right|done].
Qed.

Lemma letter_counts_update (lc : list (Z * Z)) (char : Z) (N : Z -> Z) :
  0 <= N char ->
  (forall ch v, (ch, v) ∈ lc -> v <= N ch) ->
  forall ch v, (ch, v) ∈ dict_update 0 (Z.add 1) char lc ->
    v <= N ch + (if bool_decide (ch = char) then 1 else 0).
Proof.
  intros Hpos. induction lc as [|[k x] lc IH]; intros Hbound ch v;
    cbn [dict_update].
  - intros [= -> ->]%list_elem_of_singleton.
    rewrite bool_decide_eq_true_2 by done. lia.
  - assert (Hx : x <= N k) by (apply Hbound; left).
    assert (Hrest : forall ch v, (ch, v) ∈ lc -> v <= N ch).
    { intros ch' v' Hin. apply Hbound. by right. }
    case_bool_decide as Hk.
    + subst k. intros [[= -> ->]|Hin]%elem_of_cons.
      * rewrite bool_decide_eq_true_2 by done. lia.
      * specialize (Hrest _ _ Hin). destruct (bool_decide (ch = char)); lia.
    + intros [[= -> ->]|Hin]%elem_of_cons.
      * rewrite bool_decide_eq_false_2 by done. lia.
      * by apply IH.
Qed.

Lemma marks_loop_posts (guess : word) (fb : list mark) :
  forall (n k : nat) m lc gp m1 lc1 gp1 (N : Z -> Z),
    for_fold (marks_body guess fb) (seq k n) (m, lc, gp) = Ok (m1, lc1, gp1) ->
    (forall ch, 0 <= N ch) ->
    (forall ch v, (ch, v) ∈ lc -> v <= N ch) ->
    (forall c, c ∈ constraints m1 ->
       c ∈ constraints m
       \/ exists p ch, guess !! p = Some ch
            /\ ((c = PosEq p ch /\ fb !! p = Some G)
                \/ (c = PosNe p ch /\ fb !! p = Some Y)))
    /\ (forall ch p, gray_at gp1 ch p ->
          gray_at gp ch p \/ (guess !! p = Some ch /\ fb !! p = Some B))
    /\ (forall ch v, (ch, v) ∈ lc1 ->
          v <= N ch + Z.of_nat (marked_count ch (take n (drop k guess))
                                  (take n (drop k fb)))).
Proof.
  induction n as [|n IH]; intros k m lc gp m1 lc1 gp1 N Hfold HN Hlc.
  - injection Hfold as <- <- <-. split; [by left|]. split; [by left|].
    intros ch v Hin. specialize (Hlc ch v Hin). simpl. lia.
  - cbn [seq for_fold] in Hfold.
    destruct (marks_body guess fb (m, lc, gp) k) as [[[m0 lc0] gp0]|e] eqn:Hbody;
      cbn [mbind result_bind] in Hfold; [|done].
    unfold marks_body in Hbody.
    destruct (getitem guess k) as [gc|e] eqn:Hg;
      cbn [mbind result_bind] in Hbody; [|done].
    destruct (getitem fb k) as [f|e] eqn:Hf;
      cbn [mbind result_bind] in Hbody; [|done].
    apply getitem_Ok in Hg, Hf.
    rewrite (drop_S _ _ _ Hg), (drop_S _ _ _ Hf). cbn [take marked_count].
    set (N' := fun ch =>
                 N ch + (if bool_decide (ch = gc) &&
                            (bool_decide (f = G) || bool_decide (f = Y))
                         then 1 else 0)).
    assert (HN' : forall ch, 0 <= N' ch).
    { intros ch. subst N'. simpl. specialize (HN ch).
      destruct (_ && _); lia. }
    assert (Hcount : forall ch v,
               v <= N' ch + Z.of_nat (marked_count ch (take n (drop (S k) guess))
                                        (take n (drop (S k) fb))) ->
               v <= N ch + Z.of_nat
                     ((if bool_decide (gc = ch) &&
                          (bool_decide (f = G) || bool_decide (f = Y))
                       then 1 else 0)
                      + marked_count ch (take n (drop (S k) guess))
                          (take n (drop (S k) fb)))%nat).
    { intros ch v. subst N'. simpl.
      rewrite (bool_decide_ext (ch = gc) (gc = ch)) by done.
      destruct (_ && _); lia. }
    assert (Hlc0 : forall ch v, (ch, v) ∈ lc0 -> v <= N' ch).
    { intros ch v Hin. subst N'. simpl. destruct f; injection Hbody as <- <- <-.
      - rewrite andb_true_r. by apply (letter_counts_update lc gc N).
      - rewrite andb_true_r. by apply (letter_counts_update lc gc N).
      - rewrite andb_false_r. specialize (Hlc ch v Hin). lia. }
    destruct (IH (S k) m0 lc0 gp0 m1 lc1 gp1 N' Hfold HN' Hlc0)
      as (Hcs & Hgray & Hcounts).
    split; [|split].
    + intros c [Hc|Hnew]%Hcs; [|by right].
      destruct f; injection Hbody as <- <- <-.
      * apply elem_of_app in Hc as [Hc|Hc%list_elem_of_singleton];
          [by left|right]. exists k, gc. split; [done|]. by left.
      * apply elem_of_app in Hc as [Hc|Hc%list_elem_of_singleton];
          [by left|right]. exists k, gc. split; [done|]. by right.
      * by left.
    + intros ch p [Hgp|Hnew]%Hgray; [|by right].
      destruct f; injection Hbody as <- <- <-; try by left.
      apply gray_at_update_inv in Hgp as [Hgp|[-> ->]]; [by left|by right].
    + intros ch v Hin. apply Hcount. by apply Hcounts.
Qed.

Lemma gray_constraints_inv (gp : list (Z * list nat)) (m : CpModel)
  (c : constraint) :
  c ∈ constraints (gray_constraints m gp) ->
  c ∈ constraints m \/ exists ch p, c = PosNe p ch /\ gray_at gp ch p.
Proof.
  unfold gray_constraints. revert m.
  induction gp as [|[k v] gp IH]; intros m; cbn [fold_left]; [by left|].
  intros [Hc|(ch & p & -> & ps & Hps & Hp)]%IH.
  - assert (Hinner : forall m0,
               c ∈ constraints
                     (fold_left (fun m1 pos => Add m1 (PosNe pos k)) v m0) ->
               c ∈ constraints m0 \/ exists p, c = PosNe p k /\ p ∈ v).
    { clear. induction v as [|p v IHv]; intros m0; cbn [fold_left];
        [by left|].
      intros [Hc|(q & -> & Hq)]%IHv.
      - apply elem_of_app in Hc as [Hc|Hc%list_elem_of_singleton];
          [by left|right]. exists p. split; [done|left].
      - right. exists q. split; [done|by right]. }
    destruct (Hinner m Hc) as [Hm|(p & -> & Hp)]; [by left|right].
    exists k, p. split; [done|]. exists v. split; [left|done].
  - right. exists ch, p. split; [done|]. exists ps. split; [by right|done].
Qed.

Lemma occurs_constraints_inv (lc : list (Z * Z)) (gp : list (Z * list nat))
  (m : CpModel) (c : constraint) :
  c ∈ constraints (occurs_constraints m lc gp) ->
  c ∈ constraints m
  \/ exists ch v, c = Occurs ch (dict_get [] ch gp) v /\ (ch, v) ∈ lc.
Proof.
  unfold occurs_constraints. revert m.
  induction lc as [|[k v] lc IH]; intros m; cbn [fold_left]; [by left|].
  intros [Hc|(ch & x & -> & Hin)]%IH.
  - apply elem_of_app in Hc as [Hc|Hc%list_elem_of_singleton]; [by left|].
    right. exists k, v. split; [done|left].
  - right. exists ch, x. split; [done|by right].
Qed.

Lemma filter_length_mono {A : Type} (P Q : A -> Prop)
  `{forall x, Decision (P x)} `{forall x, Decision (Q x)} (l : list A) :
  (forall x, P x -> Q x) ->
  (length (filter P l) <= length (filter Q l))%nat.
Proof.
  intros HPQ. induction l as [|x l IH]; [done|].
  rewrite !filter_cons. destruct (decide (P x)) as [HP|HP].
  - rewrite decide_True by auto. simpl. lia.
  - destruct (decide (Q x)); simpl; lia.
Qed.

Lemma count_occ_positions (t : word) (ch : Z) :
  length t = 5%nat ->
  count_occ Z.eq_dec t ch
  = length (filter (fun p => t !! p = Some ch) range5).
Proof.
  intros Hlen.
  destruct t as [|t0 [|t1 [|t2 [|t3 [|t4 [|]]]]]]; try discriminate.
  unfold range5. rewrite !filter_cons, filter_nil. simpl.
  repeat (destruct (Z.eq_dec _ ch) as [->|?]);
    repeat case_decide; simplify_eq; done.
Qed.

(** Every constraint [update_model] posts from the feedback of a guess
    against a target is satisfied by that target. *)
Lemma update_model_target (m m' : CpModel) (guess target : word) :
  length guess = 5%nat -> length target = 5%nat ->
  update_model m guess (get_feedback guess target) = Ok m' ->
  forall c, c ∈ constraints m' -> c ∈ constraints m \/ sat target c = true.
Proof.
  intros Hg Ht. unfold update_model.
  destruct (for_fold (marks_body guess (get_feedback guess target)) range5
              (m, [], [])) as [[[m1 lc1] gp1]|e] eqn:Hfold; rsimpl; [|done].
  intros [= <-] c Hc.
  destruct (marks_loop_posts guess (get_feedback guess target) 5 0
              m [] [] m1 lc1 gp1 (fun _ => 0) Hfold)
    as (Hcs & Hgray & Hcounts); [done|by intros ch v ?%elem_of_nil|].
  assert (Hne : forall p ch, guess !! p = Some ch ->
                  get_feedback guess target !! p <> Some G ->
                  target !! p <> Some ch).
  { intros p ch Hp Hfb Htp. apply Hfb. apply get_feedback_green. eauto. }
  apply occurs_constraints_inv in Hc as [Hc|(ch & v & -> & Hin)].
  - apply gray_constraints_inv in Hc as [Hc|(ch & p & -> & Hgp)].
    + apply Hcs in Hc as [Hc|(p & ch & Hp & [[-> Hfb]|[-> Hfb]])];
        [by left|right..].
      * apply get_feedback_green in Hfb as (ch' & Hp' & Htp).
        simpl. apply bool_decide_eq_true_2. congruence.
      * simpl. rewrite bool_decide_eq_false_2; [done|].
        apply (Hne p ch Hp). congruence.
    + right. apply Hgray in Hgp as [(ps & ?%elem_of_nil & _)|[Hp Hfb]]; [done|].
      simpl. rewrite bool_decide_eq_false_2; [done|].
      apply (Hne p ch Hp). congruence.
  - right. specialize (Hcounts ch v Hin). simpl in Hcounts.
    rewrite !drop_0, !firstn_all2 in Hcounts
      by (rewrite ?get_feedback_length; lia).
    pose proof (get_feedback_marked_le ch guess target) as Hle.
    rewrite (count_occ_positions target ch Ht) in Hle.
    pose proof (filter_length_mono
                  (fun p => target !! p = Some ch)
                  (fun p => p ∈ dict_get [] ch gp1 \/ target !! p = Some ch)
                  range5 (fun p Hp => or_intror Hp)) as Hmono.
    simpl. apply bool_decide_eq_true_2. lia.
Qed.

(** ** The history a run records *)

Lemma list_remove_sublist (x : word) (l l' : list word) :
  list_remove x l = Ok l' -> l' `sublist_of` l.
Proof.
  revert l'. induction l as [|y l IH]; intros l'; cbn [list_remove]; [done|].
  case_bool_decide.
  - intros [= <-]. by constructor.
  - destruct (list_remove x l) as [r|e]; rsimpl; [|done].
    intros [= <-]. constructor. by apply IH.
Qed.

Lemma list_remove_other (x y : word) (l l' : list word) :
  list_remove x l = Ok l' -> y ∈ l -> y <> x -> y ∈ l'.
Proof.
  revert l'. induction l as [|z l IH]; intros l'; cbn [list_remove]; [done|].
  case_bool_decide as Hz.
  - intros [= <-] [->|Hin]%elem_of_cons Hne; [done|done].
  - destruct (list_remove x l) as [r|e]; rsimpl; [|done].
    intros [= <-] [->|Hin]%elem_of_cons Hne; [left|right; by apply IH].
Qed.

(** The guesses played so far, as words, with what the response holds about
    them; none of them has been answered all 'G'. *)
Record history (words : list word) (target : word) (st : loop_state)
  (gs : list word) : Prop := {
  history_candidates : current st `sublist_of` words;
  history_guesses : guesses (response st) = string_of_word <$> gs;
  history_feedback :
    feedback (response st) = (fun g => get_feedback g target) <$> gs;
  history_counts : length (nb_possible_words (response st)) = length gs;
  history_words : Forall (fun g => g ∈ words) gs;
  history_unsolved :
    Forall (fun g => get_feedback g target <> replicate 5 G) gs
}.

Lemma guessed_history (Solve : CpModel -> option word) (fm : FrequencyModel)
  (words : list word) (target : word) (st st' : loop_state) (m : CpModel)
  (guess : word) (remaining : list word) (gs : list word) :
  history words target st gs ->
  guessed Solve fm target st st' m guess remaining ->
  guesses (response st') = string_of_word <$> (gs ++ [guess])
  /\ feedback (response st')
     = (fun g => get_feedback g target) <$> (gs ++ [guess])
  /\ length (nb_possible_words (response st')) = length (gs ++ [guess])
  /\ Forall (fun g => g ∈ words) (gs ++ [guess])
  /\ remaining `sublist_of` words.
Proof.
  intros [Hsub Hgs Hfb Hnb Hwords _] [_ _ Hrem Hresp _ _].
  rewrite Hresp. simpl. rewrite !fmap_app, !length_app, Hgs, Hfb, Hnb. simpl.
  split; [done|]. split; [done|]. split; [done|].
  pose proof (list_remove_sublist _ _ _ Hrem) as Hsub'.
  apply list_remove_Ok in Hrem as (Hin & _ & _).
  split; [|by etrans].
  apply Forall_app. split; [done|]. apply Forall_singleton.
  by eapply sublist_subseteq.
Qed.

Lemma attempts_history (Solve : CpModel -> option word) (fm : FrequencyModel)
  (words : list word) (target : word) (n : nat) (st st' : loop_state)
  (e : exit) (gs : list word) :
  history words target st gs ->
  attempts Solve fm target n st = Ok (e, st') ->
  exists gs',
    guesses (response st') = string_of_word <$> gs'
    /\ feedback (response st') = (fun g => get_feedback g target) <$> gs'
    /\ length (nb_possible_words (response st')) = length gs'
    /\ Forall (fun g => g ∈ words) gs'
    /\ match e with
       | Solved =>
           exists init g,
             gs' = init ++ [g]
             /\ get_feedback g target = replicate 5 G
             /\ Forall (fun g => get_feedback g target <> replicate 5 G) init
       | _ => Forall (fun g => get_feedback g target <> replicate 5 G) gs'
       end.
Proof.
  intros Hinit Hrun.
  eapply (attempts_invariant Solve fm target
            (fun _ s => exists gs, history words target s gs)
            (fun e s =>
               exists gs',
                 guesses (response s) = string_of_word <$> gs'
                 /\ feedback (response s)
                    = (fun g => get_feedback g target) <$> gs'
                 /\ length (nb_possible_words (response s)) = length gs'
                 /\ Forall (fun g => g ∈ words) gs'
                 /\ match e with
                    | Solved =>
                        exists init g,
                          gs' = init ++ [g]
                          /\ get_feedback g target = replicate 5 G
                          /\ Forall (fun g => get_feedback g target
                                              <> replicate 5 G) init
                    | _ => Forall (fun g => get_feedback g target
                                            <> replicate 5 G) gs'
                    end));
    [| | |by exists gs|exact Hrun]; clear dependent st; clear st' e n gs.
  - intros _ st st' [gs Hh] Hround.
    inversion Hround as [| |m guess remaining filtered m' st'' Hg Hfb Hfilter
      Hupd Hmodel Hvw]; subst.
    destruct (guessed_history _ _ _ _ _ _ _ _ _ _ Hh Hg)
      as (Hgs & Hfbs & Hnb & Hwords & Hsub).
    exists (gs ++ [guess]). split; [|done..|].
    + unfold current. rewrite Hvw.
      apply filter_valid_words_sublist in Hfilter as [Hsub' _]. by etrans.
    + apply Forall_app. split; [by destruct Hh|by apply Forall_singleton].
  - intros _ st e st' [gs Hh] Hround.
    inversion Hround as [m st'' Hm Hnone Hresp
                        |m guess remaining st'' Hg Hfb|]; subst.
    + destruct Hh as [_ Hgs Hfbs Hnb Hwords Hun]. exists gs.
      by rewrite Hresp.
    + destruct (guessed_history _ _ _ _ _ _ _ _ _ _ Hh Hg)
        as (Hgs & Hfbs & Hnb & Hwords & _).
      exists (gs ++ [guess]). split; [done|]. split; [done|]. split; [done|].
      split; [done|]. exists gs, guess. by destruct Hh.
  - intros st [gs [_ Hgs Hfbs Hnb Hwords Hun]]. by exists gs.
Qed.

Lemma initial_history (words : list word) (target : word) :
  history words target (initial_state words) [].
Proof. by split. Qed.

(** ** The recorded counts shrink *)

Definition decreasing (l : list nat) : Prop :=
  forall i j a b, (i < j)%nat -> l !! i = Some a -> l !! j = Some b ->
                  (b < a)%nat.

Lemma decreasing_snoc (l : list nat) (v : nat) :
  decreasing l -> (forall x, x ∈ l -> (v < x)%nat) -> decreasing (l ++ [v]).
Proof.
  intros Hdec Hlt i j a b Hij Ha Hb.
  assert (Hj : (j < length (l ++ [v]))%nat) by (by eapply lookup_lt_Some).
  rewrite length_app in Hj. simpl in Hj.
  rewrite lookup_app_l in Ha by lia.
  destruct (decide (j < length l)%nat) as [Hjl|Hjl].
  - rewrite lookup_app_l in Hb by done. exact (Hdec i j a b Hij Ha Hb).
  - rewrite lookup_app_r in Hb by lia.
    replace (j - length l)%nat with 0%nat in Hb by lia.
    injection Hb as <-. apply Hlt. by eapply list_elem_of_lookup_2.
Qed.

Definition counts_shrink (words : list word) (st : loop_state) : Prop :=
  current st `sublist_of` words
  /\ decreasing (nb_possible_words (response st))
  /\ forall x, x ∈ nb_possible_words (response st) ->
               (length (current st) <= x)%nat.

Lemma guessed_shrink (Solve : CpModel -> option word) (fm : FrequencyModel)
  (words : list word) (target : word) (st st' : loop_state) (m : CpModel)
  (guess : word) (remaining : list word) :
  counts_shrink words st ->
  Forall (fun x => (x < length words)%nat) (nb_possible_words (response st)) ->
  guessed Solve fm target st st' m guess remaining ->
  remaining `sublist_of` words
  /\ decreasing (nb_possible_words (response st'))
  /\ (forall x, x ∈ nb_possible_words (response st') ->
                (length remaining <= x)%nat)
  /\ Forall (fun x => (x < length words)%nat)
       (nb_possible_words (response st')).
Proof.
  intros (Hsub & Hdec & Hbound) Hlt [_ _ Hrem Hresp _ _].
  pose proof (list_remove_sublist _ _ _ Hrem) as Hsub'.
  apply list_remove_Ok in Hrem as (_ & Hlen & _).
  pose proof (sublist_length _ _ Hsub) as Hle.
  rewrite Hresp. simpl. split; [by etrans|]. split; [|split].
  - apply decreasing_snoc; [done|]. intros x Hx%Hbound. lia.
  - intros x [Hx%Hbound|Hx%list_elem_of_singleton]%elem_of_app; lia.
  - apply Forall_app. split; [done|]. apply Forall_singleton. lia.
Qed.

Lemma attempts_shrink (Solve : CpModel -> option word) (fm : FrequencyModel)
  (words : list word) (target : word) (n : nat) (st st' : loop_state)
  (e : exit) :
  counts_shrink words st ->
  Forall (fun x => (x < length words)%nat) (nb_possible_words (response st)) ->
  attempts Solve fm target n st = Ok (e, st') ->
  decreasing (nb_possible_words (response st'))
  /\ Forall (fun x => (x < length words)%nat)
       (nb_possible_words (response st')).
Proof.
  intros Hinit Hlt Hrun.
  eapply (attempts_invariant Solve fm target
            (fun _ s => counts_shrink words s
                        /\ Forall (fun x => (x < length words)%nat)
                             (nb_possible_words (response s)))
            (fun _ s => decreasing (nb_possible_words (response s))
                        /\ Forall (fun x => (x < length words)%nat)
                             (nb_possible_words (response s))));
    [| | |by split|exact Hrun]; clear dependent st; clear st' e n.
  - intros _ st st' [Hinv Hlt0] Hround.
    inversion Hround as [| |m guess remaining filtered m' st'' Hg Hfb Hfilter
      Hupd Hmodel Hvw]; subst.
    destruct (guessed_shrink _ _ _ _ _ _ _ _ _ Hinv Hlt0 Hg)
      as (Hsub & Hdec & Hbound & Hlt).
    apply filter_valid_words_sublist in Hfilter as [Hsub' _].
    pose proof (sublist_length _ _ Hsub') as Hle.
    split; [|done]. unfold counts_shrink, current. rewrite Hvw.
    split; [by etrans|]. split; [done|].
    intros x Hx%Hbound. lia.
  - intros _ st e st' [(Hsub & Hdec & Hbound) Hlt] Hround.
    inversion Hround as [m st'' Hm Hnone Hresp
                        |m guess remaining st'' Hg Hfb|]; subst.
    + by rewrite Hresp.
    + by destruct (guessed_shrink _ _ _ _ _ _ _ _ _
                     (conj Hsub (conj Hdec Hbound)) Hlt Hg) as (_ & ? & _ & ?).
  - by intros st [(_ & Hdec & _) Hlt].
Qed.

(** ** What happens to the caller's list *)

Definition caller_state (words : list word) (st : loop_state) : Prop :=
  match valid_words st with
  | CallerList => caller_list st = words /\ guesses (response st) = []
  | OwnList _ =>
      exists g rest,
        guesses (response st) = string_of_word g :: rest
        /\ list_remove g words = Ok (caller_list st)
  end.

Lemma attempts_caller_list (Solve : CpModel -> option word)
  (fm : FrequencyModel) (words : list word) (target : word) (n : nat)
  (st st' : loop_state) (e : exit) :
  caller_state words st ->
  attempts Solve fm target n st = Ok (e, st') ->
  (guesses (response st') = [] /\ caller_list st' = words)
  \/ exists g rest,
       guesses (response st') = string_of_word g :: rest
       /\ list_remove g words = Ok (caller_list st').
Proof.
  intros Hinit Hrun.
  assert (Hguessed : forall s s' m guess remaining,
             caller_state words s ->
             guessed Solve fm target s s' m guess remaining ->
             exists g rest,
               guesses (response s') = string_of_word g :: rest
               /\ list_remove g words = Ok (caller_list s')).
  { intros s s' m guess remaining Hs [_ _ Hrem Hresp _ Hcaller].
    unfold caller_state, current in *. rewrite Hresp, Hcaller. simpl.
    destruct (valid_words s) as [|own].
    - destruct Hs as [Hw ->]. exists guess, []. split; [done|congruence].
    - destruct Hs as (g & rest & -> & Hg).
      exists g, (rest ++ [string_of_word guess]). by split. }
  eapply (attempts_invariant Solve fm target
            (fun _ s => caller_state words s)
            (fun _ s =>
               (guesses (response s) = [] /\ caller_list s = words)
               \/ exists g rest,
                    guesses (response s) = string_of_word g :: rest
                    /\ list_remove g words = Ok (caller_list s)));
    [| | |exact Hinit|exact Hrun]; clear dependent st; clear st' e n.
  - intros _ st st' Hinv Hround.
    inversion Hround as [| |m guess remaining filtered m' st'' Hg Hfb Hfilter
      Hupd Hmodel Hvw]; subst.
    unfold caller_state. rewrite Hvw. by eapply Hguessed.
  - intros _ st e st' Hinv Hround.
    inversion Hround as [m st'' Hm Hnone Hresp Hcaller Hvw
                        |m guess remaining st'' Hg Hfb|]; subst.
    + unfold caller_state in Hinv. rewrite Hresp, Hcaller.
      destruct (valid_words st); [left; tauto|by right].
    + right. by eapply Hguessed.
  - intros st Hinv. unfold caller_state in Hinv.
    destruct (valid_words st); [left; tauto|by right].
Qed.

(** ** The target stays in play *)

(** The target is still a candidate and the model still accepts it. *)
Definition target_alive (target : word) (st : loop_state) : Prop :=
  target ∈ current st
  /\ Forall (fun tbl => target ∈ tbl) (tables (model st))
  /\ Forall (fun c => sat target c = true) (constraints (model st)).


Definition in_play (words : list word) (target : word) (st : loop_state)
  : Prop :=
  target_alive target st
  /\ exists gs, excluded_guesses st gs /\ Forall (fun g => g ∈ words) gs
                /\ target ∉ gs.

Lemma submitted_feasible (fm : FrequencyModel) (target : word)
  (st : loop_state) (m : CpModel) :
  in_domain target -> target_alive target st ->
  submitted_model fm st = Ok m -> feasible m target /\ tables m <> [].
Proof.
  intros Hdom (Hin & Htab & Hsat) (Ht & Hc & _)%submitted_model_inv.
  split; [|rewrite Ht; by destruct (tables (model st))].
  split; [done|]. rewrite Ht, Hc. split; [|done].
  apply Forall_app. split; [done|by apply Forall_singleton].
Qed.

Lemma continue_in_play (Solve : CpModel -> option word) (fm : FrequencyModel)
  (words : list word) (target : word) (st st' : loop_state) :
  sound Solve -> in_domain target ->
  current st `sublist_of` words ->
  in_play words target st ->
  round Solve fm target st (Continue st') ->
  in_play words target st'.
Proof.
  intros Hsound Hdom Hsub [(Hin & Htab & Hsat) (gs & Hexcl & Hwords & Hnot)]
    Hround.
  inversion Hround as [| |m guess remaining filtered m' st'' Hg Hfb Hfilter
    Hupd Hmodel Hvw]; subst.
  destruct (guessed_fresh _ _ _ _ _ _ _ _ _ Hsound Hexcl Hg)
    as (Hgs & Hnd & Hdoms & Hcs).
  destruct Hg as [Hm Hsolve Hrem _ _ _].
  destruct (guess_feasible Solve Hsound fm st m guess Hm Hsolve)
    as (Hguess & Hgin & _).
  pose proof (continue_feedback_length _ _ _ _ Hguess Hupd) as Hfb5.
  assert (Hne : target <> guess).
  { intros <-. apply Hfb.
    pose proof (get_feedback_all_green target target eq_refl) as [_ Hall].
    rewrite (proj1 Hdom) in Hall. by apply Hall. }
  apply submitted_model_inv in Hm as (Ht & Hc & _).
  destruct (update_model_spec m guess (get_feedback guess target)
              (proj1 Hguess) Hfb5) as (m'' & Heq & (Ht' & _ & extra & Hext) & _).
  split.
  - split; [|split].
    + unfold current. rewrite Hvw.
      eapply filter_valid_words_keeps; [exact Hfilter| |].
      * by eapply list_remove_other.
      * apply word_is_valid_target; [exact (proj1 Hguess)|exact (proj1 Hdom)].
    + rewrite Heq in Hupd. injection Hupd as <-. rewrite Ht', Ht.
      apply Forall_app. split; [done|by apply Forall_singleton].
    + apply Forall_forall. intros c Hc'.
      destruct (update_model_target m (model st') guess target
                  (proj1 Hguess) (proj1 Hdom) Hupd c Hc') as [Hold|Hnew];
        [|done].
      rewrite Hc in Hold. rewrite Forall_forall in Hsat. by apply Hsat.
  - exists (gs ++ [guess]). split; [|split].
    + split; [done|]. split; [done|]. split; [done|].
      rewrite Heq in Hupd. injection Hupd as <-.
      intros g [Hg'|Hg']%elem_of_app;
        [|apply list_elem_of_singleton in Hg' as ->].
      * destruct Hexcl as (_ & _ & _ & Hexcl).
        destruct (Hexcl g Hg') as (c & Hc' & Hfalse).
        exists c. split; [|done]. rewrite Hext, Hc.
        apply elem_of_app. by left.
      * by eapply update_model_excludes;
          [exact (proj1 Hguess)|exact Hfb5|..].
    + apply Forall_app. split; [done|]. apply Forall_singleton.
      by eapply sublist_subseteq.
    + intros [?|Heq'%list_elem_of_singleton]%elem_of_app; [done|].
      by apply Hne.
Qed.

Lemma attempts_solved_last (Solve : CpModel -> option word)
  (fm : FrequencyModel) (target : word) (n : nat) (st st' : loop_state) :
  sound Solve -> length target = 5%nat ->
  attempts Solve fm target n st = Ok (Solved, st') ->
  last (guesses (response st')) = Some (string_of_word target)
  /\ last (feedback (response st')) = Some (replicate 5 G).
Proof.
  intros Hsound Htarget Hrun.
  eapply (attempts_invariant Solve fm target (fun _ _ => True)
            (fun e s =>
               e = Solved ->
               last (guesses (response s)) = Some (string_of_word target)
               /\ last (feedback (response s)) = Some (replicate 5 G)));
    [| | |exact I|exact Hrun|done]; clear dependent st; clear st' n.
  - done.
  - intros _ st e st' _ Hround ->.
    inversion Hround as [|m guess remaining st'' Hg Hfb|]; subst.
    destruct Hg as [Hm Hsolve _ Hresp _ _].
    destruct (guess_feasible Solve Hsound fm st _ guess Hm Hsolve)
      as ([Hlen _] & _ & _).
    assert (guess = target) as ->.
    { apply get_feedback_all_green; [lia|]. by rewrite Hlen. }
    rewrite Hresp. simpl. by rewrite !last_snoc, Hfb.
  - done.
Qed.

Lemma attempts_in_play (Solve : CpModel -> option word) (fm : FrequencyModel)
  (words : list word) (target : word) (n : nat) (st st' : loop_state)
  (e : exit) :
  sound Solve -> in_domain target ->
  current st `sublist_of` words -> in_play words target st ->
  attempts Solve fm target n st = Ok (e, st') ->
  match e with
  | Solved => True
  | Infeasible => Solve (model st') = None /\ tables (model st') <> []
  | Exhausted =>
      exists gs, guesses (response st') = string_of_word <$> gs
                 /\ NoDup (target :: gs) /\ Forall (fun g => g ∈ words) gs
  end
  /\ (e <> Solved -> target ∈ current st' /\ feasible (model st') target).
Proof.
  intros Hsound Hdom Hsub Hplay Hrun.
  eapply (attempts_invariant Solve fm target
            (fun _ s => current s `sublist_of` words /\ in_play words target s)
            (fun e s =>
               match e with
               | Solved => True
               | Infeasible => Solve (model s) = None /\ tables (model s) <> []
               | Exhausted =>
                   exists gs, guesses (response s) = string_of_word <$> gs
                              /\ NoDup (target :: gs)
                              /\ Forall (fun g => g ∈ words) gs
               end
               /\ (e <> Solved ->
                   target ∈ current s /\ feasible (model s) target)));
    [| | |by split|exact Hrun]; clear dependent st; clear st' e n.
  - intros _ st st' [Hsub Hplay] Hround.
    split; [|by eapply continue_in_play].
    inversion Hround as [| |m guess remaining filtered m' st'' Hg Hfb Hfilter
      Hupd Hmodel Hvw]; subst.
    destruct Hg as [_ _ Hrem _ _ _].
    apply list_remove_sublist in Hrem.
    apply filter_valid_words_sublist in Hfilter as [Hsub' _].
    unfold current at 1. rewrite Hvw. by do 2 (etrans; [done|]).
  - intros _ st e st' [Hsub [Halive _]] Hround.
    inversion Hround as [m st'' Hm Hnone Hresp Hcaller Hvw Hmodel
                        |m guess remaining st'' Hg Hfb|];
      [|subst; split; [done|by intros []]].
    subst e st''.
    destruct (submitted_feasible fm target st m Hdom Halive Hm)
      as [Hfeas Htab].
    rewrite Hmodel. split; [done|]. intros _. split; [|done].
    unfold current. rewrite Hvw, Hcaller. apply Halive.
  - intros st [Hsub [(Hin & Htab & Hsat) (gs & Hexcl & Hwords & Hnot)]].
    destruct Hexcl as (Hgs & Hnd & _). split.
    + exists gs. split; [done|]. split; [by constructor|done].
    + intros _. split; [done|]. by split.
Qed.

(** ** The reference solver answers whenever it can *)




Lemma initial_in_play (words : list word) (target : word) :
  target ∈ words -> in_play words target (initial_state words).
Proof.
  intros Hin. split; [by split|]. exists []. split; [|split].
  - split; [done|]. split; [constructor|]. split; [constructor|].
    by intros g ?%elem_of_nil.
  - constructor.
  - by intros ?%elem_of_nil.
Qed.

(** ** The frequency statistics *)

Lemma Counter_snoc (xs : list Z) (x : Z) :
  Counter (xs ++ [x]) = counter_add (Counter xs) x 1.
Proof. unfold Counter. by rewrite fold_left_app. Qed.

(** The keys of [Counter(xs)] are the elements of [xs], each with its
    number of occurrences. *)
Lemma Counter_lookup (xs : list Z) (c : Z) :
  Counter xs !! c
  = if decide (count_occ Z.eq_dec xs c = 0%nat) then None
    else Some (Z.of_nat (count_occ Z.eq_dec xs c)).
Proof.
  induction xs as [|x xs IH] using rev_ind; [done|].
  rewrite Counter_snoc, count_occ_app. unfold counter_add. simpl.
  destruct (Z.eq_dec x c) as [->|Hne].
  - rewrite lookup_insert_eq, counter_get_Counter. unfold multiset_of.
    rewrite decide_False by lia. f_equal. lia.
  - rewrite lookup_insert_ne by done. rewrite IH, Nat.add_0_r. done.
Qed.

Definition total (d : gmap Z Z) : Z := map_fold (fun _ v acc => v + acc) 0 d.

Lemma total_insert_fresh (d : gmap Z Z) (k v : Z) :
  d !! k = None -> total (<[k := v]> d) = v + total d.
Proof.
  intros Hk. unfold total. rewrite map_fold_insert_L; [done| |done].
  intros. lia.
Qed.

Lemma total_counter_add (d : gmap Z Z) (k : Z) :
  total (counter_add d k 1) = total d + 1.
Proof.
  unfold counter_add, counter_get. destruct (d !! k) as [v|] eqn:Hk; simpl.
  - rewrite <- (insert_delete_eq d).
    rewrite total_insert_fresh by apply lookup_delete_eq.
    rewrite <- (insert_delete_id d k v Hk) at 2.
    rewrite total_insert_fresh by apply lookup_delete_eq. lia.
  - rewrite total_insert_fresh by done. lia.
Qed.

Lemma total_Counter (xs : list Z) : total (Counter xs) = Z.of_nat (length xs).
Proof.
  induction xs as [|x xs IH] using rev_ind; [done|].
  rewrite Counter_snoc, total_counter_add, IH, length_app. simpl. lia.
Qed.

Lemma letter_frequencies_lookup (words : list word) (c : Z) :
  letter_frequencies words !! c
  = if decide (count_occ Z.eq_dec (concat words) c = 0%nat) then None
    else Some (truediv (Z.of_nat (count_occ Z.eq_dec (concat words) c))
                 (Z.of_nat (length words))).
Proof.
  unfold letter_frequencies. rewrite lookup_fmap, Counter_lookup.
  by case_decide.
Qed.

(** The letters the words hold at position [pos]. *)
Definition column (pos : nat) (words : list word) : list Z :=
  omap (fun w : word => w !! pos) words.

Lemma count_word_positions (w : word) (pf : list (gmap Z Z)) :
  length pf = 5%nat -> (5 <= length w)%nat ->
  for_fold (count_position w) range5 pf
  = Ok (zip_with (fun d ch => counter_add d ch 1) pf (take 5 w)).
Proof.
  intros Hpf Hw.
  destruct pf as [|d0 [|d1 [|d2 [|d3 [|d4 [|]]]]]]; try discriminate.
  destruct w as [|w0 [|w1 [|w2 [|w3 [|w4 rest]]]]]; simpl in Hw; try lia.
  reflexivity.
Qed.

Lemma positional_counts_columns (words : list word) :
  Forall (fun w => (5 <= length w)%nat) words ->
  forall d0 d1 d2 d3 d4,
    for_fold (fun pf w => for_fold (count_position w) range5 pf) words
      [d0; d1; d2; d3; d4]
    = Ok ((fun '(pos, d) =>
             fold_left (fun c x => counter_add c x 1) (column pos words) d)
            <$> [(0%nat, d0); (1%nat, d1); (2%nat, d2); (3%nat, d3);
                 (4%nat, d4)]).
Proof.
  induction 1 as [|w ws Hw _ IH]; intros d0 d1 d2 d3 d4; [done|].
  cbn [for_fold]. rewrite count_word_positions by done. rsimpl.
  destruct w as [|w0 [|w1 [|w2 [|w3 [|w4 rest]]]]]; simpl in Hw; try lia.
  cbn [take zip_with]. rewrite IH. reflexivity.
Qed.

Lemma column_length (pos : nat) (words : list word) :
  Forall (fun w => (5 <= length w)%nat) words -> (pos < 5)%nat ->
  length (column pos words) = length words.
Proof.
  intros Hall Hpos. induction Hall as [|w ws Hw _ IH]; [done|].
  unfold column in *. cbn [omap list_omap].
  destruct (lookup_lt_is_Some_2 w pos) as [c ->]; [lia|]. simpl. by rewrite IH.
Qed.

Lemma normalise_Counter (pos : nat) (words : list word) :
  Forall (fun w => (5 <= length w)%nat) words -> (pos < 5)%nat ->
  normalise_position (Counter (column pos words))
  = (fun freq => truediv freq (Z.of_nat (length words)))
      <$> Counter (column pos words).
Proof.
  intros Hall Hpos. unfold normalise_position.
  change (map_fold _ 0 (Counter (column pos words)))
    with (total (Counter (column pos words))).
  by rewrite total_Counter, column_length.
Qed.

Lemma frequency_model_columns (words : list word) :
  Forall (fun w => (5 <= length w)%nat) words ->
  frequency_model words
  = Ok {| positional_freq :=
            (fun pos => (fun freq => truediv freq (Z.of_nat (length words)))
                          <$> Counter (column pos words)) <$> range5;
          letter_frequency := letter_frequencies words |}.
Proof.
  intros Hall. unfold frequency_model, positional_counts.
  change (replicate 5 ∅) with [(∅ : gmap Z Z); ∅; ∅; ∅; ∅].
  rewrite positional_counts_columns by done. rsimpl.
  unfold range5. cbn [fmap list_fmap].
  change (fold_left (fun c x => counter_add c x 1) (column ?p words) ∅)
    with (Counter (column p words)).
  rewrite !normalise_Counter by (done || lia). done.
Qed.

(** ** Ill-formed dictionaries *)

Lemma count_position_raises (w : word) (positions : list nat)
  (pf : list (gmap Z Z)) (e : exn) :
  for_fold (count_position w) positions pf = Raise e -> e = IndexError.
Proof.
  revert pf. induction positions as [|pos ps IH]; intros pf; cbn [for_fold];
    [done|].
  destruct (count_position w pf pos) as [pf'|e'] eqn:Hstep; rsimpl;
    [apply IH|].
  intros [= <-]. unfold count_position, getitem in Hstep.
  destruct (w !! pos); cbn [mbind result_bind] in Hstep; congruence.
Qed.

Lemma count_short_word (w : word) (pf : list (gmap Z Z)) :
  (length w < 5)%nat ->
  for_fold (count_position w) range5 pf = Raise IndexError.
Proof.
  intros Hw.
  destruct w as [|w0 [|w1 [|w2 [|w3 [|w4 rest]]]]]; simpl in Hw; try lia;
    reflexivity.
Qed.

Lemma positional_counts_short (words : list word) :
  Exists (fun w => (length w < 5)%nat) words ->
  forall pf,
    for_fold (fun pf w => for_fold (count_position w) range5 pf) words pf
    = Raise IndexError.
Proof.
  induction 1 as [w ws Hw|w ws _ IH]; intros pf; cbn [for_fold].
  - by rewrite count_short_word.
  - destruct (for_fold (count_position w) range5 pf) as [pf'|e] eqn:Hinner;
      rsimpl; [apply IH|].
    by apply count_position_raises in Hinner as ->.
Qed.

(** ** The only exception of the filter and of [update_model] *)

Lemma getitem_raises {A : Type} (l : list A) (i : nat) (e : exn) :
  getitem l i = Raise e -> e = IndexError.
Proof. unfold getitem. destruct (l !! i); congruence. Qed.

Lemma for_valid_raises {A : Type} (body : A -> result bool) (l : list A)
  (e : exn) :
  (forall x, body x = Raise e -> e = IndexError) ->
  for_valid body l = Raise e -> e = IndexError.
Proof.
  intros Hbody. induction l as [|x l IH]; cbn [for_valid]; [done|].
  destruct (body x) as [[|]|e'] eqn:Hx; rsimpl; [done|done|].
  intros [= <-]. by apply (Hbody x).
Qed.

Lemma letters_where_raises (keep : mark -> bool) (guess : word)
  (fb : list mark) (positions : list nat) (e : exn) :
  letters_where keep guess fb positions = Raise e -> e = IndexError.
Proof.
  induction positions as [|pos ps IH]; cbn [letters_where]; [done|].
  destruct (getitem fb pos) as [f|e'] eqn:Hf; rsimpl;
    [|intros [= <-]; by eapply getitem_raises].
  destruct (keep f); [|done].
  destruct (getitem guess pos) as [c|e'] eqn:Hg; rsimpl;
    [|intros [= <-]; by eapply getitem_raises].
  destruct (letters_where keep guess fb ps) as [r|e'']; rsimpl; [done|].
  intros [= <-]. by apply IH.
Qed.

Lemma word_is_valid_raises (w guess : word) (fb : list mark) (e : exn) :
  word_is_valid w guess fb = Raise e -> e = IndexError.
Proof.
  unfold word_is_valid.
  destruct (for_valid (green_body w guess fb) range5) as [green|e1] eqn:Hgreen;
    rsimpl.
  2:{ intros [= <-]. revert Hgreen. apply for_valid_raises.
      intros pos. unfold green_body.
      destruct (getitem fb pos) as [f|e'] eqn:Hf; rsimpl;
        [|intros [= <-]; by eapply getitem_raises].
      destruct (decide (f = G)); [|done].
      destruct (getitem w pos) as [wc|e'] eqn:Hw; rsimpl;
        [|intros [= <-]; by eapply getitem_raises].
      destruct (getitem guess pos) as [gc|e'] eqn:Hg; rsimpl;
        [done|intros [= <-]; by eapply getitem_raises]. }
  destruct green; rsimpl; [|done].
  destruct (for_valid (yellow_body w guess fb) range5)
    as [yellow|e1] eqn:Hyellow; rsimpl.
  2:{ intros [= <-]. revert Hyellow. apply for_valid_raises.
      intros pos. unfold yellow_body.
      destruct (getitem fb pos) as [f|e'] eqn:Hf; rsimpl;
        [|intros [= <-]; by eapply getitem_raises].
      destruct (decide (f = Y)); [|done].
      destruct (getitem w pos) as [wc|e'] eqn:Hw; rsimpl;
        [|intros [= <-]; by eapply getitem_raises].
      destruct (getitem guess pos) as [gc|e'] eqn:Hg; rsimpl;
        [|intros [= <-]; by eapply getitem_raises].
      by destruct (bool_decide (wc = gc)). }
  destruct yellow; rsimpl; [|done].
  destruct (letters_where is_gray guess fb range5) as [gray|e1] eqn:Hgray;
    rsimpl; [|intros [= <-]; by eapply letters_where_raises].
  apply for_valid_raises. intros char. unfold gray_body.
  destruct (bool_decide (char ∈ w)); [|done].
  destruct (letters_where is_green_or_yellow guess fb range5)
    as [marked|e1] eqn:Hmarked; rsimpl; [done|].
  intros [= <-]. by eapply letters_where_raises.
Qed.

Lemma filter_valid_words_raises (words_data : list word) (guess : word)
  (fb : list mark) (e : exn) :
  filter_valid_words words_data guess fb = Raise e -> e = IndexError.
Proof.
  induction words_data as [|w ws IH]; cbn [filter_valid_words]; [done|].
  destruct (word_is_valid w guess fb) as [keep|e'] eqn:Hw; rsimpl;
    [|intros [= <-]; by eapply word_is_valid_raises].
  destruct (filter_valid_words ws guess fb) as [rest|e']; rsimpl; [done|].
  intros [= <-]. by apply IH.
Qed.

Lemma update_model_raises (m : CpModel) (guess : word) (fb : list mark)
  (e : exn) :
  update_model m guess fb = Raise e -> e = IndexError.
Proof.
  unfold update_model.
  destruct (for_fold (marks_body guess fb) range5 (m, [], []))
    as [[[m1 lc] gp]|e'] eqn:Hfold; rsimpl; [done|].
  intros [= <-]. revert Hfold. generalize (m, @nil (Z * Z), @nil (Z * list nat)).
  induction range5 as [|pos ps IH]; intros acc; cbn [for_fold]; [done|].
  destruct (marks_body guess fb acc pos) as [acc'|e''] eqn:Hbody; rsimpl;
    [apply IH|].
  intros [= <-]. destruct acc as [[m0 lc0] gp0]. unfold marks_body in Hbody.
  destruct (getitem guess pos) as [c|e1] eqn:Hg;
    cbn [mbind result_bind] in Hbody;
    [|injection Hbody as <-; by eapply getitem_raises].
  destruct (getitem fb pos) as [f|e1] eqn:Hf;
    cbn [mbind result_bind] in Hbody;
    [|injection Hbody as <-; by eapply getitem_raises].
  by destruct f.
Qed.

(** * The claims *)

(** C1 (soundness of filtering).  Let the guess and the target be
    five-letter words and the target be among the candidates.  Whenever
    [filter_valid_words], given the guess and the feedback [get_feedback]
    computes for it against the target, returns a list, the target is in
    it, whatever letters the guess repeats; and on five-letter candidates it
    does return. *)
Theorem filter_keeps_target (C : list word) (g t : word) :
  length g = 5%nat -> length t = 5%nat -> t ∈ C ->
  (forall kept,
      filter_valid_words C g (get_feedback g t) = Ok kept -> t ∈ kept)
  /\ (five_letters C ->
      exists kept,
        filter_valid_words C g (get_feedback g t) = Ok kept /\ t ∈ kept).
Proof.
  intros Hg Ht Hin.
  assert (Hkeeps : forall kept,
             filter_valid_words C g (get_feedback g t) = Ok kept -> t ∈ kept).
  { intros kept Hkept.
    eapply filter_valid_words_keeps; [exact Hkept|done|].
    by apply word_is_valid_target. }
  split; [exact Hkeeps|]. intros HC.
  assert (Hfb : length (get_feedback g t) = 5%nat).
  { rewrite get_feedback_length. lia. }
  destruct (filter_valid_words_total g (get_feedback g t) Hg Hfb C HC)
    as (kept & Hkept & _).
  exists kept. split; [done|by apply Hkeeps].
Qed.

Lemma filter_keeps_target_witness :
  length crane = 5%nat /\ length trace = 5%nat /\ trace ∈ scenario
  /\ five_letters scenario
  /\ exists kept,
       filter_valid_words scenario crane (get_feedback crane trace) = Ok kept
       /\ trace ∈ kept.
Proof.
  assert (Hin : trace ∈ scenario) by (unfold scenario; set_solver).
  assert (H5 : five_letters scenario) by (repeat constructor).
  split; [reflexivity|]. split; [reflexivity|]. split; [exact Hin|].
  split; [exact H5|].
  exact (proj2 (filter_keeps_target scenario crane trace eq_refl eq_refl Hin)
           H5).
Defined.

(** C5 (two-pass feedback).  The loops of [get_feedback] compute, on all
    inputs, the two-pass algorithm of the specification: Correct exactly at
    the matching positions, with the letter's remaining count decremented,
    then Present while the letter has a positive remaining count
    (decrementing it) and Absent otherwise; and the docstring example
    evaluates to Present, Absent, Correct, Absent, Correct. *)
Theorem get_feedback_is_two_pass :
  (forall guess target : word,
      get_feedback guess target = two_pass_feedback guess target)
  /\ get_feedback [11; 4; 0; 21; 4] [15; 11; 0; 2; 4] = [Y; B; G; B; G].
Proof.
  split; [exact get_feedback_two_pass|]. vm_compute. reflexivity.
Qed.

(** C6 (no letter over-counted).  For every letter [L], the positions of the
    guess that hold [L] and are marked Present or Correct are at most as
    many as the occurrences of [L] in the target.  This holds for words of
    any length, five-letter words among them. *)
Theorem marks_within_target_count (L : Z) (guess target : word) :
  (marked_count L guess (get_feedback guess target)
   <= count_occ Z.eq_dec target L)%nat.
Proof. apply get_feedback_marked_le. Qed.

(** C10 (all Correct iff equal).  For five-letter words the feedback is
    ['G'] * 5, the value [solve_wordle] compares it with, exactly when the
    guess is the target. *)
Theorem all_green_iff_equal (g t : word) :
  length g = 5%nat -> length t = 5%nat ->
  get_feedback g t = [G; G; G; G; G] <-> g = t.
Proof.
  intros Hg Ht.
  pose proof (get_feedback_all_green g t) as Hiff.
  rewrite Hg in Hiff. apply Hiff. lia.
Qed.

Lemma all_green_iff_equal_witness :
  length crane = 5%nat /\ length crane = 5%nat
  /\ (get_feedback crane crane = [G; G; G; G; G] <-> crane = crane).
Proof.
  split; [reflexivity|]. split; [reflexivity|].
  exact (all_green_iff_equal crane crane eq_refl eq_refl).
Defined.

(** C7 (no word guessed twice).  With a solver that only answers
    assignments its model accepts, the guesses of every response
    [solve_wordle] returns are pairwise distinct; and on a five-letter
    dictionary and target it does return a response. *)
Theorem no_word_guessed_twice (Solve : CpModel -> option word)
  (words : list word) (target_word : string) (max_attempts : Z) :
  sound Solve ->
  (forall resp,
      solve_wordle Solve words target_word max_attempts = Ok resp ->
      NoDup (guesses resp))
  /\ (five_letters words -> String.length target_word = 5%nat ->
      exists resp,
        solve_wordle Solve words target_word max_attempts = Ok resp).
Proof.
  intros Hsound. split.
  - intros resp (e & st & Hrun & ->)%solve_wordle_Ok.
    apply solve_wordle_run_Ok in Hrun as (fm & _ & Hrun).
    eapply (attempts_NoDup Solve fm _ _ (initial_state words) st e []);
      [done| |exact Hrun].
    split; [done|]. split; [constructor|]. split; [constructor|].
    by intros g ?%elem_of_nil.
  - intros Hwords Htarget.
    destruct (solve_wordle_run_total Solve words target_word max_attempts
                Hsound Hwords Htarget) as (fm & e & st & _ & _ & _ & Hresp).
    eauto.
Qed.

Lemma no_word_guessed_twice_witness :
  sound enum_solver /\ five_letters scenario
  /\ String.length "crane" = 5%nat
  /\ exists resp,
       solve_wordle enum_solver scenario "crane" 6 = Ok resp
       /\ NoDup (guesses resp).
Proof.
  assert (H5 : five_letters scenario) by (repeat constructor).
  split; [exact enum_solver_sound|]. split; [exact H5|].
  split; [reflexivity|].
  destruct (no_word_guessed_twice enum_solver scenario "crane" 6
              enum_solver_sound) as [Hall Hex].
  destruct (Hex H5 eq_refl) as [resp Hresp].
  exists resp. split; [exact Hresp|exact (Hall resp Hresp)].
Defined.

(** C9, as stated, fails.  With the dictionary crane, slate, irate, trace,
    target "crane" and two attempts, the second guess gets all 'G': the run
    stops on the solved branch with exactly two guesses, not fewer than
    [max_attempts].  With [max_attempts = -1] no round is played, and the
    response holds 0 guesses, which is more than [max_attempts]. *)
Lemma solved_on_the_last_attempt :
  (exists st,
      solve_wordle_run enum_solver scenario "crane" 2 = Ok (Solved, st)
      /\ solve_wordle enum_solver scenario "crane" 2 = Ok (response st)
      /\ guesses (response st) = ["trace"; "crane"]
      /\ ~ Z.of_nat (length (guesses (response st))) < 2)
  /\ (exists resp,
        solve_wordle enum_solver scenario "crane" (-1) = Ok resp
        /\ guesses resp = []
        /\ ~ Z.of_nat (length (guesses resp)) <= -1).
Proof.
  split.
  - eexists. split; [vm_compute; reflexivity|].
    split; [vm_compute; reflexivity|]. split; [vm_compute; reflexivity|].
    vm_compute. intros [=].
  - eexists. split; [vm_compute; reflexivity|]. split; [reflexivity|].
    simpl. lia.
Qed.

(** C9, amended.  [solve_wordle] is a total function: the loop is a
    recursion on [range(max_attempts)], which is empty for a negative
    [max_attempts].  For every input, whenever the call returns, the
    response holds at most [max(0, max_attempts)] guesses: strictly fewer
    than [max_attempts] when it leaves through the infeasible branch,
    exactly [max(0, max_attempts)] when the loop runs out, and between 1
    and [max_attempts] when it stops on feedback that is all 'G'.  On a
    five-letter dictionary and target, with a solver that honours its
    contract, it does return. *)
Theorem solve_wordle_bounded (Solve : CpModel -> option word)
  (words : list word) (target_word : string) (max_attempts : Z) :
  (forall e st,
      solve_wordle_run Solve words target_word max_attempts = Ok (e, st) ->
      Z.of_nat (length (guesses (response st))) <= Z.max 0 max_attempts
      /\ (e = Infeasible ->
          Z.of_nat (length (guesses (response st))) < max_attempts)
      /\ (e = Exhausted ->
          Z.of_nat (length (guesses (response st))) = Z.max 0 max_attempts)
      /\ (e = Solved ->
          1 <= Z.of_nat (length (guesses (response st))) <= max_attempts))
  /\ (forall resp,
        solve_wordle Solve words target_word max_attempts = Ok resp ->
        Z.of_nat (length (guesses resp)) <= Z.max 0 max_attempts)
  /\ (sound Solve -> five_letters words ->
      String.length target_word = 5%nat ->
      exists e st,
        solve_wordle_run Solve words target_word max_attempts = Ok (e, st)
        /\ solve_wordle Solve words target_word max_attempts
           = Ok (response st)).
Proof.
  assert (Hall : forall e st,
             solve_wordle_run Solve words target_word max_attempts
             = Ok (e, st) ->
             Z.of_nat (length (guesses (response st))) <= Z.max 0 max_attempts
             /\ (e = Infeasible ->
                 Z.of_nat (length (guesses (response st))) < max_attempts)
             /\ (e = Exhausted ->
                 Z.of_nat (length (guesses (response st)))
                 = Z.max 0 max_attempts)
             /\ (e = Solved ->
                 1 <= Z.of_nat (length (guesses (response st)))
                 <= max_attempts)).
  { intros e st (fm & _ & Hrun)%solve_wordle_run_Ok.
    pose proof (attempts_bound _ _ _ _ _ _ _ Hrun) as Hbound.
    destruct (attempts_history Solve fm words _ _ _ _ e []
                (initial_history words _) Hrun)
      as (gs & Hgs & _ & _ & _ & Hexit).
    simpl in Hbound. destruct e.
    - destruct Hexit as (init & g & -> & _).
      rewrite Hgs, length_fmap, length_app in Hbound |- *. simpl in *.
      repeat split; intros; try discriminate; lia.
    - repeat split; intros; try discriminate; lia.
    - repeat split; intros; try discriminate; lia. }
  split; [exact Hall|]. split.
  - intros resp (e & st & Hrun & ->)%solve_wordle_Ok.
    by destruct (Hall e st Hrun).
  - intros Hsound Hwords Htarget.
    destruct (solve_wordle_run_total Solve words target_word max_attempts
                Hsound Hwords Htarget) as (fm & e & st & _ & _ & Hrun & Hresp).
    by exists e, st.
Qed.

(** From any loop state with five-letter candidates and at least one
    attempt left: when the candidate list is empty, or no assignment
    satisfies the model that is submitted, the solver gives no answer and
    the loop returns through the infeasible branch with the response of
    that state. *)
Lemma attempts_infeasible (Solve : CpModel -> option word)
  (fm : FrequencyModel) (target : word) (n : nat) (st : loop_state) :
  sound Solve ->
  five_letters (current st) ->
  (current st = []
   \/ forall m w, submitted_model fm st = Ok m -> ~ feasible m w) ->
  exists st',
    attempts Solve fm target (S n) st = Ok (Infeasible, st')
    /\ response st' = response st.
Proof.
  intros Hsound Hwords Hnone.
  destruct (submitted_model_total fm st Hwords) as [m Hm].
  assert (Hsolve : Solve m = None).
  { destruct (Solve m) as [w|] eqn:Hw; [|done]. exfalso.
    destruct Hnone as [Hempty|Hnone].
    - destruct (guess_feasible Solve Hsound fm st m w Hm Hw) as (_ & Hin & _).
      rewrite Hempty in Hin. by apply elem_of_nil in Hin.
    - apply (Hnone m w Hm). by apply Hsound. }
  cbn [attempts]. unfold attempt. rewrite Hm. rsimpl. rewrite Hsolve. rsimpl.
  eexists. split; [reflexivity|reflexivity].
Qed.

(** A round never leaves through the exit of the exhausted loop. *)
Lemma attempt_not_exhausted (Solve : CpModel -> option word)
  (fm : FrequencyModel) (target : word) (st st' : loop_state) :
  attempt Solve fm target st <> Ok (Return Exhausted st').
Proof. intros Hround%attempt_round. inversion Hround. Qed.

(** A loop that ran out after [n] rounds goes on from the state it reached
    when it is given more rounds. *)
Lemma attempts_resume (Solve : CpModel -> option word) (fm : FrequencyModel)
  (target : word) (n k : nat) (st0 st : loop_state) :
  attempts Solve fm target n st0 = Ok (Exhausted, st) ->
  attempts Solve fm target (n + k)%nat st0 = attempts Solve fm target k st.
Proof.
  revert st0. induction n as [|n IH]; intros st0; cbn [attempts Nat.add].
  - by intros [= ->].
  - destruct (attempt Solve fm target st0) as [[st1|e st1]|err] eqn:Hround;
      rsimpl; [apply IH| |done].
    intros [= -> ->]. by apply attempt_not_exhausted in Hround.
Qed.

(** The candidates of every state of the loop are words of the list the
    loop started from, in their order. *)
Lemma attempts_candidates (Solve : CpModel -> option word)
  (fm : FrequencyModel) (words : list word) (target : word) (n : nat)
  (st st' : loop_state) (e : exit) :
  current st `sublist_of` words ->
  attempts Solve fm target n st = Ok (e, st') ->
  current st' `sublist_of` words.
Proof.
  apply (attempts_invariant Solve fm target
           (fun _ st => current st `sublist_of` words)
           (fun _ st => current st `sublist_of` words)).
  - intros _ st1 st2 Hsub Hround.
    inversion Hround as [| |m guess remaining filtered m' st3
                           [_ _ Hremove _ _ _] _ Hfilter _ _ Hown].
    unfold current at 1. rewrite Hown.
    apply filter_valid_words_sublist in Hfilter as [Hkept _].
    etrans; [exact Hkept|]. etrans; [|exact Hsub].
    by eapply list_remove_sublist.
  - intros _ st1 e1 st2 Hsub Hround.
    inversion Hround as [m st3 _ _ _ Hcaller Hvalid _ _
                        |m guess remaining st3 [_ _ Hremove _ _ _] _ _
                           Hcurrent|].
    + unfold current. by rewrite Hvalid, Hcaller.
    + rewrite Hcurrent. etrans; [|exact Hsub].
      by eapply list_remove_sublist.
  - done.
Qed.

(** C8 (infeasibility is a return, not an exception).  Let [played] rounds
    have been played without solving the puzzle, [st] being the state they
    lead to, which is the state the call reaches with
    [max_attempts = played].  When the candidate list is then empty, or no
    assignment satisfies the model that is submitted next, every call with
    more attempts returns, through the infeasible branch and without an
    exception, the response of those rounds: [played] guesses, [played]
    feedback lists and [played] counts, and nothing for the round that
    failed or for later ones. *)
Theorem infeasible_returns_partial_history (Solve : CpModel -> option word)
  (words : list word) (target_word : string) (played : nat)
  (max_attempts : Z) (st : loop_state) :
  sound Solve -> five_letters words ->
  solve_wordle_run Solve words target_word (Z.of_nat played)
  = Ok (Exhausted, st) ->
  (current st = []
   \/ forall fm m w, submitted_model fm st = Ok m -> ~ feasible m w) ->
  Z.of_nat played < max_attempts ->
  solve_wordle Solve words target_word max_attempts = Ok (response st)
  /\ length (guesses (response st)) = played
  /\ length (feedback (response st)) = played
  /\ length (nb_possible_words (response st)) = played
  /\ exists st',
       solve_wordle_run Solve words target_word max_attempts
       = Ok (Infeasible, st')
       /\ response st' = response st.
Proof.
  intros Hsound Hwords (fm & Hfm & Hrun)%solve_wordle_run_Ok Hnone Hmax.
  rewrite Nat2Z.id in Hrun.
  assert (Hsub : current st `sublist_of` words)
    by (by eapply attempts_candidates; [|exact Hrun]).
  assert (Hst : five_letters (current st)).
  { unfold five_letters in *. rewrite Forall_forall in Hwords |- *.
    intros w Hw. apply Hwords. by eapply sublist_subseteq. }
  assert (Hnone' : current st = []
                   \/ forall m w, submitted_model fm st = Ok m ->
                                  ~ feasible m w).
  { destruct Hnone as [Hempty|Hnone]; [by left|right; apply Hnone]. }
  destruct (attempts_infeasible Solve fm (word_of_string target_word)
              (Z.to_nat max_attempts - played - 1) st Hsound Hst Hnone')
    as (st' & Hexit & Hresp).
  assert (Hfull : solve_wordle_run Solve words target_word max_attempts
                  = Ok (Infeasible, st')).
  { unfold solve_wordle_run. rewrite Hfm. rsimpl.
    replace (Z.to_nat max_attempts)
      with (played + S (Z.to_nat max_attempts - played - 1))%nat by lia.
    by rewrite (attempts_resume _ _ _ _ _ _ _ Hrun). }
  pose proof (attempts_bound _ _ _ _ _ _ _ Hrun) as Hbound.
  destruct (attempts_history Solve fm words _ _ _ _ Exhausted []
              (initial_history words _) Hrun)
    as (gs & Hgs & Hfb & Hnb & _).
  simpl in Hbound.
  assert (Hlen : length gs = played)
    by (by rewrite Hgs, length_fmap in Hbound).
  split; [unfold solve_wordle; rewrite Hfull; rsimpl; by rewrite Hresp|].
  split; [done|]. split; [by rewrite Hfb, length_fmap|].
  split; [congruence|]. by exists st'.
Qed.

Lemma infeasible_returns_partial_history_witness :
  sound enum_solver /\ five_letters [crane; slate; irate]
  /\ exists st,
       solve_wordle_run enum_solver [crane; slate; irate] "trace"
         (Z.of_nat 1) = Ok (Exhausted, st)
       /\ (current st = []
           \/ forall fm m w, submitted_model fm st = Ok m -> ~ feasible m w)
       /\ Z.of_nat 1 < 6
       /\ solve_wordle enum_solver [crane; slate; irate] "trace" 6
          = Ok (response st)
       /\ guesses (response st) = ["irate"]
       /\ length (guesses (response st)) = 1%nat
       /\ length (feedback (response st)) = 1%nat
       /\ length (nb_possible_words (response st)) = 1%nat
       /\ exists st',
            solve_wordle_run enum_solver [crane; slate; irate] "trace" 6
            = Ok (Infeasible, st')
            /\ response st' = response st.
Proof.
  assert (H5 : five_letters [crane; slate; irate]) by (repeat constructor).
  assert (H6 : Z.of_nat 1 < 6) by (simpl; lia).
  split; [exact enum_solver_sound|]. split; [exact H5|].
  assert (Hex : exists st,
             solve_wordle_run enum_solver [crane; slate; irate] "trace"
               (Z.of_nat 1) = Ok (Exhausted, st)
             /\ current st = [] /\ guesses (response st) = ["irate"]).
  { eexists. split; [vm_compute; reflexivity|]. by split. }
  destruct Hex as (st & Hrun & Hempty & Hguess).
  exists st. split; [exact Hrun|]. split; [left; exact Hempty|].
  split; [exact H6|].
  destruct (infeasible_returns_partial_history enum_solver
              [crane; slate; irate] "trace" 1 6 st enum_solver_sound H5 Hrun
              (or_introl Hempty) H6)
    as (Hresp & Hg & Hf & Hn & Hexit).
  split; [exact Hresp|]. split; [exact Hguess|]. split; [exact Hg|].
  split; [exact Hf|]. split; [exact Hn|exact Hexit].
Defined.

(** C3: the code departs from the claim.  [len(valid_words)] is appended
    to [nb_possible_words] at line 262, before [filter_valid_words] runs
    at line 274.  With the dictionary crane, slate, irate, trace and
    target "crane", the first guess is "trace" with feedback B G G Y G;
    the count recorded for that round is 3, while [filter_valid_words]
    applied with that guess and feedback leaves one candidate: the
    recorded count includes the two words that the recorded feedback
    excludes.  [process_user_guess] of [api.py] reports the count after
    the filter. *)
Theorem nb_possible_words_not_after_filter :
  exists resp remaining kept,
    solve_wordle enum_solver scenario "crane" 6 = Ok resp
    /\ guesses resp !! 0%nat = Some (string_of_word trace)
    /\ feedback resp !! 0%nat = Some (get_feedback trace crane)
    /\ list_remove trace scenario = Ok remaining
    /\ filter_valid_words remaining trace (get_feedback trace crane) = Ok kept
    /\ nb_possible_words resp !! 0%nat = Some 3%nat
    /\ length kept = 1%nat
    /\ nb_possible_words resp !! 0%nat <> Some (length kept).
Proof.
  eexists _, _, _. split; [vm_compute; reflexivity|].
  split; [vm_compute; reflexivity|]. split; [vm_compute; reflexivity|].
  split; [vm_compute; reflexivity|]. split; [vm_compute; reflexivity|].
  split; [reflexivity|]. split; [reflexivity|]. vm_compute. intros [=].
Qed.

(** What is recorded instead, in every run: the count appended in a round
    is the size of the candidate list of that round less the guess just
    removed from it, taken before [filter_valid_words] runs.  Entry [i] of
    [nb_possible_words] is the length of the [i]-th table posted by
    [AddAllowedAssignments], which is the candidate list at the start of
    round [i], minus one. *)
Lemma nb_possible_words_before_filter (Solve : CpModel -> option word)
  (words : list word) (target_word : string) (max_attempts : Z) :
  sound Solve ->
  (forall e st,
      solve_wordle_run Solve words target_word max_attempts = Ok (e, st) ->
      nb_possible_words (response st)
      = (fun tbl => (length tbl - 1)%nat)
          <$> take (length (guesses (response st))) (tables (model st)))
  /\ (five_letters words -> String.length target_word = 5%nat ->
      exists e st,
        solve_wordle_run Solve words target_word max_attempts = Ok (e, st)
        /\ solve_wordle Solve words target_word max_attempts
           = Ok (response st)).
Proof.
  intros Hsound. split.
  - intros e st (fm & _ & Hrun)%solve_wordle_run_Ok.
    eapply attempts_counts; [done| |exact Hrun]. by split.
  - intros Hwords Htarget.
    destruct (solve_wordle_run_total Solve words target_word max_attempts
                Hsound Hwords Htarget) as (fm & e & st & _ & _ & Hrun & Hresp).
    by exists e, st.
Qed.

(** C2, as stated, fails.  In the same run the second round starts from the
    single candidate crane, yet the model submitted in that round carries
    an objective other than the one the frequencies of that candidate list
    would give. *)
Lemma frequencies_not_recomputed :
  exists e st m cands fm',
    solve_wordle_run enum_solver scenario "crane" 6 = Ok (e, st)
    /\ solver_calls st !! 1%nat = Some m
    /\ last (tables m) = Some cands
    /\ cands = [crane]
    /\ frequency_model cands = Ok fm'
    /\ objective m <> installed_objective fm'.
Proof.
  eexists _, _, _, _, _. split; [vm_compute; reflexivity|].
  split; [vm_compute; reflexivity|]. split; [vm_compute; reflexivity|].
  split; [reflexivity|]. split; [vm_compute; reflexivity|].
  vm_compute. intros [=].
Qed.

(** C2, amended.  The positional and global letter frequencies are computed
    once, before the first round, from the list the caller passed in; the
    model submitted to the solver in every round carries the objective
    built from those same frequencies.  On a five-letter dictionary and
    target, with a solver that honours its contract, the call returns. *)
Theorem frequencies_computed_once (Solve : CpModel -> option word)
  (words : list word) (target_word : string) (max_attempts : Z) :
  (forall fm e st,
      frequency_model words = Ok fm ->
      solve_wordle_run Solve words target_word max_attempts = Ok (e, st) ->
      Forall (fun m => objective m = installed_objective fm)
        (solver_calls st))
  /\ (sound Solve -> five_letters words ->
      String.length target_word = 5%nat ->
      exists fm e st,
        frequency_model words = Ok fm
        /\ solve_wordle_run Solve words target_word max_attempts
           = Ok (e, st)).
Proof.
  split.
  - intros fm e st Hfm (fm' & Hfm' & Hrun)%solve_wordle_run_Ok.
    assert (fm' = fm) as -> by congruence.
    eapply attempts_objective; [|exact Hrun]. constructor.
  - intros Hsound Hwords Htarget.
    destruct (solve_wordle_run_total Solve words target_word max_attempts
                Hsound Hwords Htarget) as (fm & e & st & Hfm & _ & Hrun & _).
    by exists fm, e, st.
Qed.

(** C4: the code departs from the claim.  In the first round
    [valid_words] still names the caller's list, and
    [valid_words.remove(guess)] deletes the guess from it: after a call on
    the dictionary crane, slate, irate, trace with target "trace", the
    caller's list no longer contains trace. *)
Theorem solve_wordle_mutates_caller_list :
  caller_list_after enum_solver scenario "trace" 6
  = Ok [crane; slate; irate].
Proof. vm_compute. reflexivity. Qed.

(** * Further properties of [solver_lib.py] *)

(** ** [get_feedback] *)

(** X1.  [zip] stops at the shorter of the two words, so [get_feedback]
    never raises: the feedback has as many marks as the shorter of guess
    and target has letters. *)
Theorem feedback_length_is_shorter (guess target : word) :
  length (get_feedback guess target)
  = (length guess `min` length target)%nat.
Proof. apply get_feedback_length. Qed.

(** X3.  What a mark says, position by position.  Where both words have a
    letter there is a mark; it is 'G' exactly when the two letters agree; a
    'Y' is only given to a letter of the target; and a letter of the target
    is only left 'B' when another occurrence of it in the guess is marked
    'G' or 'Y'. *)
Theorem feedback_mark_meaning (guess target : word) (i : nat) (a b : Z) :
  guess !! i = Some a -> target !! i = Some b ->
  exists f,
    get_feedback guess target !! i = Some f
    /\ (f = G <-> a = b)
    /\ (f = Y -> a ∈ target)
    /\ (f = B -> a ∈ target ->
        exists j, j <> i /\ guess !! j = Some a
                  /\ (get_feedback guess target !! j = Some G
                      \/ get_feedback guess target !! j = Some Y)).
Proof.
  intros Ha Hb.
  destruct (lookup_lt_is_Some_2 (get_feedback guess target) i) as [f Hf].
  { rewrite get_feedback_length. apply lookup_lt_Some in Ha, Hb. lia. }
  exists f. split; [done|]. split; [|split].
  - split.
    + intros ->. apply get_feedback_green in Hf as (c & Hc1 & Hc2).
      congruence.
    + intros ->.
      assert (HG : get_feedback guess target !! i = Some G)
        by (apply get_feedback_green; by exists b).
      congruence.
  - intros ->. by destruct (get_feedback_yellow _ _ _ _ Hf Ha).
  - intros -> Hin.
    destruct (get_feedback_gray _ _ _ _ Hf Ha Hin) as (j & Hj & Hm).
    exists j. split; [|done]. intros ->. destruct Hm; congruence.
Qed.

Lemma feedback_mark_meaning_witness :
  crane !! 0%nat = Some 2 /\ trace !! 0%nat = Some 19
  /\ exists f,
       get_feedback crane trace !! 0%nat = Some f
       /\ (f = G <-> 2 = 19)
       /\ (f = Y -> 2 ∈ trace)
       /\ (f = B -> 2 ∈ trace ->
           exists j, j <> 0%nat /\ crane !! j = Some 2
                     /\ (get_feedback crane trace !! j = Some G
                         \/ get_feedback crane trace !! j = Some Y)).
Proof.
  split; [reflexivity|]. split; [reflexivity|].
  exact (feedback_mark_meaning crane trace 0 2 19 eq_refl eq_refl).
Defined.

(** ** [filter_valid_words] *)

(** X4.  On five-letter words the filter does not raise, and it keeps, in
    their order, exactly the words that obey the three rules: the guess's
    letter at every 'G'; at a 'Y' another letter, the guess's letter being
    elsewhere in the word; and none of the letters marked 'B' unless the
    same letter is marked 'G' or 'Y' somewhere in the guess. *)
Theorem filter_keeps_consistent_words (words_data : list word) (guess : word)
  (fb : list mark) :
  five_letters words_data -> length guess = 5%nat -> length fb = 5%nat ->
  exists valid,
    filter_valid_words words_data guess fb = Ok valid
    /\ valid `sublist_of` words_data
    /\ forall w, w ∈ valid <-> w ∈ words_data /\ consistent w guess fb.
Proof.
  intros Hwords Hg Hf.
  destruct (filter_valid_words_total guess fb Hg Hf words_data Hwords)
    as (valid & Hvalid & _).
  exists valid. split; [done|].
  destruct (filter_valid_words_sublist _ _ _ _ Hvalid) as [Hsub Hiff].
  split; [done|]. intros w. rewrite Hiff.
  unfold five_letters in Hwords. rewrite Forall_forall in Hwords.
  split; intros [Hin Hw]; (split; [done|]);
    by apply word_is_valid_consistent; auto.
Qed.

Lemma filter_keeps_consistent_words_witness :
  five_letters scenario /\ length slate = 5%nat
  /\ length [B; B; G; Y; G] = 5%nat
  /\ exists valid,
       filter_valid_words scenario slate [B; B; G; Y; G] = Ok valid
       /\ valid `sublist_of` scenario
       /\ forall w, w ∈ valid <->
                    w ∈ scenario /\ consistent w slate [B; B; G; Y; G].
Proof.
  assert (H5 : five_letters scenario) by (repeat constructor).
  split; [exact H5|]. split; [reflexivity|]. split; [reflexivity|].
  exact (filter_keeps_consistent_words scenario slate [B; B; G; Y; G]
           H5 eq_refl eq_refl).
Defined.

(** X5.  The filter alone does not discard the guess: a five-letter guess
    passes the test of its own feedback exactly when no letter is marked
    'Y' and every letter marked 'B' is marked 'G' at another position. *)
Theorem guess_passes_own_feedback (guess : word) (fb : list mark) :
  length guess = 5%nat -> length fb = 5%nat ->
  word_is_valid guess guess fb = Ok true <->
  (forall pos, fb !! pos <> Some Y)
  /\ (forall pos c, fb !! pos = Some B -> guess !! pos = Some c ->
        exists p, guess !! p = Some c /\ fb !! p = Some G).
Proof.
  intros Hg Hf. rewrite word_is_valid_consistent by done.
  unfold consistent. split.
  - intros (_ & HY & HB).
    assert (HnoY : forall pos, fb !! pos <> Some Y).
    { intros pos Hpos.
      destruct (lookup_lt_is_Some_2 guess pos) as [c Hc].
      { apply lookup_lt_Some in Hpos. lia. }
      by destruct (HY pos c Hpos Hc). }
    split; [done|]. intros pos c Hpos Hc.
    destruct (HB pos c Hpos Hc) as (p & Hp & [HG|HY']).
    + by eapply list_elem_of_lookup_2.
    + by exists p.
    + by destruct (HnoY p).
  - intros [HnoY HB]. split; [done|]. split.
    + intros pos c Hpos. by destruct (HnoY pos).
    + intros pos c Hpos Hc _.
      destruct (HB pos c Hpos Hc) as (p & Hp & HG). exists p. auto.
Qed.

Lemma guess_passes_own_feedback_witness :
  length slate = 5%nat /\ length [B; B; G; B; G] = 5%nat
  /\ (word_is_valid slate slate [B; B; G; B; G] = Ok true <->
      (forall pos, [B; B; G; B; G] !! pos <> Some Y)
      /\ (forall pos c, [B; B; G; B; G] !! pos = Some B ->
            slate !! pos = Some c ->
            exists p, slate !! p = Some c
                      /\ [B; B; G; B; G] !! p = Some G)).
Proof.
  split; [reflexivity|]. split; [reflexivity|].
  exact (guess_passes_own_feedback slate [B; B; G; B; G] eq_refl eq_refl).
Defined.

(** X8.  The only exception [filter_valid_words] raises is [IndexError],
    and it raises none when the words, the guess and the feedback all have
    five entries. *)
Theorem filter_raises_only_IndexError (words_data : list word) (guess : word)
  (fb : list mark) (e : exn) :
  filter_valid_words words_data guess fb = Raise e ->
  e = IndexError
  /\ ~ (five_letters words_data /\ length guess = 5%nat
        /\ length fb = 5%nat).
Proof.
  intros Hraise. split; [by eapply filter_valid_words_raises|].
  intros (Hwords & Hg & Hf).
  destruct (filter_valid_words_total guess fb Hg Hf words_data Hwords)
    as (valid & Hvalid & _).
  congruence.
Qed.

Lemma filter_raises_only_IndexError_witness :
  filter_valid_words [[2; 17]] crane (replicate 5 G) = Raise IndexError
  /\ IndexError = IndexError
  /\ ~ (five_letters [[2; 17]] /\ length crane = 5%nat
        /\ length (replicate 5 G) = 5%nat).
Proof.
  assert (H : filter_valid_words [[2; 17]] crane (replicate 5 G)
              = Raise IndexError) by (vm_compute; reflexivity).
  split; [exact H|].
  exact (filter_raises_only_IndexError [[2; 17]] crane (replicate 5 G)
           IndexError H).
Defined.

(** ** [update_model] *)

Lemma update_model_extends (m : CpModel) (guess : word) (fb : list mark) :
  (5 <= length guess)%nat -> (5 <= length fb)%nat ->
  exists m', update_model m guess fb = Ok m' /\ extends m m'.
Proof.
  intros Hg Hf. unfold update_model.
  destruct (marks_loop_spec guess fb range5) with (m := m)
    (lc := @nil (Z * Z)) (gp := @nil (Z * list nat))
    as (m1 & lc1 & gp1 & -> & Hext & _).
  { intros p Hp%range5_lt. lia. }
  rsimpl. eexists. split; [done|].
  destruct (gray_constraints_spec gp1 m1) as [Hext2 _].
  pose proof (occurs_constraints_extends lc1 gp1 (gray_constraints m1 gp1)).
  eauto using extends_trans.
Qed.

(** X9.  [update_model] returns exactly when guess and feedback have five
    entries at least, and then it only appends constraints: the tables, the
    objective and the constraints posted before are as they were.
    Otherwise it raises [IndexError]. *)
Theorem update_model_returns_iff (m : CpModel) (guess : word)
  (fb : list mark) :
  ((5 <= length guess)%nat /\ (5 <= length fb)%nat ->
   exists m', update_model m guess fb = Ok m' /\ extends m m')
  /\ (~ ((5 <= length guess)%nat /\ (5 <= length fb)%nat) ->
      update_model m guess fb = Raise IndexError).
Proof.
  split.
  - intros [Hg Hf]. by apply update_model_extends.
  - intros Hshort. destruct (update_model m guess fb) as [m'|e] eqn:Hm.
    + by apply update_model_Ok_length in Hm.
    + by rewrite (update_model_raises _ _ _ _ Hm).
Qed.

(** X10.  What a round adds to the model tells the guess from the target:
    every constraint [update_model] posts for the feedback of a guess
    against the target holds of the target, and unless the guess is the
    target one of them fails on the guess. *)
Theorem update_model_separates (m m' : CpModel) (guess target : word) :
  length guess = 5%nat -> length target = 5%nat ->
  update_model m guess (get_feedback guess target) = Ok m' ->
  (forall c, c ∈ constraints m' -> c ∈ constraints m \/ sat target c = true)
  /\ (guess <> target ->
      exists c, c ∈ constraints m' /\ sat guess c = false).
Proof.
  intros Hg Ht Hm'.
  split; [exact (update_model_target m m' guess target Hg Ht Hm')|].
  intros Hne.
  apply (update_model_excludes m m' guess (get_feedback guess target));
    [done| | |done].
  - rewrite get_feedback_length. lia.
  - intros Hall. apply Hne.
    apply get_feedback_all_green; [congruence|]. by rewrite Hg.
Qed.

Lemma update_model_separates_witness :
  length crane = 5%nat /\ length trace = 5%nat
  /\ exists m',
       update_model new_model crane (get_feedback crane trace) = Ok m'
       /\ (forall c, c ∈ constraints m' ->
                     c ∈ constraints new_model \/ sat trace c = true)
       /\ (crane <> trace ->
           exists c, c ∈ constraints m' /\ sat crane c = false).
Proof.
  split; [reflexivity|]. split; [reflexivity|].
  assert (Hf : length (get_feedback crane trace) = 5%nat)
    by (vm_compute; reflexivity).
  destruct (update_model_spec new_model crane (get_feedback crane trace)
              eq_refl Hf) as (m' & Hm' & _).
  exists m'. split; [exact Hm'|].
  exact (update_model_separates new_model m' crane trace eq_refl eq_refl Hm').
Defined.

(** ** Words and strings *)

(** X11.  The two conversions [solve_wordle] uses between strings and
    tuples of integers are inverse to each other: encoding a string and
    decoding the result gives the string back, and decoding a tuple of
    values of the position variables and encoding it again gives the
    tuple. *)
Theorem word_string_round_trips :
  (forall s, string_of_word (word_of_string s) = s)
  /\ (forall w, Forall (fun c => 0 <= c <= 25) w ->
                word_of_string (string_of_word w) = w).
Proof. split; [apply string_of_word_of_string|apply word_of_string_of_word]. Qed.

(** ** The frequency statistics of [solve_wordle] *)

Lemma frequency_model_Ok_length (words : list word) (fm : FrequencyModel) :
  frequency_model words = Ok fm ->
  Forall (fun w => (5 <= length w)%nat) words.
Proof.
  intros Hfm.
  destruct (decide (Forall (fun w : word => (5 <= length w)%nat) words))
    as [|Hnot]; [done|].
  apply not_Forall_Exists in Hnot; [|intros w; apply _].
  assert (Hshort : Exists (fun w : word => (length w < 5)%nat) words).
  { eapply Exists_impl; [exact Hnot|]. intros w Hw. simpl in Hw. lia. }
  unfold frequency_model, positional_counts in Hfm.
  by rewrite (positional_counts_short words Hshort) in Hfm.
Qed.

Lemma column_concat (pos : nat) (words : list word) (c : Z) :
  c ∈ column pos words -> c ∈ concat words.
Proof.
  unfold column. intros (w & Hw & Hc)%list_elem_of_omap.
  apply list_elem_of_In, in_concat. exists w.
  split; [by apply list_elem_of_In|].
  apply list_elem_of_In. by eapply list_elem_of_lookup_2.
Qed.

(** X12.  When the statistics are computed without an exception, every
    word has five letters at least; the frequency of a letter is the
    number of its occurrences in all the words divided by the number of
    words, and its frequency at a position is the number of words with the
    letter there, divided by the number of words.  Letters that do not
    occur have no entry. *)
Theorem frequency_model_values (words : list word) (fm : FrequencyModel) :
  frequency_model words = Ok fm ->
  Forall (fun w => (5 <= length w)%nat) words
  /\ (forall c,
        letter_frequency fm !! c
        = if decide (count_occ Z.eq_dec (concat words) c = 0%nat) then None
          else Some (truediv (Z.of_nat (count_occ Z.eq_dec (concat words) c))
                       (Z.of_nat (length words))))
  /\ (forall pos, (pos < 5)%nat ->
        exists d,
          positional_freq fm !! pos = Some d
          /\ forall c,
               d !! c
               = if decide (count_occ Z.eq_dec (column pos words) c = 0%nat)
                 then None
                 else Some (truediv
                              (Z.of_nat
                                 (count_occ Z.eq_dec (column pos words) c))
                              (Z.of_nat (length words)))).
Proof.
  intros Hfm. pose proof (frequency_model_Ok_length _ _ Hfm) as Hlen.
  split; [done|].
  rewrite (frequency_model_columns words Hlen) in Hfm. injection Hfm as <-.
  cbn [letter_frequency positional_freq].
  split; [apply letter_frequencies_lookup|].
  intros pos Hpos.
  do 5 (destruct pos as [|pos];
        [eexists; split; [reflexivity|]; intros c;
         rewrite lookup_fmap, Counter_lookup; by destruct (decide _)|]).
  lia.
Qed.

Lemma frequency_model_values_witness :
  exists fm,
    frequency_model scenario = Ok fm
    /\ Forall (fun w => (5 <= length w)%nat) scenario
    /\ (forall c,
          letter_frequency fm !! c
          = if decide (count_occ Z.eq_dec (concat scenario) c = 0%nat)
            then None
            else Some (truediv
                         (Z.of_nat (count_occ Z.eq_dec (concat scenario) c))
                         (Z.of_nat (length scenario))))
    /\ (forall pos, (pos < 5)%nat ->
          exists d,
            positional_freq fm !! pos = Some d
            /\ forall c,
                 d !! c
                 = if decide
                        (count_occ Z.eq_dec (column pos scenario) c = 0%nat)
                   then None
                   else Some (truediv
                                (Z.of_nat
                                   (count_occ Z.eq_dec (column pos scenario) c))
                                (Z.of_nat (length scenario)))).
Proof.
  assert (H5 : five_letters scenario) by (repeat constructor).
  destruct (frequency_model_total scenario H5) as [fm Hfm].
  exists fm. split; [exact Hfm|].
  exact (frequency_model_values scenario fm Hfm).
Defined.

(** X13.  A letter that occurs in no word of the list adds nothing to the
    objective, at whatever position: its score is 0. *)
Theorem unseen_letter_scores_zero (words : list word) (fm : FrequencyModel)
  (pos : nat) (c : Z) :
  frequency_model words = Ok fm -> c ∉ concat words -> score fm pos c = 0.
Proof.
  intros Hfm Hc.
  assert (Hcount : forall xs : list Z,
             (forall x, x ∈ xs -> x ∈ concat words) ->
             ((fun freq => truediv freq (Z.of_nat (length words)))
                <$> Counter xs) !! c = None).
  { intros xs Hxs. rewrite lookup_fmap, Counter_lookup.
    rewrite decide_True; [done|].
    apply count_occ_not_In. rewrite <- list_elem_of_In. auto. }
  assert (Hdefault : forall l : list (gmap Z float),
             Forall (fun d => d !! c = None) l ->
             default ∅ (l !! pos) !! c = None).
  { intros l Hl. destruct (l !! pos) as [d|] eqn:Hd; simpl.
    - rewrite Forall_forall in Hl. apply Hl.
      by eapply list_elem_of_lookup_2.
    - apply lookup_empty. }
  rewrite (frequency_model_columns words) in Hfm
    by (by eapply frequency_model_Ok_length).
  injection Hfm as <-. unfold score.
  cbn [letter_frequency positional_freq].
  assert (Hletter : letter_frequencies words !! c = None)
    by (by apply (Hcount (concat words))).
  rewrite Hdefault, Hletter; [vm_compute; reflexivity|].
  repeat constructor; apply Hcount; intros x; apply column_concat.
Qed.

Lemma unseen_letter_scores_zero_witness :
  exists fm,
    frequency_model scenario = Ok fm /\ (25 ∉ concat scenario)
    /\ score fm 0 25 = 0.
Proof.
  assert (H5 : five_letters scenario) by (repeat constructor).
  destruct (frequency_model_total scenario H5) as [fm Hfm].
  assert (Hz : 25 ∉ concat scenario).
  { intros Hin%list_elem_of_In. vm_compute in Hin.
    repeat (destruct Hin as [Hin|Hin]; [discriminate Hin|]). exact Hin. }
  exists fm. split; [exact Hfm|]. split; [exact Hz|].
  exact (unseen_letter_scores_zero scenario fm 0 25 Hfm Hz).
Defined.

(** ** Lists [solve_wordle] cannot work on *)

(** X14.  A word of fewer than five letters in the list makes
    [solve_wordle] raise [IndexError] while it counts the letters, before
    the solver is called, whatever the target and the number of
    attempts. *)
Theorem solve_wordle_short_word (Solve : CpModel -> option word)
  (words : list word) (target_word : string) (max_attempts : Z) :
  Exists (fun w => (length w < 5)%nat) words ->
  solve_wordle Solve words target_word max_attempts = Raise IndexError.
Proof.
  intros Hshort.
  unfold solve_wordle, solve_wordle_run, frequency_model, positional_counts.
  by rewrite (positional_counts_short words Hshort).
Qed.

Lemma solve_wordle_short_word_witness :
  Exists (fun w : word => (length w < 5)%nat) [crane; [2; 17]]
  /\ solve_wordle enum_solver [crane; [2; 17]] "crane" 6 = Raise IndexError.
Proof.
  assert (H : Exists (fun w : word => (length w < 5)%nat) [crane; [2; 17]]).
  { apply Exists_cons_tl, Exists_cons_hd. simpl. lia. }
  split; [exact H|].
  exact (solve_wordle_short_word enum_solver [crane; [2; 17]] "crane" 6 H).
Defined.

(** X15.  A list whose words have five letters at least, one of them more,
    passes the counting of the letters, and the call does not return: in
    the first round OR-Tools refuses the list as a table of allowed
    assignments of the five position variables, before the solver runs. *)
Theorem solve_wordle_long_word (Solve : CpModel -> option word)
  (words : list word) (target_word : string) (max_attempts : Z) :
  Forall (fun w => (5 <= length w)%nat) words ->
  Exists (fun w => length w <> 5%nat) words ->
  0 < max_attempts ->
  solve_wordle Solve words target_word max_attempts = Raise ArityError.
Proof.
  intros Hlen Hlong Hmax.
  unfold solve_wordle, solve_wordle_run.
  rewrite (frequency_model_columns words Hlen). rsimpl.
  destruct (Z.to_nat max_attempts) as [|n] eqn:Hn; [lia|].
  cbn [attempts]. unfold attempt, submitted_model, AddAllowedAssignments.
  replace (forallb (fun t : word => bool_decide (length t = 5%nat))
             (current (initial_state words))) with false; [done|].
  symmetry. apply not_true_is_false. intros Hall.
  apply Exists_exists in Hlong as (w & Hw & Hne).
  rewrite forallb_forall in Hall.
  specialize (Hall w). rewrite <- list_elem_of_In in Hall.
  specialize (Hall Hw). by apply bool_decide_eq_true_1 in Hall.
Qed.

Lemma solve_wordle_long_word_witness :
  Forall (fun w : word => (5 <= length w)%nat) [crane; [2; 17; 0; 13; 4; 18]]
  /\ Exists (fun w : word => length w <> 5%nat)
       [crane; [2; 17; 0; 13; 4; 18]]
  /\ 0 < 6
  /\ solve_wordle enum_solver [crane; [2; 17; 0; 13; 4; 18]] "crane" 6
     = Raise ArityError.
Proof.
  assert (H1 : Forall (fun w : word => (5 <= length w)%nat)
                 [crane; [2; 17; 0; 13; 4; 18]])
    by (repeat constructor; simpl; lia).
  assert (H2 : Exists (fun w : word => length w <> 5%nat)
                 [crane; [2; 17; 0; 13; 4; 18]])
    by (apply Exists_cons_tl, Exists_cons_hd; simpl; lia).
  assert (H3 : 0 < 6) by lia.
  split; [exact H1|]. split; [exact H2|]. split; [exact H3|].
  exact (solve_wordle_long_word enum_solver [crane; [2; 17; 0; 13; 4; 18]]
           "crane" 6 H1 H2 H3).
Defined.

(** X16.  A target of fewer than five letters is never solved.  With a
    solver that honours its contract, five-letter words and one attempt at
    least, the call raises [IndexError] in the first round as soon as the
    solver proposes a guess; when the solver finds none, the response is
    returned empty. *)
Theorem solve_wordle_short_target (Solve : CpModel -> option word)
  (words : list word) (target_word : string) (max_attempts : Z) :
  sound Solve -> five_letters words ->
  (String.length target_word < 5)%nat -> 0 < max_attempts ->
  solve_wordle Solve words target_word max_attempts = Raise IndexError
  \/ solve_wordle Solve words target_word max_attempts
     = Ok {| guesses := []; feedback := []; nb_possible_words := [] |}.
Proof.
  intros Hsound Hwords Htarget Hmax.
  unfold solve_wordle, solve_wordle_run.
  destruct (frequency_model_total words Hwords) as [fm ->]. rsimpl.
  destruct (Z.to_nat max_attempts) as [|n] eqn:Hn; [lia|].
  cbn [attempts]. unfold attempt.
  destruct (submitted_model_total fm (initial_state words) Hwords)
    as [m Hm].
  rewrite Hm. rsimpl.
  destruct (Solve m) as [guess|] eqn:Hsolve; [left|by right].
  destruct (guess_feasible Solve Hsound fm _ m guess Hm Hsolve)
    as ([Hguess _] & Hin & _).
  unfold remove_guess. cbn [valid_words initial_state caller_list].
  destruct (list_remove_spec guess words Hin) as (l' & -> & _). rsimpl.
  set (fb := get_feedback guess (word_of_string target_word)).
  assert (Hfb : (length fb < 5)%nat).
  { unfold fb. rewrite get_feedback_length, word_of_string_length. lia. }
  rewrite bool_decide_eq_false_2
    by (intros Hall; rewrite Hall in Hfb; simpl in Hfb; lia).
  destruct (filter_valid_words l' guess fb) as [filtered|err] eqn:Hfilter;
    rsimpl; [|by rewrite (filter_valid_words_raises _ _ _ _ Hfilter)].
  destruct (update_model m guess fb) as [m'|err] eqn:Hupdate; rsimpl.
  - apply update_model_Ok_length in Hupdate. lia.
  - by rewrite (update_model_raises _ _ _ _ Hupdate).
Qed.

Lemma solve_wordle_short_target_witness :
  sound enum_solver /\ five_letters scenario
  /\ (String.length "cat" < 5)%nat /\ 0 < 6
  /\ (solve_wordle enum_solver scenario "cat" 6 = Raise IndexError
      \/ solve_wordle enum_solver scenario "cat" 6
         = Ok {| guesses := []; feedback := []; nb_possible_words := [] |}).
Proof.
  assert (H5 : five_letters scenario) by (repeat constructor).
  assert (H3 : (String.length "cat" < 5)%nat) by (simpl; lia).
  assert (H6 : 0 < 6) by lia.
  split; [exact enum_solver_sound|]. split; [exact H5|].
  split; [exact H3|]. split; [exact H6|].
  exact (solve_wordle_short_target enum_solver scenario "cat" 6
           enum_solver_sound H5 H3 H6).
Defined.

(** ** Whole runs of [solve_wordle] *)

(** X17.  The response is a history of the game.  Its three lists have one
    entry per guess; every guess is a word of the list that was passed in,
    recorded with the feedback the target gives it; the run ends in the
    solved branch exactly on a guess whose feedback is all 'G', and no
    guess before the last has such feedback. *)
Theorem response_is_history (Solve : CpModel -> option word)
  (words : list word) (target_word : string) (max_attempts : Z)
  (e : exit) (st : loop_state) :
  solve_wordle_run Solve words target_word max_attempts = Ok (e, st) ->
  exists gs,
    guesses (response st) = string_of_word <$> gs
    /\ feedback (response st)
       = (fun g => get_feedback g (word_of_string target_word)) <$> gs
    /\ length (nb_possible_words (response st)) = length gs
    /\ Forall (fun g => g ∈ words) gs
    /\ match e with
       | Solved =>
           exists init g,
             gs = init ++ [g]
             /\ get_feedback g (word_of_string target_word) = replicate 5 G
             /\ Forall (fun g => get_feedback g (word_of_string target_word)
                                 <> replicate 5 G) init
       | _ => Forall (fun g => get_feedback g (word_of_string target_word)
                               <> replicate 5 G) gs
       end.
Proof.
  intros (fm & _ & Hrun)%solve_wordle_run_Ok.
  exact (attempts_history Solve fm words _ _ _ _ e []
           (initial_history words _) Hrun).
Qed.

Lemma response_is_history_witness :
  exists e st gs,
    solve_wordle_run enum_solver scenario "crane" 6 = Ok (e, st)
    /\ guesses (response st) = string_of_word <$> gs
    /\ feedback (response st)
       = (fun g => get_feedback g (word_of_string "crane")) <$> gs
    /\ length (nb_possible_words (response st)) = length gs
    /\ Forall (fun g => g ∈ scenario) gs
    /\ match e with
       | Solved =>
           exists init g,
             gs = init ++ [g]
             /\ get_feedback g (word_of_string "crane") = replicate 5 G
             /\ Forall (fun g => get_feedback g (word_of_string "crane")
                                 <> replicate 5 G) init
       | _ => Forall (fun g => get_feedback g (word_of_string "crane")
                               <> replicate 5 G) gs
       end.
Proof.
  assert (H5 : five_letters scenario) by (repeat constructor).
  destruct (solve_wordle_run_total enum_solver scenario "crane" 6
              enum_solver_sound H5 eq_refl) as (fm & e & st & _ & _ & Hrun & _).
  destruct (response_is_history enum_solver scenario "crane" 6 e st Hrun)
    as (gs & Hgs).
  exists e, st, gs. split; [exact Hrun|exact Hgs].
Defined.

(** X18.  The recorded counts of possible words decrease strictly from one
    round to the next, and each is smaller than the length of the list that
    was passed in. *)
Theorem nb_possible_words_decrease (Solve : CpModel -> option word)
  (words : list word) (target_word : string) (max_attempts : Z)
  (e : exit) (st : loop_state) :
  solve_wordle_run Solve words target_word max_attempts = Ok (e, st) ->
  decreasing (nb_possible_words (response st))
  /\ Forall (fun x => (x < length words)%nat)
       (nb_possible_words (response st)).
Proof.
  intros (fm & _ & Hrun)%solve_wordle_run_Ok.
  eapply attempts_shrink; [| |exact Hrun].
  - split; [done|]. split.
    + by intros i j a b _ Hi.
    + by intros x Hx%elem_of_nil.
  - constructor.
Qed.

Lemma nb_possible_words_decrease_witness :
  exists e st,
    solve_wordle_run enum_solver scenario "crane" 6 = Ok (e, st)
    /\ decreasing (nb_possible_words (response st))
    /\ Forall (fun x => (x < length scenario)%nat)
         (nb_possible_words (response st)).
Proof.
  assert (H5 : five_letters scenario) by (repeat constructor).
  destruct (solve_wordle_run_total enum_solver scenario "crane" 6
              enum_solver_sound H5 eq_refl) as (fm & e & st & _ & _ & Hrun & _).
  exists e, st. split; [exact Hrun|].
  exact (nb_possible_words_decrease enum_solver scenario "crane" 6 e st Hrun).
Defined.

(** X19.  All a call does to the list object of its caller is to remove
    the first guess from it: with no guess played the list is as it was;
    otherwise it is the list passed in without the first occurrence of the
    first guess, whatever the number of rounds that follow. *)
Theorem caller_list_loses_first_guess (Solve : CpModel -> option word)
  (words : list word) (target_word : string) (max_attempts : Z)
  (e : exit) (st : loop_state) :
  solve_wordle_run Solve words target_word max_attempts = Ok (e, st) ->
  (guesses (response st) = [] /\ caller_list st = words)
  \/ exists g rest,
       guesses (response st) = string_of_word g :: rest
       /\ list_remove g words = Ok (caller_list st).
Proof.
  intros (fm & _ & Hrun)%solve_wordle_run_Ok.
  eapply attempts_caller_list; [|exact Hrun]. by split.
Qed.

Lemma caller_list_loses_first_guess_witness :
  exists e st,
    solve_wordle_run enum_solver scenario "crane" 6 = Ok (e, st)
    /\ ((guesses (response st) = [] /\ caller_list st = scenario)
        \/ exists g rest,
             guesses (response st) = string_of_word g :: rest
             /\ list_remove g scenario = Ok (caller_list st)).
Proof.
  assert (H5 : five_letters scenario) by (repeat constructor).
  destruct (solve_wordle_run_total enum_solver scenario "crane" 6
              enum_solver_sound H5 eq_refl) as (fm & e & st & _ & _ & Hrun & _).
  exists e, st. split; [exact Hrun|].
  exact (caller_list_loses_first_guess enum_solver scenario "crane" 6 e st
           Hrun).
Defined.

(** X20.  With a solver that honours its contract and a five-letter
    target, a run that ends in the solved branch has the target itself as
    its last guess. *)
Theorem solved_on_target (Solve : CpModel -> option word)
  (words : list word) (target_word : string) (max_attempts : Z)
  (st : loop_state) :
  sound Solve -> String.length target_word = 5%nat ->
  solve_wordle_run Solve words target_word max_attempts = Ok (Solved, st) ->
  last (guesses (response st)) = Some target_word
  /\ last (feedback (response st)) = Some (replicate 5 G).
Proof.
  intros Hsound Htarget (fm & _ & Hrun)%solve_wordle_run_Ok.
  assert (Hlen : length (word_of_string target_word) = 5%nat)
    by (by rewrite word_of_string_length).
  destruct (attempts_solved_last Solve fm _ _ _ _ Hsound Hlen Hrun)
    as [Hg Hf].
  by rewrite string_of_word_of_string in Hg.
Qed.

Lemma solved_on_target_witness :
  sound enum_solver /\ String.length "crane" = 5%nat
  /\ exists st,
       solve_wordle_run enum_solver scenario "crane" 6 = Ok (Solved, st)
       /\ last (guesses (response st)) = Some "crane"
       /\ last (feedback (response st)) = Some (replicate 5 G).
Proof.
  split; [exact enum_solver_sound|]. split; [reflexivity|].
  assert (Hex : exists st,
             solve_wordle_run enum_solver scenario "crane" 6
             = Ok (Solved, st)) by (eexists; vm_compute; reflexivity).
  destruct Hex as [st Hrun]. exists st. split; [exact Hrun|].
  exact (solved_on_target enum_solver scenario "crane" 6 st
           enum_solver_sound eq_refl Hrun).
Defined.

(** X21.  The target is never ruled out.  When the target is a word of the
    list, with letters in 'a'..'z', and the solver honours its contract,
    then at every exit other than the solved one the target is still among
    the candidate words and satisfies every constraint and table of the
    model. *)
Theorem target_stays_feasible (Solve : CpModel -> option word)
  (words : list word) (target_word : string) (max_attempts : Z)
  (e : exit) (st : loop_state) :
  sound Solve -> in_domain (word_of_string target_word) ->
  word_of_string target_word ∈ words ->
  solve_wordle_run Solve words target_word max_attempts = Ok (e, st) ->
  e <> Solved ->
  word_of_string target_word ∈ current st
  /\ feasible (model st) (word_of_string target_word).
Proof.
  intros Hsound Hdom Hin (fm & _ & Hrun)%solve_wordle_run_Ok.
  assert (Hsub : current (initial_state words) `sublist_of` words) by done.
  by destruct (attempts_in_play Solve fm words _ _ _ _ e Hsound Hdom Hsub
                 (initial_in_play words _ Hin) Hrun).
Qed.

Lemma target_stays_feasible_witness :
  sound enum_solver /\ in_domain (word_of_string "crane")
  /\ word_of_string "crane" ∈ scenario
  /\ exists e st,
       solve_wordle_run enum_solver scenario "crane" 1 = Ok (e, st)
       /\ e <> Solved
       /\ word_of_string "crane" ∈ current st
       /\ feasible (model st) (word_of_string "crane").
Proof.
  assert (Hdom : in_domain (word_of_string "crane"))
    by (split; [reflexivity|repeat constructor; discriminate]).
  assert (Hin : word_of_string "crane" ∈ scenario)
    by (apply list_elem_of_here).
  split; [exact enum_solver_sound|]. split; [exact Hdom|].
  split; [exact Hin|].
  assert (Hex : exists e st,
             solve_wordle_run enum_solver scenario "crane" 1 = Ok (e, st)
             /\ e <> Solved).
  { eexists _, _. split; [vm_compute; reflexivity|discriminate]. }
  destruct Hex as (e & st & Hrun & He). exists e, st.
  split; [exact Hrun|]. split; [exact He|].
  exact (target_stays_feasible enum_solver scenario "crane" 1 e st
           enum_solver_sound Hdom Hin Hrun He).
Defined.



(** * The request handlers of [api.py]

    The handlers are embedded as functions from the state of the module
    (the word lists and [current_game]) to a result.  A string is a
    sequence of characters with code points below 256, and [len] counts
    characters.  Of the HTTP layer only the parsed body of the request
    ([request.json]) is kept, and a handler's reply is the payload it
    passes to [jsonify], or the 400 error. *)

Module Api.

(** [current_game] *)
Record Game := {
  target_word : option string;
  game_guesses : list string;
  game_feedback : list (list mark)
}.

(** The module-level state. *)
Record Server := {
  words : list string;      (* words["words"].tolist() *)
  words_data : list word;
  current_game : Game
}.

(** The module initialisation, from the words read from the file: the
    five-letter ones are kept and encoded. *)
Definition load (all_words : list string) : Server :=
  let words := filter (fun w => String.length w = 5%nat) all_words in
  {| words := words;
     words_data := word_of_string <$> words;
     current_game := {| target_word := None; game_guesses := [];
                        game_feedback := [] |} |}.

(** [random.choice(words_data)]: [IndexError] on an empty list; otherwise
    the element at an index below the length of the list, which is here
    the remainder of the random draw [r]. *)
Definition choose_target (r : nat) (words_data : list string)
  : result string :=
  match words_data with
  | [] => Raise IndexError
  | _ => getitem words_data (r mod length words_data)
  end.

Definition new_game (r : nat) (srv : Server) : result Server :=
  t ← choose_target r (words srv);
  Ok {| words := words srv; words_data := words_data srv;
        current_game := {| target_word := Some t; game_guesses := [];
                           game_feedback := [] |} |}.

(** The parsed body of a request, as far as [process_user_guess] looks at
    it: a JSON object, of which only the entry 'guess' is read, or another
    JSON value; and of the value of 'guess' only whether it is a string. *)
Inductive Json :=
| JString (s : string)
| JOther.                 (* a number, a boolean, null, an array, an object *)

Inductive Body :=
| JObject (guess : option Json)   (* the entry 'guess', when there is one *)
| JNotObject.                     (* null or any other value without [get] *)

(** [str.lower] follows the Unicode case mapping; it is a parameter of
    [process_user_guess], and nothing is assumed of it.  [ascii_lower] is
    what it does on ASCII strings. *)
Definition lower_ascii (c : ascii) : ascii :=
  let n := nat_of_ascii c in
  if (65 <=? n)%nat && (n <=? 90)%nat then ascii_of_nat (n + 32) else c.

Definition ascii_lower (s : string) : string :=
  String.string_of_list_ascii (lower_ascii <$> String.list_ascii_of_string s).

(** [data.get('guess', '').lower()]: [AttributeError] when the body has no
    method [get], or the value of 'guess' no method [lower]. *)
Definition requested_guess (lower : string -> string) (body : Body)
  : result string :=
  match body with
  | JNotObject => Raise AttributeError
  | JObject None => Ok (lower "")
  | JObject (Some (JString s)) => Ok (lower s)
  | JObject (Some JOther) => Raise AttributeError
  end.

Definition mark_letter (f : mark) : ascii :=
  match f with G => "G"%char | Y => "Y"%char | B => "B"%char end.

(** [''.join(feedback)] *)
Definition join (fb : list mark) : string :=
  String.string_of_list_ascii (mark_letter <$> fb).

Inductive Reply :=
| BadRequest     (* {"error": ...}, 400 *)
| Accepted (guess : string) (fb : list mark) (possible_words_count : nat)
           (solved : bool).

(** The loop over [zip(guesses, feedback)] that narrows a copy of
    [words_data]. *)
Definition remaining_words (data : list word)
  (history : list (string * list mark)) : result (list word) :=
  for_fold (fun valid '(g, f) => filter_valid_words valid (word_of_string g) f)
    history data.

Definition process_user_guess (lower : string -> string) (body : Body)
  (srv : Server) : result (Server * Reply) :=
  guess ← requested_guess lower body;
  if negb (bool_decide (String.length guess = 5%nat))
     || negb (bool_decide (guess ∈ words srv))
  then Ok (srv, BadRequest)
  else
    let game := current_game srv in
    target ← match target_word game with
             | Some t => Ok t
             | None => Raise TypeError   (* iterating over None *)
             end;
    let fb := get_feedback (word_of_string guess) (word_of_string target) in
    let guesses' := game_guesses game ++ [guess] in
    let feedback' := game_feedback game ++ [fb] in
    valid ← remaining_words (words_data srv) (zip guesses' feedback');
    Ok ({| words := words srv; words_data := words_data srv;
           current_game := {| target_word := target_word game;
                              game_guesses := guesses';
                              game_feedback := feedback' |} |},
        Accepted guess fb (length valid)
          (bool_decide (join fb = "GGGGG"))).

(** [get_solver_guess]: the module's [words_data] itself is passed to
    [solve_wordle], so what the call does to its caller's list is done to
    the state of the module. *)
Definition get_solver_guess (Solve : CpModel -> option word) (srv : Server)
  : result (Server * Response) :=
  target ← match target_word (current_game srv) with
           | Some t => Ok t
           | None => Raise TypeError   (* iterating over None *)
           end;
  '(_, st) ← solve_wordle_run Solve (words_data srv) target 6;
  Ok ({| words := words srv; words_data := caller_list st;
         current_game := current_game srv |},
      response st).

(** The games the handlers can produce: a target from the dictionary, and a
    history of five-letter guesses, each with its feedback against the
    target. *)
Definition well_formed (srv : Server) : Prop :=
  Forall (fun w => String.length w = 5%nat) (words srv)
  /\ words_data srv = word_of_string <$> words srv.

Definition in_game (srv : Server) (t : string) : Prop :=
  target_word (current_game srv) = Some t
  /\ t ∈ words srv
  /\ Forall2 (fun g f => String.length g = 5%nat
                         /\ f = get_feedback (word_of_string g)
                                  (word_of_string t))
       (game_guesses (current_game srv)) (game_feedback (current_game srv)).

(** A game on the dictionary crane, slate, irate, trace whose target is
    "crane", before the first guess. *)
Definition sample_game : Server :=
  {| words := ["crane"; "slate"; "irate"; "trace"];
     words_data := scenario;
     current_game := {| target_word := Some "crane"; game_guesses := [];
                        game_feedback := [] |} |}.

(** ** Facts about the handlers *)

Lemma for_fold_app {A S : Type} (body : S -> A -> result S) (l1 l2 : list A)
  (s : S) :
  for_fold body (l1 ++ l2) s = s' ← for_fold body l1 s; for_fold body l2 s'.
Proof.
  revert s. induction l1 as [|x l1 IH]; intros s; cbn [for_fold app]; [done|].
  destruct (body s x) as [s1|e]; rsimpl; [apply IH|done].
Qed.

Lemma word_of_string_inj (s t : string) :
  word_of_string s = word_of_string t -> s = t.
Proof.
  intros Heq. rewrite <- (string_of_word_of_string s),
    <- (string_of_word_of_string t). by rewrite Heq.
Qed.

Lemma join_all_green (fb : list mark) :
  join fb = "GGGGG" <-> fb = replicate 5 G.
Proof.
  split; [|by intros ->].
  unfold join. intros Heq.
  apply (f_equal String.list_ascii_of_string) in Heq.
  rewrite String.list_ascii_of_string_of_list_ascii in Heq. simpl in Heq.
  destruct fb as [|f0 [|f1 [|f2 [|f3 [|f4 [|]]]]]]; try discriminate.
  by destruct f0, f1, f2, f3, f4.
Qed.



Lemma process_user_guess_accepted (lower : string -> string) (body : Body)
  (srv srv' : Server) (g : string) (fb : list mark) (n : nat)
  (solved : bool) :
  process_user_guess lower body srv = Ok (srv', Accepted g fb n solved) ->
  requested_guess lower body = Ok g
  /\ String.length g = 5%nat /\ g ∈ words srv
  /\ exists t valid,
       target_word (current_game srv) = Some t
       /\ fb = get_feedback (word_of_string g) (word_of_string t)
       /\ remaining_words (words_data srv)
            (zip (game_guesses (current_game srv) ++ [g])
                 (game_feedback (current_game srv) ++ [fb])) = Ok valid
       /\ n = length valid
       /\ solved = bool_decide (join fb = "GGGGG")
       /\ words srv' = words srv /\ words_data srv' = words_data srv
       /\ target_word (current_game srv') = Some t
       /\ game_guesses (current_game srv')
          = game_guesses (current_game srv) ++ [g]
       /\ game_feedback (current_game srv')
          = game_feedback (current_game srv) ++ [fb].
Proof.
  unfold process_user_guess.
  destruct (requested_guess lower body) as [guess|e]; rsimpl; [|done].
  destruct (bool_decide (String.length guess = 5%nat)) eqn:Hlen; [|done].
  destruct (bool_decide (guess ∈ words srv)) eqn:Hin; [|done].
  apply bool_decide_eq_true_1 in Hlen, Hin. cbn [negb orb].
  destruct (target_word (current_game srv)) as [t|] eqn:Ht; rsimpl; [|done].
  destruct (remaining_words _ _) as [valid|e] eqn:Hvalid; rsimpl; [|done].
  intros [= <- <- <- <- <-]. simpl.
  split; [done|]. split; [done|]. split; [done|].
  exists t, valid. by repeat split.
Qed.




(** X24.  The [solved] flag of an accepted guess is true exactly when the
    guess is the target word. *)
Theorem solved_flag_iff_target (lower : string -> string) (body : Body)
  (srv srv' : Server) (g : string) (fb : list mark) (n : nat)
  (solved : bool) (t : string) :
  process_user_guess lower body srv = Ok (srv', Accepted g fb n solved) ->
  target_word (current_game srv) = Some t -> String.length t = 5%nat ->
  solved = true <-> g = t.
Proof.
  intros (_ & Hg5 & _ & t' & valid & Ht' & -> & _ & _ & -> & _)
    %process_user_guess_accepted Ht Ht5.
  assert (t' = t) as -> by congruence.
  rewrite bool_decide_eq_true, join_all_green.
  pose proof (get_feedback_all_green (word_of_string g)
                (word_of_string t)) as Hiff.
  rewrite !word_of_string_length, Hg5 in Hiff.
  rewrite Hiff by done. split; [apply word_of_string_inj|by intros ->].
Qed.

Lemma solved_flag_iff_target_witness :
  exists srv' g fb n solved,
    process_user_guess ascii_lower (JObject (Some (JString "CRANE")))
      sample_game = Ok (srv', Accepted g fb n solved)
    /\ target_word (current_game sample_game) = Some "crane"
    /\ String.length "crane" = 5%nat
    /\ (solved = true <-> g = "crane").
Proof.
  assert (Hex : exists srv' g fb n solved,
             process_user_guess ascii_lower
               (JObject (Some (JString "CRANE"))) sample_game
             = Ok (srv', Accepted g fb n solved))
    by (eexists _, _, _, _, _; vm_compute; reflexivity).
  destruct Hex as (srv' & g & fb & n & solved & Hreply).
  exists srv', g, fb, n, solved. split; [exact Hreply|].
  split; [reflexivity|]. split; [reflexivity|].
  exact (solved_flag_iff_target ascii_lower
           (JObject (Some (JString "CRANE"))) sample_game srv' g fb n solved
           "crane" Hreply eq_refl eq_refl).
Defined.

(** X25.  Over two accepted guesses in a row, the count of possible words
    does not grow: the second list of remaining words is a sublist of the
    first. *)
Theorem possible_words_never_grow (lower : string -> string)
  (body1 body2 : Body) (srv srv1 srv2 : Server) (g1 g2 : string)
  (f1 f2 : list mark) (n1 n2 : nat) (s1 s2 : bool) :
  length (game_guesses (current_game srv))
  = length (game_feedback (current_game srv)) ->
  process_user_guess lower body1 srv = Ok (srv1, Accepted g1 f1 n1 s1) ->
  process_user_guess lower body2 srv1 = Ok (srv2, Accepted g2 f2 n2 s2) ->
  (n2 <= n1)%nat.
Proof.
  intros Hlen
    (_ & _ & _ & t & v1 & _ & _ & Hv1 & -> & _ & _ & Hd & _ & Hgs & Hfs)
    %process_user_guess_accepted
    (_ & _ & _ & t' & v2 & _ & _ & Hv2 & -> & _)
    %process_user_guess_accepted.
  rewrite Hd, Hgs, Hfs in Hv2.
  rewrite zip_with_app in Hv2 by (rewrite !length_app; simpl; lia).
  unfold remaining_words in *. rewrite for_fold_app, Hv1 in Hv2.
  cbn [mbind result_bind zip_with for_fold] in Hv2.
  destruct (filter_valid_words v1 (word_of_string g2) f2) as [kept|e] eqn:Hk;
    cbn [mbind result_bind] in Hv2; [|done].
  injection Hv2 as <-.
  apply filter_valid_words_sublist in Hk as [Hsub _].
  by apply sublist_length.
Qed.

Lemma possible_words_never_grow_witness :
  exists srv1 g1 f1 n1 s1 srv2 g2 f2 n2 s2,
    length (game_guesses (current_game sample_game))
    = length (game_feedback (current_game sample_game))
    /\ process_user_guess ascii_lower (JObject (Some (JString "irate")))
         sample_game = Ok (srv1, Accepted g1 f1 n1 s1)
    /\ process_user_guess ascii_lower (JObject (Some (JString "slate")))
         srv1 = Ok (srv2, Accepted g2 f2 n2 s2)
    /\ (n2 <= n1)%nat.
Proof.
  assert (Hex : exists srv1 g1 f1 n1 s1,
             process_user_guess ascii_lower
               (JObject (Some (JString "irate"))) sample_game
             = Ok (srv1, Accepted g1 f1 n1 s1)
             /\ exists srv2 g2 f2 n2 s2,
                  process_user_guess ascii_lower
                    (JObject (Some (JString "slate"))) srv1
                  = Ok (srv2, Accepted g2 f2 n2 s2)).
  { eexists _, _, _, _, _. split; [vm_compute; reflexivity|].
    eexists _, _, _, _, _. vm_compute. reflexivity. }
  destruct Hex as (srv1 & g1 & f1 & n1 & s1 & H1
                   & srv2 & g2 & f2 & n2 & s2 & H2).
  exists srv1, g1, f1, n1, s1, srv2, g2, f2, n2, s2.
  split; [reflexivity|]. split; [exact H1|]. split; [exact H2|].
  exact (possible_words_never_grow ascii_lower
           (JObject (Some (JString "irate")))
           (JObject (Some (JString "slate"))) sample_game srv1 srv2
           g1 g2 f1 f2 n1 n2 s1 s2 eq_refl H1 H2).
Defined.

Lemma choose_target_nonempty (r : nat) (w : string) (ws : list string) :
  exists t,
    (w :: ws) !! (r mod length (w :: ws))%nat = Some t
    /\ choose_target r (w :: ws) = Ok t.
Proof.
  destruct (getitem_lt (w :: ws) (r mod length (w :: ws))%nat)
    as (t & Hitem & Hlookup).
  { apply Nat.mod_upper_bound. simpl. lia. }
  by exists t.
Qed.

(** X26.  When the file holds no five-letter word, [new_game] raises
    [IndexError].  When it holds one, [new_game] returns, whatever is
    drawn: the target is a five-letter word of the file, the history is
    empty and the word lists are those loaded, so that the game is well
    formed.  Every five-letter word of the file is the target for some
    draw. *)
Theorem new_game_starts_game (r : nat) (all_words : list string) :
  (Forall (fun w => String.length w <> 5%nat) all_words ->
   new_game r (load all_words) = Raise IndexError)
  /\ (Exists (fun w => String.length w = 5%nat) all_words ->
      exists srv t,
        new_game r (load all_words) = Ok srv
        /\ target_word (current_game srv) = Some t
        /\ t ∈ all_words /\ String.length t = 5%nat
        /\ game_guesses (current_game srv) = []
        /\ game_feedback (current_game srv) = []
        /\ words srv = words (load all_words)
        /\ words_data srv = words_data (load all_words)
        /\ well_formed srv /\ in_game srv t)
  /\ (forall t, t ∈ all_words -> String.length t = 5%nat ->
      exists r' srv,
        new_game r' (load all_words) = Ok srv
        /\ target_word (current_game srv) = Some t).
Proof.
  unfold new_game, load. cbn [words words_data current_game].
  remember (filter (fun w => String.length w = 5%nat) all_words) as five
    eqn:Hdef.
  assert (Hfive : forall t, t ∈ five <->
                            String.length t = 5%nat /\ t ∈ all_words)
    by (intros t; by rewrite Hdef, list_elem_of_filter).
  clear Hdef. split; [|split].
  - intros Hnone. destruct five as [|w ws]; [done|]. exfalso.
    assert (Hw : w ∈ w :: ws) by left.
    apply Hfive in Hw as [Hw5 Hw]. rewrite Forall_forall in Hnone.
    by apply (Hnone w).
  - intros (w0 & Hw0 & Hw05)%Exists_exists.
    assert (Hin0 : w0 ∈ five) by (by apply Hfive).
    destruct five as [|w ws]; [by apply elem_of_nil in Hin0|].
    destruct (choose_target_nonempty r w ws) as (t & Hlookup & ->). rsimpl.
    apply list_elem_of_lookup_2 in Hlookup.
    destruct (proj1 (Hfive t) Hlookup) as [Ht5 Ht].
    eexists _, t. split; [reflexivity|].
    cbn [words words_data current_game target_word game_guesses
         game_feedback].
    do 7 (split; [done|]).
    assert (Hall : Forall (fun w1 => String.length w1 = 5%nat) (w :: ws)).
    { apply Forall_forall. intros w1 Hw1. by apply Hfive in Hw1 as [? _]. }
    split; [by split|]. split; [done|]. split; [done|constructor].
  - intros t Ht Ht5.
    assert (Hin : t ∈ five) by (by apply Hfive).
    apply list_elem_of_lookup in Hin as [i Hi].
    pose proof (lookup_lt_Some _ _ _ Hi) as Hlt.
    exists i. unfold choose_target.
    destruct five as [|w ws]; [done|].
    rewrite Nat.mod_small by done.
    apply getitem_Ok in Hi. rewrite Hi. rsimpl. by eexists.
Qed.

(** X27.  A request to the solver endpoint spends a word of the shared
    dictionary.  In a well-formed game with a solver that honours its
    contract the request returns; the game and the list of words are as
    before, but unless no guess was made, [words_data] has lost the first
    guess, so it no longer is the encoding of the list of words. *)
Theorem solver_guess_consumes_word (Solve : CpModel -> option word)
  (srv : Server) (t : string) :
  sound Solve -> well_formed srv ->
  target_word (current_game srv) = Some t -> String.length t = 5%nat ->
  exists srv' resp,
    get_solver_guess Solve srv = Ok (srv', resp)
    /\ words srv' = words srv /\ current_game srv' = current_game srv
    /\ match guesses resp with
       | [] => words_data srv' = words_data srv
       | g :: _ =>
           list_remove (word_of_string g) (words_data srv)
           = Ok (words_data srv')
           /\ ~ well_formed srv'
       end.
Proof.
  intros Hsound [Hwords Hdata] Ht Ht5.
  assert (H5 : five_letters (words_data srv)).
  { rewrite Hdata. unfold five_letters. rewrite Forall_fmap.
    eapply Forall_impl; [exact Hwords|].
    intros w Hw. simpl. by rewrite word_of_string_length. }
  destruct (solve_wordle_run_total Solve (words_data srv) t 6 Hsound H5 Ht5)
    as (fm & e & st & _ & Hattempts & Hrun & _).
  unfold get_solver_guess. rewrite Ht. rsimpl. rewrite Hrun. rsimpl.
  eexists _, _. split; [reflexivity|]. cbn [words current_game words_data].
  split; [done|]. split; [done|].
  assert (Hinit : caller_state (words_data srv)
                    (initial_state (words_data srv))) by (by split).
  destruct (attempts_caller_list Solve fm (words_data srv) _ _ _ _ e
              Hinit Hattempts) as [[-> Hsame]|(g & rest & -> & Hremove)];
    [done|].
  pose proof (list_remove_Ok _ _ _ Hremove) as (Hin & Hlen & _).
  assert (Hg : word_of_string (string_of_word g) = g).
  { rewrite Hdata in Hin. apply list_elem_of_fmap in Hin as (s & -> & _).
    by rewrite string_of_word_of_string. }
  rewrite Hg. split; [done|].
  intros [_ Hdata']. cbn [words words_data] in Hdata'.
  rewrite Hdata', Hdata, !length_fmap in Hlen. lia.
Qed.

Lemma solver_guess_consumes_word_witness :
  sound enum_solver /\ well_formed sample_game
  /\ target_word (current_game sample_game) = Some "crane"
  /\ String.length "crane" = 5%nat
  /\ exists srv' resp,
       get_solver_guess enum_solver sample_game = Ok (srv', resp)
       /\ words srv' = words sample_game
       /\ current_game srv' = current_game sample_game
       /\ match guesses resp with
          | [] => words_data srv' = words_data sample_game
          | g :: _ =>
              list_remove (word_of_string g) (words_data sample_game)
              = Ok (words_data srv')
              /\ ~ well_formed srv'
          end.
Proof.
  assert (Hwf : well_formed sample_game)
    by (split; [repeat constructor|reflexivity]).
  split; [exact enum_solver_sound|]. split; [exact Hwf|].
  split; [reflexivity|]. split; [reflexivity|].
  exact (solver_guess_consumes_word enum_solver sample_game "crane"
           enum_solver_sound Hwf eq_refl eq_refl).
Defined.

End Api.
